(** * depccg: the Cython front end of the A* CCG parser ([depccg/parser.pyx])

    A shallow embedding of [build_terminal_constraints] and
    [build_nonterminal_constraints], of the two parser classes
    [EnglishCCGParser] and [JapaneseCCGParser] (their [__init__],
    [from_json], [parse_doc], [parse_json] and [_parse_doc_tag_and_dep]),
    of the numpy operations they perform on the score matrices, and of the
    id counter of [Cacheable] (cacheable.cpp).

    Conventions.
    - Python [int] is [Z]; a C [unsigned] is a [Z] checked against its range.
    - Python [float] is a binary64 value ([PrimFloat.float]); a [float32]
      matrix stores binary64 values that are representable in binary32.
    - Exceptions are values of [exn]; a computation that may raise has type
      [res A]; one that also mutates state has type [Py S A].
    - numpy arrays are mutable objects: they live in a [store] and are
      passed around by reference ([loc]). *)

From Stdlib Require Import ZArith Strings.Ascii.
From Stdlib Require Import Floats.PrimFloat Floats.SpecFloat Floats.FloatOps.
From stdpp Require Import gmap strings list fin_maps.

Local Open Scope Z_scope.
Local Open Scope nat_scope.

(** ** Exceptions and the two monads *)

Inductive exn : Type :=
| AttributeError (attr : string)
| AssertionError
| IndexError
| KeyError
| OverflowError
| TypeError
| ValueError
| SystemError
    (* not a Python exception: the C code read memory it never wrote; the
       model says nothing about what follows *)
| UndefinedBehaviour
    (* the shape-mismatch [RuntimeError] of [_parse_doc_tag_and_dep]; it
       carries the four shapes its message prints *)
| RuntimeError (expected_tag expected_dep actual_tag actual_dep : list nat)
    (* whatever [Category.parse] raises on a string it rejects *)
| CategoryError (s : string).

Definition res (A : Type) : Type := exn + A.

#[global] Instance res_ret : MRet res := λ A x, inr x.
#[global] Instance res_bind : MBind res := λ A B f m,
  match m with
  | inl e => inl e
  | inr x => f x
  end.

(** A Python computation over a mutable state [S]: the state reached is
    returned also when an exception is raised (mutations are not rolled
    back). *)
Definition Py (S A : Type) : Type := S → res A * S.

#[global] Instance Py_ret {S} : MRet (Py S) := λ A x s, (inr x, s).
#[global] Instance Py_bind {S} : MBind (Py S) := λ A B f m s,
  match m s with
  | (inl e, s') => (inl e, s')
  | (inr x, s') => f x s'
  end.

Definition raise {S A} (e : exn) : Py S A := λ s, (inl e, s).
Definition lift {S A} (r : res A) : Py S A := λ s, (r, s).

(** [for x in l: body x] *)
Fixpoint for_each {S A} (l : list A) (body : A → Py S unit) : Py S unit :=
  match l with
  | [] => mret tt
  | x :: l' => _ ← body x; for_each l' body
  end.

(** [[f(x) for x in l]] when [f] may raise: left to right, first failure wins. *)
Fixpoint map_res {A B} (f : A → res B) (l : list A) : res (list B) :=
  match l with
  | [] => inr []
  | x :: l' => y ← f x; ys ← map_res f l'; mret (y :: ys)
  end.

(** [enumerate(l)] *)
Definition enumerate {A} (l : list A) : list (nat * A) := imap (λ i x, (i, x)) l.

(** ** numpy arrays *)

Inductive dtype : Type := float32 | float64.

(** Rounding of a binary64 value to binary32 (round to nearest even), as
    numpy does when a Python float is stored into a [float32] array. *)
Definition to_float32 (x : float) : float :=
  match Prim2SF x with
  | S754_finite s m e =>
      SF2Prim (binary_normalize 24 128 (if s then Z.neg m else Z.pos m) e s)
  | _ => x
  end.

Definition cast (d : dtype) (x : float) : float :=
  match d with
  | float32 => to_float32 x
  | float64 => x
  end.

(** A C-contiguous array: [data] is row-major and has [prod shape] entries. *)
Record ndarray : Type := mk_ndarray {
  arr_dtype : dtype;
  shape : list nat;
  data : list float
}.

Definition prod_list (l : list nat) : nat := foldr Nat.mul 1 l.

Definition ndarray_wf (a : ndarray) : Prop :=
  length (data a) = prod_list (shape a).

(** An index [i] into an axis of length [n]: negative indices count from
    the end, anything outside [-n, n) raises [IndexError]. *)
Definition normalize_index (i : Z) (n : nat) : res nat :=
  if bool_decide (0 ≤ i < Z.of_nat n)%Z then inr (Z.to_nat i)
  else if bool_decide (- Z.of_nat n ≤ i < 0)%Z then inr (Z.to_nat (i + Z.of_nat n))
  else inl IndexError.

(** [a[i, :] = v] *)
Definition ndarray_set_row (a : ndarray) (i : Z) (v : float) : res ndarray :=
  match shape a with
  | n0 :: n1 :: rest =>
      i' ← normalize_index i n0;
      let blk := n1 * prod_list rest in
      mret (mk_ndarray (arr_dtype a) (shape a)
              (list_inserts (i' * blk) (replicate blk (cast (arr_dtype a) v)) (data a)))
  | _ => inl IndexError
  end.

(** [a[i, j] = v] *)
Definition ndarray_set_item (a : ndarray) (i j : Z) (v : float) : res ndarray :=
  match shape a with
  | n0 :: n1 :: rest =>
      i' ← normalize_index i n0;
      j' ← normalize_index j n1;
      let blk := prod_list rest in
      mret (mk_ndarray (arr_dtype a) (shape a)
              (list_inserts ((i' * n1 + j') * blk) (replicate blk (cast (arr_dtype a) v)) (data a)))
  | _ => inl IndexError
  end.

(** Row [k] of an array: the [k]-th block along the first axis. *)
Definition ndarray_row (a : ndarray) (k : nat) : list float :=
  let blk := prod_list (tail (shape a)) in
  take blk (drop (k * blk) (data a)).

(** Entry [(k, j)] of a matrix. *)
Definition ndarray_get (a : ndarray) (k j : nat) : option float :=
  match shape a with
  | [n0; n1] => if bool_decide (k < n0 ∧ j < n1) then data a !! (k * n1 + j) else None
  | _ => None
  end.

(** The store of array objects. *)
Definition loc : Type := positive.
Abbreviation store := (gmap loc ndarray).

Definition load (l : loc) : Py store ndarray := λ s,
  match s !! l with
  | Some a => (inr a, s)
  | None => (inl SystemError, s)
  end.

Definition update (l : loc) (f : ndarray → res ndarray) : Py store unit := λ s,
  match s !! l with
  | Some a =>
      match f a with
      | inr a' => (inr tt, <[l := a']> s)
      | inl e => (inl e, s)
      end
  | None => (inl SystemError, s)
  end.

(** ** The native side: categories, combinators and the C++ engine

    [depccg.cat], [depccg.combinator], [depccg.utils] and the C++ sources
    are compiled separately.  What [parser.pyx] imports from them is taken
    as an interface; every definition and theorem below holds for any
    implementation of it. *)

Class CategoryAPI : Type := {
  Category : Type;
  Category_eq_dec :: EqDecision Category;
  Category_countable :: Countable Category;
  (** [Category.parse(s)] *)
  Category_parse : string → res Category;
  (** [cat.strip_feat(feat)] *)
  strip_feat : Category → string → Category
}.

(** An element of a [possible_root_cats] list: a string or a [Category]
    object (told apart by [isinstance(cat, Category)]). *)
Inductive cat_or_str `{CategoryAPI} : Type :=
| Str (s : string)
| Cat (c : Category).
Arguments Str {_} s.
Arguments Cat {_} c.

(** A partial-parse constraint: a 2-tuple [(cat, i)] on a token or a
    3-tuple [(cat_or_None, start_of_span, span_length)] on a span. *)
Inductive constraint `{CategoryAPI} : Type :=
| Terminal (cat : Category) (i : Z)
| NonTerminal (cat : option Category) (start_of_span span_length : Z).
Arguments Terminal {_} cat i.
Arguments NonTerminal {_} cat start_of_span span_length.

(** The C++ [PartialConstraints]: the unary rules it was constructed with
    (none for the default constructor) and the spans added to it. *)
Record PartialConstraints `{CategoryAPI} : Type := mk_PartialConstraints {
  pc_unary_rules : option (gmap Category (gset Category));
  pc_spans : list (option Category * Z * Z)
}.
Arguments mk_PartialConstraints {_} pc_unary_rules pc_spans.

(** The arguments of the C++ entry point [ParseSentences], in the order
    of the call.  [tags] and [deps] are the [float*] arrays: entry [i]
    is the row-major data of sentence [i]'s matrix. *)
Record parse_request `{CategoryAPI} {Combinator : Type} : Type := mk_parse_request {
  csents : list string;
  tags : list (list float);
  deps : list (list float);
  category_dict_ : gmap string (gset Category);
  tag_list_ : list Category;
  beta_ : float;
  use_beta_ : bool;
  pruning_size_ : Z;
  nbest_ : Z;
  possible_root_cats_ : gset Category;
  unary_rules_ : gmap Category (gset Category);
  seen_rules_ : gset (Category * Category);
  apply_binary_rules : list (list Combinator);
  c_constraints : list PartialConstraints;
  max_length_ : Z;
  max_steps_ : Z
}.
Arguments parse_request {_} Combinator.
Arguments mk_parse_request {_ _}.

Class Engine `{CategoryAPI} : Type := {
  (** the rule objects of [depccg.combinator] *)
  Combinator : Type;
  en_default_binary_rules : list Combinator;
  ja_default_binary_rules : list Combinator;
  (** [combinator_list_to_vector(rules)]; [rules] may be [None] *)
  combinator_list_to_vector : option (list Combinator) → res (list Combinator);
  (** [cat_list_to_unordered_set(cats)]; [cats] may hold strings *)
  cat_list_to_unordered_set : option (list cat_or_str) → res (gset Category);
  (** the supertagger that [load_default_tagger] reads from a directory *)
  Tagger : Type;
  load_tagger : string → res Tagger;
  (** the C++ derivation nodes *)
  NodeType : Type;
  (** [ParseSentences(...)]: one list of scored nodes per sentence *)
  ParseSentences : parse_request Combinator → list (list (NodeType * float))
}.

(** [Tree.from_ptr(node, lang)] *)
Record Tree `{Engine} : Type := from_ptr {
  tree_node : NodeType;
  tree_lang : option string
}.
Arguments from_ptr {_ _} tree_node tree_lang.

(** ** [build_terminal_constraints] *)

Definition pseudo_neginf : float := (-10e10)%float.

Section terminal_constraints.
Context `{CategoryAPI}.

(** [{tag: i for i, tag in enumerate(tag_list)}]: a later occurrence of a
    tag replaces an earlier one. *)
Definition make_tag_dict (tag_list : list Category) : gmap Category nat :=
  foldl (λ d p, <[p.2 := p.1]> d) ∅ (enumerate tag_list).

(** [tag_dict[cat]] *)
Definition dict_get (d : gmap Category nat) (cat : Category) : res nat :=
  match d !! cat with
  | Some i => inr i
  | None => inl KeyError
  end.

(** The body of the loop over the constraints. *)
Definition apply_terminal_constraint
    (tag_dict : gmap Category nat) (tag_probs : loc) (cx : Category * Z) : Py store unit :=
  let '(cat, i) := cx in
  cat_index ← lift (dict_get tag_dict cat);
  _ ← update tag_probs (λ a, ndarray_set_row a i pseudo_neginf);
  update tag_probs (λ a, ndarray_set_item a i (Z.of_nat cat_index) 0%float).

Definition build_terminal_constraints
    (constraints : list (Category * Z)) (tag_probs : loc) (tag_list : list Category)
    : Py store loc :=
  let tag_dict := make_tag_dict tag_list in
  _ ← for_each constraints (apply_terminal_constraint tag_dict tag_probs);
  mret tag_probs.

(** ** [build_nonterminal_constraints] *)

(** Conversion of a Python [int] to a C [int]. *)
Definition as_int (z : Z) : res Z :=
  if bool_decide (- 2 ^ 31 ≤ z < 2 ^ 31)%Z then inr z else inl OverflowError.

Definition build_nonterminal_constraints
    (py_constraints : list (option Category * Z * Z))
    (unary_rules : gmap Category (gset Category)) : res PartialConstraints :=
  spans ← map_res (λ '(cat, start_of_span, span_length),
             s ← as_int start_of_span;
             l ← as_int span_length;
             mret (cat, s, l)) py_constraints;
  mret (mk_PartialConstraints (Some unary_rules) spans).

End terminal_constraints.

(** ** The parser objects *)

Section parser.
Context `{Engine}.

(** The C attributes of [cdef class EnglishCCGParser], each [None] until
    assigned.  [py_dict] is the instance [__dict__]: an instance of the
    extension type itself has none; an instance of a Python-level subclass
    has one.  [max_steps] is not among the declared attributes, so an
    assignment to it is an ordinary [setattr]. *)
Record parser_obj : Type := mk_parser_obj {
  binary_rules : option (list Combinator);
  possible_root_cats : option (list cat_or_str);
  category_dict : option (gmap string (list Category));
  tag_list : option (list Category);
  unary_rules : option (list (Category * Category));
  seen_rules : option (list (Category * Category));
  beta : option float;
  use_beta : option bool;
  use_category_dict : option bool;
  use_seen_rules : option bool;
  pruning_size : option Z;
  nbest : option Z;
  max_length : option Z;
  tagger : option Tagger;
  lang : option string;
  py_dict : option (gmap string Z)
}.

Definition set_binary_rules (v : option (list Combinator)) (self : parser_obj) : parser_obj :=
  let 'mk_parser_obj _ b c d e f g h i j k l m n o p := self in
  mk_parser_obj v b c d e f g h i j k l m n o p.

Definition set_possible_root_cats (v : option (list cat_or_str)) (self : parser_obj) : parser_obj :=
  let 'mk_parser_obj a _ c d e f g h i j k l m n o p := self in
  mk_parser_obj a v c d e f g h i j k l m n o p.

Definition set_category_dict (v : option (gmap string (list Category))) (self : parser_obj) : parser_obj :=
  let 'mk_parser_obj a b _ d e f g h i j k l m n o p := self in
  mk_parser_obj a b v d e f g h i j k l m n o p.

Definition set_tag_list (v : option (list Category)) (self : parser_obj) : parser_obj :=
  let 'mk_parser_obj a b c _ e f g h i j k l m n o p := self in
  mk_parser_obj a b c v e f g h i j k l m n o p.

Definition set_unary_rules (v : option (list (Category * Category))) (self : parser_obj) : parser_obj :=
  let 'mk_parser_obj a b c d _ f g h i j k l m n o p := self in
  mk_parser_obj a b c d v f g h i j k l m n o p.

Definition set_seen_rules (v : option (list (Category * Category))) (self : parser_obj) : parser_obj :=
  let 'mk_parser_obj a b c d e _ g h i j k l m n o p := self in
  mk_parser_obj a b c d e v g h i j k l m n o p.

Definition set_beta (v : option float) (self : parser_obj) : parser_obj :=
  let 'mk_parser_obj a b c d e f _ h i j k l m n o p := self in
  mk_parser_obj a b c d e f v h i j k l m n o p.

Definition set_use_beta (v : option bool) (self : parser_obj) : parser_obj :=
  let 'mk_parser_obj a b c d e f g _ i j k l m n o p := self in
  mk_parser_obj a b c d e f g v i j k l m n o p.

Definition set_use_category_dict (v : option bool) (self : parser_obj) : parser_obj :=
  let 'mk_parser_obj a b c d e f g h _ j k l m n o p := self in
  mk_parser_obj a b c d e f g h v j k l m n o p.

Definition set_use_seen_rules (v : option bool) (self : parser_obj) : parser_obj :=
  let 'mk_parser_obj a b c d e f g h i _ k l m n o p := self in
  mk_parser_obj a b c d e f g h i v k l m n o p.

Definition set_pruning_size (v : option Z) (self : parser_obj) : parser_obj :=
  let 'mk_parser_obj a b c d e f g h i j _ l m n o p := self in
  mk_parser_obj a b c d e f g h i j v l m n o p.

Definition set_nbest (v : option Z) (self : parser_obj) : parser_obj :=
  let 'mk_parser_obj a b c d e f g h i j k _ m n o p := self in
  mk_parser_obj a b c d e f g h i j k v m n o p.

Definition set_max_length (v : option Z) (self : parser_obj) : parser_obj :=
  let 'mk_parser_obj a b c d e f g h i j k l _ n o p := self in
  mk_parser_obj a b c d e f g h i j k l v n o p.

Definition set_tagger (v : option Tagger) (self : parser_obj) : parser_obj :=
  let 'mk_parser_obj a b c d e f g h i j k l m _ o p := self in
  mk_parser_obj a b c d e f g h i j k l m v o p.

Definition set_lang (v : option string) (self : parser_obj) : parser_obj :=
  let 'mk_parser_obj a b c d e f g h i j k l m n _ p := self in
  mk_parser_obj a b c d e f g h i j k l m n v p.

Definition set_py_dict (v : option (gmap string Z)) (self : parser_obj) : parser_obj :=
  let 'mk_parser_obj a b c d e f g h i j k l m n o _ := self in
  mk_parser_obj a b c d e f g h i j k l m n o v.

(** [self.x = v] for a declared attribute [x]. *)
Definition assign (upd : parser_obj → parser_obj) : Py parser_obj unit :=
  λ self, (inr tt, upd self).

(** [self.name = v] for a name that is not a declared attribute. *)
Definition setattr (name : string) (v : Z) : Py parser_obj unit := λ self,
  match py_dict self with
  | Some d => (inr tt, set_py_dict (Some (<[name := v]> d)) self)
  | None => (inl (AttributeError name), self)
  end.

(** [self.name] for a name that is not a declared attribute. *)
Definition getattr (self : parser_obj) (name : string) : res Z :=
  match py_dict self with
  | Some d =>
      match d !! name with
      | Some v => inr v
      | None => inl (AttributeError name)
      end
  | None => inl (AttributeError name)
  end.

(** The two extension types, and whether the class instantiated is one of
    them or a Python-level subclass that inherits [__init__]. *)
Inductive language : Type := English | Japanese.

Record parser_class : Type := mk_parser_class {
  cls_language : language;
  cls_python_subclass : bool
}.

(** The object [tp_new] hands to [__init__]. *)
Definition new_parser (cls : parser_class) : parser_obj :=
  mk_parser_obj None None None None None None None None None None None None None None None
    (if cls_python_subclass cls then Some ∅ else None).

(** [[Category.parse(cat) if not isinstance(cat, Category) else cat
      for cat in possible_root_cats]] *)
Definition parse_root_cats (possible_root_cats : list cat_or_str) : res (list cat_or_str) :=
  map_res (λ cat,
    match cat with
    | Str s => c ← Category_parse s; mret (Cat c)
    | Cat c => mret (Cat c)
    end) possible_root_cats.

(** [x or y] on lists that may be [None] *)
Definition list_or {A} (x : option (list A)) (y : list A) : list A :=
  match x with
  | Some (a :: l) => a :: l
  | _ => y
  end.

Definition en_possible_root_cats : list cat_or_str :=
  [Str "S[dcl]"; Str "S[wq]"; Str "S[q]"; Str "S[qem]"; Str "NP"].

Definition ja_possible_root_cats : list cat_or_str :=
  [Str "NP[case=nc,mod=nm,fin=f]";
   Str "NP[case=nc,mod=nm,fin=t]";
   Str "S[mod=nm,form=attr,fin=t]";
   Str "S[mod=nm,form=base,fin=f]";
   Str "S[mod=nm,form=base,fin=t]";
   Str "S[mod=nm,form=cont,fin=f]";
   Str "S[mod=nm,form=cont,fin=t]";
   Str "S[mod=nm,form=da,fin=f]";
   Str "S[mod=nm,form=da,fin=t]";
   Str "S[mod=nm,form=hyp,fin=t]";
   Str "S[mod=nm,form=imp,fin=f]";
   Str "S[mod=nm,form=imp,fin=t]";
   Str "S[mod=nm,form=r,fin=t]";
   Str "S[mod=nm,form=s,fin=t]";
   Str "S[mod=nm,form=stem,fin=f]";
   Str "S[mod=nm,form=stem,fin=t]"].

(** The arguments of [__init__] (the same for both classes) once the
    defaults of the signature are filled in. *)
Record init_args : Type := mk_init_args {
  a_category_dict : gmap string (list Category);
  a_tag_list : list Category;
  a_unary_rules : list (Category * Category);
  a_seen_rules : list (Category * Category);
  a_binary_rules : option (list Combinator);
  a_beta : float;
  a_use_beta : bool;
  a_use_category_dict : bool;
  a_use_seen_rules : bool;
  a_pruning_size : Z;
  a_nbest : Z;
  a_possible_root_cats : option (list cat_or_str);
  a_max_length : Z;
  a_max_steps : Z
}.

(** Keyword arguments: [None] stands for a keyword that is not passed. *)
Record kwargs : Type := mk_kwargs {
  kw_binary_rules : option (list Combinator);
  kw_beta : option float;
  kw_use_beta : option bool;
  kw_use_category_dict : option bool;
  kw_use_seen_rules : option bool;
  kw_pruning_size : option Z;
  kw_nbest : option Z;
  kw_possible_root_cats : option (list cat_or_str);
  kw_max_length : option Z;
  kw_max_steps : option Z
}.

Definition no_kwargs : kwargs :=
  mk_kwargs None None None None None None None None None None.

#[warnings="-inexact-float"]
Definition beta_default : float := 0.00001%float.

(** Binding of a call [cls(category_dict, tag_list, unary_rules,
    seen_rules, **kwargs)] to the signature
    [binary_rules=None, beta=0.00001, use_beta=True,
     use_category_dict=True, use_seen_rules=True, pruning_size=50,
     nbest=1, possible_root_cats=None, max_length=250, max_steps=100000]. *)
Definition bind_args
    (category_dict : gmap string (list Category)) (tag_list : list Category)
    (unary_rules seen_rules : list (Category * Category)) (kw : kwargs) : init_args :=
  mk_init_args category_dict tag_list unary_rules seen_rules
    (kw_binary_rules kw)
    (default beta_default (kw_beta kw))
    (default true (kw_use_beta kw))
    (default true (kw_use_category_dict kw))
    (default true (kw_use_seen_rules kw))
    (default 50%Z (kw_pruning_size kw))
    (default 1%Z (kw_nbest kw))
    (kw_possible_root_cats kw)
    (default 250%Z (kw_max_length kw))
    (default 100000%Z (kw_max_steps kw)).

(** [EnglishCCGParser.__init__] *)
Definition EnglishCCGParser_init (a : init_args) : Py parser_obj unit :=
  _ ← assign (set_binary_rules (Some (list_or (a_binary_rules a) en_default_binary_rules)));
  let possible_root_cats := default en_possible_root_cats (a_possible_root_cats a) in
  cats ← lift (parse_root_cats possible_root_cats);
  _ ← assign (set_possible_root_cats (Some cats));
  _ ← assign (set_category_dict (Some (a_category_dict a)));
  _ ← assign (set_tag_list (Some (a_tag_list a)));
  _ ← assign (set_unary_rules (Some (a_unary_rules a)));
  _ ← assign (set_seen_rules (Some (a_seen_rules a)));
  _ ← assign (set_beta (Some (a_beta a)));
  _ ← assign (set_use_beta (Some (a_use_beta a)));
  _ ← assign (set_use_category_dict (Some (a_use_category_dict a)));
  _ ← assign (set_use_seen_rules (Some (a_use_seen_rules a)));
  _ ← assign (set_pruning_size (Some (a_pruning_size a)));
  _ ← assign (set_nbest (Some (a_nbest a)));
  _ ← assign (set_max_length (Some (a_max_length a)));
  _ ← setattr "max_steps" (a_max_steps a);
  _ ← assign (set_tagger None);
  assign (set_lang (Some "en")).

(** [JapaneseCCGParser.__init__]; it does not call the base class. *)
Definition JapaneseCCGParser_init (a : init_args) : Py parser_obj unit :=
  _ ← match a_binary_rules a with
      | None => assign (set_binary_rules (Some ja_default_binary_rules))
      | Some _ => mret tt
      end;
  let possible_root_cats := default ja_possible_root_cats (a_possible_root_cats a) in
  cats ← lift (parse_root_cats possible_root_cats);
  _ ← assign (set_possible_root_cats (Some cats));
  _ ← assign (set_category_dict (Some (a_category_dict a)));
  _ ← assign (set_tag_list (Some (a_tag_list a)));
  _ ← assign (set_unary_rules (Some (a_unary_rules a)));
  _ ← assign (set_seen_rules (Some (a_seen_rules a)));
  _ ← assign (set_binary_rules (a_binary_rules a));
  _ ← assign (set_beta (Some (a_beta a)));
  _ ← assign (set_use_beta (Some (a_use_beta a)));
  _ ← assign (set_use_category_dict (Some (a_use_category_dict a)));
  _ ← assign (set_use_seen_rules (Some (a_use_seen_rules a)));
  _ ← assign (set_pruning_size (Some (a_pruning_size a)));
  _ ← assign (set_nbest (Some (a_nbest a)));
  _ ← assign (set_possible_root_cats (Some possible_root_cats));
  _ ← assign (set_max_length (Some (a_max_length a)));
  _ ← setattr "max_steps" (a_max_steps a);
  _ ← assign (set_tagger None);
  assign (set_lang (Some "en")).

Definition init_of (l : language) : init_args → Py parser_obj unit :=
  match l with
  | English => EnglishCCGParser_init
  | Japanese => JapaneseCCGParser_init
  end.

(** The call [cls(...)]: a new object is initialised and returned, unless
    [__init__] raises. *)
Definition construct (cls : parser_class) (a : init_args) : res parser_obj :=
  match init_of (cls_language cls) a (new_parser cls) with
  | (inr _, self) => inr self
  | (inl e, _) => inl e
  end.

(** [load_default_tagger] *)
Definition load_default_tagger (dirname : string) : Py parser_obj unit :=
  t ← lift (load_tagger dirname);
  assign (set_tagger (Some t)).

(** ** [from_json] *)

(** The dict decoded from the JSON file: the four entries the loader
    reads.  A rule is a JSON array of strings, unpacked as [c1, c2]. *)
Record json_input : Type := mk_json_input {
  json_unary_rules : list (list string);
  json_cat_dict : list (string * list string);
  json_targets : list string;
  json_seen_rules : list (list string)
}.

(** [c1, c2 = item] *)
Definition unpack2 (item : list string) : res (string * string) :=
  match item with
  | [c1; c2] => inr (c1, c2)
  | _ => inl ValueError
  end.

(** [[(Category.parse(c1), Category.parse(c2)) for c1, c2 in rules]] *)
Definition parse_pairs (rules : list (list string)) : res (list (Category * Category)) :=
  map_res (λ item,
    '(c1, c2) ← unpack2 item;
    c1 ← Category_parse c1;
    c2 ← Category_parse c2;
    mret (c1, c2)) rules.

(** [lambda cat: cat.strip_feat('[X]').strip_feat('[nb]')] *)
Definition preprocess (cat : Category) : Category :=
  strip_feat (strip_feat cat "[X]") "[nb]".

(** The loop that fills [seen_rules]. *)
Definition parse_seen_rules (rules : list (list string)) : res (list (Category * Category)) :=
  map_res (λ item,
    '(c1, c2) ← unpack2 item;
    c1 ← Category_parse c1;
    let c1 := preprocess c1 in
    c2 ← Category_parse c2;
    let c2 := preprocess c2 in
    mret (c1, c2)) rules.

(** The loop that fills [category_dict]. *)
Fixpoint parse_cat_dict (items : list (string * list string))
    (category_dict : gmap string (list Category)) : res (gmap string (list Category)) :=
  match items with
  | [] => inr category_dict
  | (word, cats) :: items' =>
      cs ← map_res Category_parse cats;
      parse_cat_dict items' (<[word := cs]> category_dict)
  end.

(** [if tagger_model_dir: parser.load_default_tagger(tagger_model_dir)] *)
Definition maybe_load_tagger (tagger_model_dir : option string) (parser : parser_obj)
    : res parser_obj :=
  match tagger_model_dir with
  | None | Some EmptyString => inr parser
  | Some dir =>
      match load_default_tagger dir parser with
      | (inr _, parser') => inr parser'
      | (inl e, _) => inl e
      end
  end.

Definition from_json (cls : parser_class) (json : json_input)
    (tagger_model_dir : option string) (kw : kwargs) : res parser_obj :=
  unary_rules ← parse_pairs (json_unary_rules json);
  category_dict ← parse_cat_dict (json_cat_dict json) ∅;
  tag_list ← map_res Category_parse (json_targets json);
  seen_rules ← parse_pairs (json_seen_rules json);
  seen_rules ← parse_seen_rules (json_seen_rules json);
  parser ← construct cls (bind_args category_dict tag_list unary_rules seen_rules kw);
  maybe_load_tagger tagger_model_dir parser.

(** The loader the specification asks for: [from_json] with the first,
    unstripped build of the seen-rules list dropped. *)
Definition from_json_single_build (cls : parser_class) (json : json_input)
    (tagger_model_dir : option string) (kw : kwargs) : res parser_obj :=
  unary_rules ← parse_pairs (json_unary_rules json);
  category_dict ← parse_cat_dict (json_cat_dict json) ∅;
  tag_list ← map_res Category_parse (json_targets json);
  seen_rules ← parse_seen_rules (json_seen_rules json);
  parser ← construct cls (bind_args category_dict tag_list unary_rules seen_rules kw);
  maybe_load_tagger tagger_model_dir parser.

(** The arguments [from_json] passes to [cls(...)]. *)
Definition from_json_args (json : json_input) (kw : kwargs) : res init_args :=
  unary_rules ← parse_pairs (json_unary_rules json);
  category_dict ← parse_cat_dict (json_cat_dict json) ∅;
  tag_list ← map_res Category_parse (json_targets json);
  seen_rules ← parse_pairs (json_seen_rules json);
  seen_rules ← parse_seen_rules (json_seen_rules json);
  mret (bind_args category_dict tag_list unary_rules seen_rules kw).

(** ** [_parse_doc_tag_and_dep] *)

(** [s.split(' ')] *)
Fixpoint split_space_from (cur : string) (s : string) : list string :=
  match s with
  | EmptyString => [String.rev cur]
  | String c s' =>
      if Ascii.eqb c " "%char then String.rev cur :: split_space_from EmptyString s'
      else split_space_from (String c cur) s'
  end.

Definition split_space (s : string) : list string := split_space_from EmptyString s.

(** Conversions of an attribute to the C type of the variable it
    initialises: [cdef unsigned x = self.x], [cdef float x = self.x],
    [cdef bool x = self.x]. *)
Definition as_unsigned (v : option Z) : res Z :=
  match v with
  | None => inl TypeError
  | Some z => if bool_decide (0 ≤ z < 2 ^ 32)%Z then inr z else inl OverflowError
  end.

Definition as_float (v : option float) : res float :=
  match v with
  | None => inl TypeError
  | Some x => inr (to_float32 x)
  end.

Definition as_bool (v : option bool) : bool := default false v.

(** Modelled from the spec: the container conversions of [depccg.utils]
    (not under src/), each copying a Python container into the C++
    container the variable it initialises is declared with; the spec's
    data model has the seen rules as a set of ordered pairs and the unary
    rules as a map from a child category to the set of its parents. *)
Definition cat_list_to_vector (cats : option (list Category)) : res (list Category) :=
  match cats with
  | None => inl TypeError
  | Some l => inr l
  end.

Definition convert_cat_dict (d : option (gmap string (list Category)))
    : res (gmap string (gset Category)) :=
  match d with
  | None => inl TypeError
  | Some d => inr (list_to_set <$> d)
  end.

Definition convert_unary_rules (rules : option (list (Category * Category)))
    : res (gmap Category (gset Category)) :=
  match rules with
  | None => inl TypeError
  | Some l =>
      inr (foldl (λ m '(child, parent), <[child := {[parent]} ∪ default ∅ (m !! child)]> m) ∅ l)
  end.

Definition convert_seen_rules (rules : option (list (Category * Category)))
    : res (gset (Category * Category)) :=
  match rules with
  | None => inl TypeError
  | Some l => inr (list_to_set l)
  end.

(** [[cx for cx in constraint if len(cx) == 3]] and
    [[cx for cx in constraint if len(cx) == 2]] *)
Definition nonterminal_of (constraint : list constraint) : list (option Category * Z * Z) :=
  omap (λ cx, match cx with NonTerminal c s l => Some (c, s, l) | Terminal _ _ => None end)
    constraint.

Definition terminal_of (constraint : list constraint) : list (Category * Z) :=
  omap (λ cx, match cx with Terminal c i => Some (c, i) | NonTerminal _ _ _ => None end)
    constraint.

(** The loop over [zip(constraints, probs)]: it returns the entries
    written to [c_constraints] and the list [new_probs]. *)
Fixpoint load_constraints
    (zipped : list (list constraint * (loc * loc)))
    (unary_rules_ : gmap Category (gset Category)) (py_tag_list : list Category)
    : Py store (list PartialConstraints * list (loc * loc)) :=
  match zipped with
  | [] => mret ([], [])
  | (constraint, (py_cat_scores, py_dep_scores)) :: zipped' =>
      let nonterminal_constraints := nonterminal_of constraint in
      let terminal_constraints := terminal_of constraint in
      c ← lift (build_nonterminal_constraints nonterminal_constraints unary_rules_);
      py_cat_scores ← build_terminal_constraints terminal_constraints py_cat_scores py_tag_list;
      '(cs, new_probs) ← load_constraints zipped' unary_rules_ py_tag_list;
      mret (c :: cs, (py_cat_scores, py_dep_scores) :: new_probs)
  end.

(** [cat_scores = py_cat_scores] for a variable declared
    [np.ndarray[float, ndim=2, mode='c']]. *)
Definition acquire_buffer (a : ndarray) : res ndarray :=
  match arr_dtype a, shape a with
  | float32, [_; _] => inr a
  | _, _ => inl ValueError
  end.

(** [&scores[0, 0]] *)
Definition address_of_first (a : ndarray) : res (list float) :=
  match shape a with
  | [n0; n1] => if bool_decide (0 < n0 ∧ 0 < n1) then inr (data a) else inl IndexError
  | _ => inl IndexError
  end.

(** The matrices of one sentence have the shapes its length asks for. *)
Definition shapes_match (sent_size tag_size : nat) (cat_shape dep_shape : list nat) : bool :=
  bool_decide ([sent_size; tag_size] = cat_shape)
  && bool_decide ([sent_size; sent_size + 1] = dep_shape).

(** The loop over [enumerate(probs)]: it returns what was written to
    [csents], [tags] and [deps]. *)
Fixpoint check_shapes (sents : list string) (tag_size : nat) (i : nat)
    (probs : list (loc * loc)) : Py store (list (string * list float * list float)) :=
  match probs with
  | [] => mret []
  | (py_cat_scores, py_dep_scores) :: probs' =>
      sent ← lift (match sents !! i with Some s => inr s | None => inl IndexError end);
      let sent_size := length (split_space sent) in
      cat ← load py_cat_scores;
      dep ← load py_dep_scores;
      if negb (shapes_match sent_size tag_size (shape cat) (shape dep)) then
        raise (RuntimeError [sent_size; tag_size] [sent_size; sent_size + 1]
                 (shape cat) (shape dep))
      else
        cat_scores ← lift (acquire_buffer cat);
        dep_scores ← lift (acquire_buffer dep);
        t ← lift (address_of_first cat_scores);
        d ← lift (address_of_first dep_scores);
        rest ← check_shapes sents tag_size (S i) probs';
        mret ((sent, t, d) :: rest)
  end.

(** The loop that builds [res] from the engine's answer [cres]. *)
Fixpoint collect (self_lang : option string) (nbest_ : Z)
    (cres : list (list (NodeType * float))) (i n : nat) : res (list (list (Tree * float))) :=
  match n with
  | 0 => inr []
  | S n' =>
      match cres !! i with
      | None => inl UndefinedBehaviour
      | Some cres_i =>
          let tmp := (λ '(node, score), (from_ptr node self_lang, score))
                       <$> take (Z.to_nat nbest_) cres_i in
          rest ← collect self_lang nbest_ cres (S i) n';
          mret (tmp :: rest)
      end
  end.

(** The C variables initialised from the attributes of [self], in the
    order of their declarations. *)
Record native_config : Type := mk_native_config {
  cfg_tag_list : list Category;
  cfg_category_dict : gmap string (gset Category);
  cfg_beta : float;
  cfg_use_beta : bool;
  cfg_pruning_size : Z;
  cfg_nbest : Z;
  cfg_binary_rules : list Combinator;
  cfg_possible_root_cats : gset Category;
  cfg_unary_rules : gmap Category (gset Category);
  cfg_seen_rules : gset (Category * Category);
  cfg_max_length : Z;
  cfg_max_steps : Z
}.

Definition convert_config (self : parser_obj) (tag_list_arg : option (list Category))
    : res native_config :=
  let py_tag_list :=
    match tag_list_arg with
    | Some (t :: l) => Some (t :: l)
    | _ => tag_list self
    end in
  tag_list_ ← cat_list_to_vector py_tag_list;
  category_dict_ ← (if as_bool (use_category_dict self)
                    then convert_cat_dict (category_dict self) else inr ∅);
  beta_ ← as_float (beta self);
  let use_beta := as_bool (use_beta self) in
  pruning_size_ ← as_unsigned (pruning_size self);
  nbest_ ← as_unsigned (nbest self);
  binary_rules_ ← combinator_list_to_vector (binary_rules self);
  possible_root_cats_ ← cat_list_to_unordered_set (possible_root_cats self);
  unary_rules_ ← convert_unary_rules (unary_rules self);
  seen_rules_ ← (if as_bool (use_seen_rules self)
                 then convert_seen_rules (seen_rules self) else inr ∅);
  max_length_ ← as_unsigned (max_length self);
  max_steps ← getattr self "max_steps";
  max_steps_ ← as_unsigned (Some max_steps);
  mret (mk_native_config tag_list_ category_dict_ beta_ use_beta pruning_size_ nbest_
          binary_rules_ possible_root_cats_ unary_rules_ seen_rules_ max_length_ max_steps_).

(** [if constraints is not None: ... else: ...]: the vector
    [c_constraints] and the list [probs] the rest of the function uses. *)
Definition prepare_constraints (cfg : native_config) (doc_size : nat)
    (constraints : option (list (list constraint))) (probs : list (loc * loc))
    : Py store (list PartialConstraints * list (loc * loc)) :=
  match constraints with
  | Some constraints =>
      if negb (bool_decide (length constraints = doc_size)) then raise AssertionError
      else
        '(cs, new_probs) ← load_constraints (zip constraints probs)
                             (cfg_unary_rules cfg) (cfg_tag_list cfg);
        mret (cs ++ replicate (doc_size - length cs) (mk_PartialConstraints None []),
              new_probs)
  | None => mret (replicate doc_size (mk_PartialConstraints None []), probs)
  end.

(** The call of [ParseSentences]. *)
Definition request (cfg : native_config) (doc_size : nat)
    (checked : list (string * list float * list float))
    (c_constraints : list PartialConstraints) : parse_request Combinator :=
  mk_parse_request checked.*1.*1 checked.*1.*2 checked.*2
    (cfg_category_dict cfg) (cfg_tag_list cfg) (cfg_beta cfg) (cfg_use_beta cfg)
    (cfg_pruning_size cfg) (cfg_nbest cfg) (cfg_possible_root_cats cfg)
    (cfg_unary_rules cfg) (cfg_seen_rules cfg)
    (replicate doc_size (cfg_binary_rules cfg)) c_constraints
    (cfg_max_length cfg) (cfg_max_steps cfg).

Definition _parse_doc_tag_and_dep (self : parser_obj)
    (sents : list string) (probs : list (loc * loc))
    (tag_list_arg : option (list Category)) (constraints : option (list (list constraint)))
    : Py store (list (list (Tree * float))) :=
  let doc_size := length sents in
  cfg ← lift (convert_config self tag_list_arg);
  '(c_constraints, probs) ← prepare_constraints cfg doc_size constraints probs;
  let tag_size := length (cfg_tag_list cfg) in
  checked ← check_shapes sents tag_size 0 probs;
  if negb (bool_decide (doc_size ≤ length checked)) then raise UndefinedBehaviour
  else
    let cres := ParseSentences (request cfg doc_size checked c_constraints) in
    lift (collect (lang self) (cfg_nbest cfg) cres 0 (length sents)).

(** The part of [_parse_doc_tag_and_dep] that runs before the engine
    (lines 256 to 315): it returns the arguments of the call of
    [ParseSentences], or raises what the function raises before that
    call. *)
Definition engine_request (self : parser_obj)
    (sents : list string) (probs : list (loc * loc))
    (tag_list_arg : option (list Category)) (constraints : option (list (list constraint)))
    : Py store (parse_request Combinator) :=
  let doc_size := length sents in
  cfg ← lift (convert_config self tag_list_arg);
  '(c_constraints, probs) ← prepare_constraints cfg doc_size constraints probs;
  let tag_size := length (cfg_tag_list cfg) in
  checked ← check_shapes sents tag_size 0 probs;
  if negb (bool_decide (doc_size ≤ length checked)) then raise UndefinedBehaviour
  else mret (request cfg doc_size checked c_constraints).

End parser.

(** ** A concrete native side, to run the model on examples *)

(** [s.replace(feat, '')], scanning from the left; [skip] counts the
    characters of a match still to be dropped. *)
Fixpoint erase_from (feat : string) (skip : nat) (s : string) : string :=
  match s with
  | EmptyString => EmptyString
  | String c s' =>
      match skip with
      | S k => erase_from feat k s'
      | 0 =>
          if String.prefix feat s then erase_from feat (String.length feat - 1) s'
          else String c (erase_from feat 0 s')
      end
  end.

Definition erase (feat s : string) : string :=
  match feat with
  | EmptyString => s
  | _ => erase_from feat 0 s
  end.

(** Categories written as their canonical strings; the empty string is
    the one string [parse] rejects. *)
Definition string_categories : CategoryAPI := {|
  Category := string;
  Category_parse s :=
    match s with
    | EmptyString => inl (CategoryError s)
    | _ => inr s
    end;
  strip_feat cat feat := erase feat cat
|}.

(** An engine that answers every sentence with one node per tag of the
    tag list, scored by the first row of the sentence's tag matrix, in
    tag-list order. *)
Definition first_row_engine : @Engine string_categories := {|
  Combinator := string;
  en_default_binary_rules := ["fa"; "ba"; "fc"; "bc"];
  ja_default_binary_rules := ["fa"; "ba"];
  combinator_list_to_vector rules :=
    match rules with
    | None => inl TypeError
    | Some l => inr l
    end;
  cat_list_to_unordered_set cats :=
    match cats with
    | None => inl TypeError
    | Some l =>
        cs ← map_res (λ c, match c with Cat c => inr c | Str _ => inl TypeError end) l;
        mret (list_to_set cs)
    end;
  Tagger := string;
  load_tagger dirname := inr dirname;
  NodeType := string;
  ParseSentences req := (λ t, zip (tag_list_ req) t) <$> tags req
|}.

(** A [2 x 2] tag matrix over the tag list [N, NP], in both dtypes, and
    a constraint that forces the last token to [N]. *)
Definition example_tag_list : list string := ["N"; "NP"].

Definition example_matrix (d : dtype) : ndarray :=
  mk_ndarray d [2; 2] [(-1)%float; (-2)%float; (-3)%float; (-4)%float].

Definition example_store (d : dtype) : store := {[1%positive := example_matrix d]}.

Definition example_constraints : list (string * Z) := [("N", (-1)%Z)].

Definition example_run (d : dtype) : res loc * store :=
  @build_terminal_constraints string_categories
    example_constraints 1%positive example_tag_list (example_store d).

(** The value of a computation that is known to return. *)
Definition from_inr {A} (d : A) (r : res A) : A :=
  match r with
  | inr x => x
  | inl _ => d
  end.

(** The two extension types themselves and Python-level subclasses of
    them, called with the four positional arguments only. *)
Definition extension_type (l : language) : @parser_class := mk_parser_class l false.
Definition python_subclass (l : language) : @parser_class := mk_parser_class l true.

Definition example_args : @init_args string_categories first_row_engine :=
  @bind_args string_categories first_row_engine ∅ example_tag_list [] [] no_kwargs.

Definition example_parser (l : language) : @parser_obj string_categories first_row_engine :=
  from_inr (new_parser (python_subclass l)) (construct (python_subclass l) example_args).

(** The same call with [binary_rules] given and [possible_root_cats]
    given as [Category] objects. *)
Definition example_args_roots : @init_args string_categories first_row_engine :=
  @bind_args string_categories first_row_engine ∅ example_tag_list [] []
    (@mk_kwargs string_categories first_row_engine
       (Some (["fa"; "ba"] : list string)) None None None None None None
       (Some [@Cat string_categories "S"; @Cat string_categories "NP"]) None None).

Definition example_ja_parser : @parser_obj string_categories first_row_engine :=
  from_inr (new_parser (python_subclass Japanese))
    (construct (python_subclass Japanese) example_args_roots).

(** A batch of two sentences.  Arrays 1 and 2 are the matrices of
    "John"; array 3 is the tag matrix of "runs fast"; array 5 is a
    dependency matrix of the right shape for it, array 4 one that lacks
    the ROOT column. *)
Definition example_sents : list string := ["John"; "runs fast"].

Definition example_batch_store : store :=
  {[ 1%positive := mk_ndarray float32 [1; 2] [(-1)%float; (-2)%float];
     2%positive := mk_ndarray float32 [1; 2] [0%float; (-5)%float];
     3%positive := example_matrix float32;
     4%positive := mk_ndarray float32 [2; 2] [(-1)%float; (-2)%float; (-3)%float; (-4)%float];
     5%positive := mk_ndarray float32 [2; 3]
                     [(-1)%float; (-2)%float; (-3)%float; (-4)%float; (-5)%float; (-6)%float] ]}.

(** The same store with the tag matrix of "John" stored as [float64]. *)
Definition example_float64_store : store :=
  <[1%positive := mk_ndarray float64 [1; 2] [(-1)%float; (-2)%float]]> example_batch_store.

Definition example_probs_bad : list (loc * loc) :=
  [(1%positive, 2%positive); (3%positive, 4%positive)].

Definition example_probs_good : list (loc * loc) :=
  [(1%positive, 2%positive); (3%positive, 5%positive)].


(** "John" parsed under the constraint that token 0 has tag N. *)
Definition example_constrained_run :=
  _parse_doc_tag_and_dep (example_parser English)
    ["John"] [(1%positive, 2%positive)] None
    (Some [[@Terminal string_categories "N" 0%Z]]) example_batch_store.

Definition example_cfg : @native_config string_categories first_row_engine :=
  from_inr (mk_native_config [] ∅ 0%float false 0%Z 0%Z [] ∅ ∅ ∅ 0%Z 0%Z)
    (convert_config (example_parser English) None).

(** ** The engine, modelled from the specification

    [ParseSentences] is C++ code that is not under src/.  The claims
    about the parses it returns are settled against the model below,
    which follows sections 3 and 4 of the specification. *)

(** Modelled from the spec: the categories of depccg.cat (section 3: "An
    immutable symbolic term: either atomic (e.g. NP, S[dcl]) or
    functional X/Y or X\Y where X and Y are categories. Categories carry
    optional feature annotations."). *)
Inductive ccg_cat : Type :=
| Atom (base : string) (feature : option string)
| Functor (result : ccg_cat) (forward : bool) (argument : ccg_cat).

#[global] Instance ccg_cat_eq_dec : EqDecision ccg_cat.
Proof. solve_decision. Defined.

Fixpoint ccg_cat_to_tree (c : ccg_cat) : gen_tree (string * option string + bool) :=
  match c with
  | Atom b f => GenLeaf (inl (b, f))
  | Functor r fw a => GenNode 0 [ccg_cat_to_tree r; GenLeaf (inr fw); ccg_cat_to_tree a]
  end.

Fixpoint ccg_cat_of_tree (t : gen_tree (string * option string + bool)) : option ccg_cat :=
  match t with
  | GenLeaf (inl (b, f)) => Some (Atom b f)
  | GenNode 0 [r; GenLeaf (inr fw); a] =>
      r ← ccg_cat_of_tree r; a ← ccg_cat_of_tree a; Some (Functor r fw a)
  | _ => None
  end.

Lemma ccg_cat_of_to_tree c : ccg_cat_of_tree (ccg_cat_to_tree c) = Some c.
Proof. induction c as [|r IHr fw a IHa]; simpl; [done|]. by rewrite IHr, IHa. Qed.

#[global] Instance ccg_cat_countable : Countable ccg_cat :=
  inj_countable ccg_cat_to_tree ccg_cat_of_tree ccg_cat_of_to_tree.

(** Modelled from the spec: [cat.strip_feat(feat)] of depccg.cat, which
    removes the annotation [feat] (written with its brackets, as in
    [strip_feat('[X]')]) wherever the category carries it. *)
Fixpoint ccg_strip_feat (c : ccg_cat) (feat : string) : ccg_cat :=
  match c with
  | Atom b (Some f) =>
      if bool_decide (feat = String "["%char (f +:+ "]")) then Atom b None else c
  | Atom b None => c
  | Functor r fw a => Functor (ccg_strip_feat r feat) fw (ccg_strip_feat a feat)
  end.

(** Modelled from the spec: [Category.parse] of depccg.cat, for the
    notation of section 3: an atom is a name with an optional feature in
    square brackets, slashes associate to the left, parentheses group.
    The scanner keeps a stack of the categories and slashes read so far. *)
Inductive parse_item : Type :=
| ItemOpen
| ItemCat (c : ccg_cat)
| ItemSlash (forward : bool).

Definition is_name_char (c : ascii) : bool :=
  negb (bool_decide (c ∈ ["("; ")"; "/"; "\"; "["; "]"; " "]%char)).

(** Reduce the top of the stack with a category just completed. *)
Definition push_cat (c : ccg_cat) (stack : list parse_item) : option (list parse_item) :=
  match stack with
  | ItemSlash fw :: ItemCat r :: stack' => Some (ItemCat (Functor r fw c) :: stack')
  | ItemSlash _ :: _ => None
  | ItemCat _ :: _ => None
  | _ => Some (ItemCat c :: stack)
  end.

(** [mode]: [None] between tokens, [Some (name, None)] inside a name,
    [Some (name, Some feat)] inside the brackets of a feature. *)
Fixpoint ccg_scan (s : string) (mode : option (string * option string))
    (stack : list parse_item) : option ccg_cat :=
  let flush (k : list parse_item → option ccg_cat) : option ccg_cat :=
    match mode with
    | None => k stack
    | Some (name, None) =>
        stack' ← push_cat (Atom (String.rev name) None) stack; k stack'
    | Some (_, Some _) => None
    end in
  match s with
  | EmptyString =>
      flush (λ stack,
        match stack with
        | [ItemCat c] => Some c
        | _ => None
        end)
  | String ch s' =>
      match mode with
      | Some (name, Some feat) =>
          if Ascii.eqb ch "]" then
            stack' ← push_cat (Atom (String.rev name) (Some (String.rev feat))) stack;
            ccg_scan s' None stack'
          else ccg_scan s' (Some (name, Some (String ch feat))) stack
      | _ =>
          if Ascii.eqb ch "(" then
            match mode with
            | None => ccg_scan s' None (ItemOpen :: stack)
            | _ => None
            end
          else if Ascii.eqb ch ")" then
            flush (λ stack,
              match stack with
              | ItemCat c :: ItemOpen :: stack' =>
                  stack'' ← push_cat c stack'; ccg_scan s' None stack''
              | _ => None
              end)
          else if Ascii.eqb ch "/" || Ascii.eqb ch "\" then
            flush (λ stack,
              match stack with
              | ItemCat _ :: _ => ccg_scan s' None (ItemSlash (Ascii.eqb ch "/") :: stack)
              | _ => None
              end)
          else if Ascii.eqb ch "[" then
            match mode with
            | Some (name, None) => ccg_scan s' (Some (name, Some EmptyString)) stack
            | _ => None
            end
          else if is_name_char ch then
            match mode with
            | None => ccg_scan s' (Some (String ch EmptyString, None)) stack
            | Some (name, None) => ccg_scan s' (Some (String ch name, None)) stack
            | Some (_, Some _) => None
            end
          else None
      end
  end.

Definition ccg_parse (s : string) : res ccg_cat :=
  match ccg_scan s None [] with
  | Some c => inr c
  | None => inl (CategoryError s)
  end.

Definition ccg_categories : CategoryAPI := {|
  Category := ccg_cat;
  Category_parse := ccg_parse;
  strip_feat := ccg_strip_feat
|}.

(** Modelled from the spec: the binary combinators of depccg.combinator
    (section 9: "a closed, enumerated variant ... forward-application,
    backward-application, forward-composition, backward-composition");
    the head of the parent is the functor's side. *)
Inductive combinator : Type :=
| ForwardApplication
| BackwardApplication
| ForwardComposition
| BackwardComposition.

#[global] Instance combinator_eq_dec : EqDecision combinator.
Proof. solve_decision. Defined.

Definition combine (comb : combinator) (l r : ccg_cat) : option (ccg_cat * bool) :=
  match comb, l, r with
  | ForwardApplication, Functor x true y, _ =>
      if decide (y = r) then Some (x, true) else None
  | BackwardApplication, _, Functor x false y =>
      if decide (y = l) then Some (x, false) else None
  | ForwardComposition, Functor x true y, Functor y' true z =>
      if decide (y = y') then Some (Functor x true z, true) else None
  | BackwardComposition, Functor y' false z, Functor x false y =>
      if decide (y = y') then Some (Functor x false z, false) else None
  | _, _, _ => None
  end.

(** Modelled from the spec: the derivation nodes of section 3 (the C++
    node classes are not under src/): a leaf has a position, a surface
    form, a category and a lexical score; a binary node has two
    children, a category, a combinator, a head side and an inside score;
    a unary node has a child, a category and an inside score. *)
Inductive tree : Type :=
| Leaf (position : nat) (word : string) (category : ccg_cat) (lp : float)
| Binary (left right : tree) (category : ccg_cat) (comb : combinator)
    (head_is_left : bool) (inside : float)
| Unary (child : tree) (category : ccg_cat) (inside : float).

Definition tree_cat (t : tree) : ccg_cat :=
  match t with
  | Leaf _ _ c _ | Binary _ _ c _ _ _ | Unary _ c _ => c
  end.

Definition tree_inside (t : tree) : float :=
  match t with
  | Leaf _ _ _ x | Binary _ _ _ _ _ x | Unary _ _ x => x
  end.

Fixpoint tree_start (t : tree) : nat :=
  match t with
  | Leaf i _ _ _ => i
  | Binary l _ _ _ _ _ => tree_start l
  | Unary c _ _ => tree_start c
  end.

Fixpoint tree_length (t : tree) : nat :=
  match t with
  | Leaf _ _ _ _ => 1
  | Binary l r _ _ _ _ => tree_length l + tree_length r
  | Unary c _ _ => tree_length c
  end.

(** The token that heads the subtree. *)
Fixpoint tree_head (t : tree) : nat :=
  match t with
  | Leaf i _ _ _ => i
  | Binary l r _ _ head_is_left _ => if head_is_left then tree_head l else tree_head r
  | Unary c _ _ => tree_head c
  end.

Definition is_unary (t : tree) : bool :=
  match t with
  | Unary _ _ _ => true
  | _ => false
  end.

(** The key of a chart cell: [(start, length, category)]. *)
Definition signature (t : tree) : nat * nat * ccg_cat :=
  (tree_start t, tree_length t, tree_cat t).

Definition fmax (x y : float) : float := if PrimFloat.ltb x y then y else x.

Definition max_list (l : list float) : float := foldr fmax neg_infinity l.

Definition keep {A} (test : A → bool) (l : list A) : list A :=
  omap (λ x, if test x then Some x else None) l.

(** Stable sort by decreasing score: among equal scores the earlier
    element (the smaller category id) stays first. *)
Fixpoint insert_desc {A} (x : A * float) (l : list (A * float)) : list (A * float) :=
  match l with
  | [] => [x]
  | y :: l' => if PrimFloat.ltb y.2 x.2 then x :: y :: l' else y :: insert_desc x l'
  end.

Definition sort_desc {A} (l : list (A * float)) : list (A * float) :=
  foldl (λ acc x, insert_desc x acc) [] l.

(** Modelled from the spec: section 4.3, [apply_binary]: "Applies each
    registered combinator in a fixed order; dedups by parent_cat; if
    use_seen_rules is enabled and (normalized(left), normalized(right))
    is not in the seen-rules set, returns empty."  Normalisation strips
    the features [[X]] and [[nb]] (section 3). *)
Definition normalized (c : ccg_cat) : ccg_cat :=
  ccg_strip_feat (ccg_strip_feat c "[X]") "[nb]".

Fixpoint dedup_by_parent (l : list (ccg_cat * combinator * bool))
    : list (ccg_cat * combinator * bool) :=
  match l with
  | [] => []
  | x :: l' => x :: keep (λ y, negb (bool_decide (y.1.1 = x.1.1))) (dedup_by_parent l')
  end.

Definition apply_binary (rules : list combinator) (use_seen_rules : bool)
    (seen_rules : gset (ccg_cat * ccg_cat)) (left right : ccg_cat)
    : list (ccg_cat * combinator * bool) :=
  if use_seen_rules && negb (bool_decide ((normalized left, normalized right) ∈ seen_rules))
  then []
  else dedup_by_parent
         (omap (λ comb, '(parent, head_is_left) ← combine comb left right;
                        Some (parent, comb, head_is_left)) rules).

(** Modelled from the spec: section 4.3, [apply_unary]: "Returns the
    mapped parents from the unary-rule table." *)
Definition apply_unary (unary_rules : gmap ccg_cat (gset ccg_cat)) (child : ccg_cat)
    : list ccg_cat :=
  elements (default ∅ (unary_rules !! child)).

(** An agenda item: a derivation, its priority and its insertion
    counter (section 4.4). *)
Record item : Type := mk_item {
  it_tree : tree;
  it_priority : float;
  it_tiebreak : nat
}.

(** The state of the search loop: the agenda and its counter, the
    derivations inserted in the chart, the finalized ones, and the
    complete parses emitted so far. *)
Record search_state : Type := mk_search_state {
  agenda : list item;
  counter : nat;
  entries : list tree;
  finalized : list tree;
  output : list (tree * float)
}.

(** Section 4.4: "A max-heap on (priority, tiebreak) where tiebreak is a
    monotonically increasing insertion counter"; "Equal priority: lower
    insertion counter first". *)
Definition better (a b : item) : bool :=
  PrimFloat.ltb (it_priority b) (it_priority a)
  || (PrimFloat.eqb (it_priority a) (it_priority b) && (it_tiebreak a <? it_tiebreak b)).

Fixpoint pop_best (agenda : list item) : option (item * list item) :=
  match agenda with
  | [] => None
  | x :: rest =>
      match pop_best rest with
      | None => Some (x, [])
      | Some (y, rest') => if better y x then Some (y, x :: rest') else Some (x, rest)
      end
  end.

(** The grammar and the configuration, shared by all sentences
    (sections 5 and 6). *)
Record grammar : Type := mk_grammar {
  g_category_dict : gmap string (gset ccg_cat);
  g_tag_list : list ccg_cat;
  g_beta : float;
  g_use_beta : bool;
  g_pruning_size : nat;
  g_nbest : nat;
  g_roots : gset ccg_cat;
  g_unary_rules : gmap ccg_cat (gset ccg_cat);
  g_use_seen_rules : bool;
  g_seen_rules : gset (ccg_cat * ccg_cat);
  g_rules : list combinator;
  g_max_length : nat;
  g_max_steps : nat
}.

(** One sentence: its tokens, its two matrices (row-major) and its
    non-terminal constraints. *)
Record sentence : Type := mk_sentence {
  s_words : list string;
  s_tags : list float;
  s_deps : list float;
  s_constraints : list (option ccg_cat * Z * Z)
}.

(** The grammar with the seen-rules filter switched on or off. *)
Definition with_seen_rules (b : bool) (g : grammar) : grammar :=
  mk_grammar (g_category_dict g) (g_tag_list g) (g_beta g) (g_use_beta g)
    (g_pruning_size g) (g_nbest g) (g_roots g) (g_unary_rules g) b (g_seen_rules g)
    (g_rules g) (g_max_length g) (g_max_steps g).

(** The grammar with another number of parses asked for. *)
Definition with_nbest (n : nat) (g : grammar) : grammar :=
  mk_grammar (g_category_dict g) (g_tag_list g) (g_beta g) (g_use_beta g)
    (g_pruning_size g) n (g_roots g) (g_unary_rules g) (g_use_seen_rules g)
    (g_seen_rules g) (g_rules g) (g_max_length g) (g_max_steps g).

Section search.

(** The natural logarithm, which the beta threshold of the pruner needs
    and binary64 arithmetic does not provide. *)
Variable ln : float → float.
Variable g : grammar.
Variable snt : sentence.

(** Modelled from the spec: section 4.1, ScoreView.  [P_tag] has shape
    [(sent_len, |tag_list|)], [P_dep] has shape [(sent_len, sent_len+1)]
    and its column [0] is ROOT. *)
Definition tag_row (i : nat) : list float :=
  take (length (g_tag_list g)) (drop (i * length (g_tag_list g)) (s_tags snt)).

Definition dep_row (i : nat) : list float :=
  take (length (s_words snt) + 1) (drop (i * (length (s_words snt) + 1)) (s_deps snt)).

Definition dep_lp (dependent head : nat) : float :=
  default neg_infinity (s_deps snt !! (dependent * (length (s_words snt) + 1) + head)).

(** Modelled from the spec: section 4.2, Pruner.  The terminal
    constraints of step 2 are already in the matrix: the wrapper wrote
    them there before the call. *)
Definition pruner (i : nat) (word : string) : list (ccg_cat * float) :=
  let all := zip (g_tag_list g) (tag_row i) in
  let by_dict :=
    match g_category_dict g !! word with
    | Some cats => keep (λ p, bool_decide (p.1 ∈ cats)) all
    | None => all
    end in
  let by_beta :=
    if g_use_beta g then
      let threshold := PrimFloat.add (ln (g_beta g)) (max_list (tag_row i)) in
      keep (λ p, PrimFloat.leb threshold p.2) by_dict
    else by_dict in
  match take (g_pruning_size g) (sort_desc by_beta) with
  | [] => take 1 (sort_desc all)
  | top => top
  end.

(** Modelled from the spec: section 4.8, HeuristicTable. *)
Definition best_tag (i : nat) : float := max_list (tag_row i).
Definition best_dep (i : nat) : float := max_list (dep_row i).

Definition outside (start len : nat) : float :=
  foldl (λ acc i,
    if (start <=? i) && (i <? start + len) then acc
    else PrimFloat.add acc (PrimFloat.add (best_tag i) (best_dep i)))
    0%float (seq 0 (length (s_words snt))).

Definition whole (t : tree) : bool :=
  (tree_start t =? 0) && (tree_length t =? length (s_words snt)).

(** Modelled from the spec: section 4.9, DependencyScorer, and step 5 of
    section 4.7: the parents of two adjacent subtrees.  The dependent
    child's head token depends on the head child's head token (column
    [head + 1] of [P_dep]); "For the final root node, add
    dep_lp(root_head_token, 0)": a parent that spans the sentence also
    gets the dependency of its head on ROOT. *)
Definition make_binary (l r : tree) (x : ccg_cat * combinator * bool) : tree :=
  let '(parent, comb, head_is_left) := x in
  let head := if head_is_left then tree_head l else tree_head r in
  let dependent := if head_is_left then tree_head r else tree_head l in
  let inside := PrimFloat.add (PrimFloat.add (tree_inside l) (tree_inside r))
                  (dep_lp dependent (head + 1)) in
  Binary l r parent comb head_is_left
    (if (tree_start l =? 0) && (tree_length l + tree_length r =? length (s_words snt))
     then PrimFloat.add inside (dep_lp head 0)
     else inside).

Definition binary_parents (l r : tree) : list tree :=
  make_binary l r
  <$> apply_binary (g_rules g) (g_use_seen_rules g) (g_seen_rules g)
        (tree_cat l) (tree_cat r).

(** Section 4.3: unary application is "disallowed immediately after
    another unary on the same span, and disallowed on the top-level span
    when that would yield a non-root category". *)
Definition unary_parents (t : tree) : list tree :=
  if is_unary t then []
  else (λ parent, Unary t parent (tree_inside t))
       <$> keep (λ parent, negb (whole t) || bool_decide (parent ∈ g_roots g))
             (apply_unary (g_unary_rules g) (tree_cat t)).

(** Section 4.5, [neighbors], and steps 4 and 5 of section 4.7: the
    candidates a newly finalized derivation gives rise to. *)
Definition expand (t : tree) (finalized : list tree) : list tree :=
  unary_parents t
  ++ (keep (λ u, tree_start u + tree_length u =? tree_start t) finalized
        ≫= λ u, binary_parents u t)
  ++ (keep (λ u, tree_start t + tree_length t =? tree_start u) finalized
        ≫= λ u, binary_parents t u).

(** Modelled from the spec: section 4.6, ConstraintSet.  A candidate is
    rejected when a constraint has its span and another category (one
    its category does not reach by a unary rule either), or when its
    span crosses the span of a constraint. *)
Definition violates (t : tree) : bool :=
  let s := Z.of_nat (tree_start t) in
  let e := (s + Z.of_nat (tree_length t))%Z in
  existsb (λ '(cat, cs, cl),
    let ce := (cs + cl)%Z in
    (bool_decide (s < cs ∧ cs < e ∧ e < ce)%Z || bool_decide (cs < s ∧ s < ce ∧ ce < e)%Z)
    || (bool_decide (s = cs ∧ e = ce)
        && match cat with
           | Some c =>
               negb (bool_decide (tree_cat t = c)
                     || bool_decide (c ∈ default ∅ (g_unary_rules g !! tree_cat t)))
           | None => false
           end)) (s_constraints snt).

(** Section 4.5, [insert]: "if the cell already has pruning_size entries
    with strictly better inside score, reject". *)
Definition cell_full (entries : list tree) (t : tree) : bool :=
  g_pruning_size g <=? length (keep (λ e, bool_decide (signature e = signature t)
                                       && PrimFloat.ltb (tree_inside t) (tree_inside e))
                             entries).

Definition push (t : tree) (st : search_state) : search_state :=
  mk_search_state
    (mk_item t (PrimFloat.add (tree_inside t) (outside (tree_start t) (tree_length t)))
       (counter st) :: agenda st)
    (S (counter st)) (entries st) (finalized st) (output st).

(** A candidate that passes the constraint set and the cell capacity is
    pushed on the agenda and inserted in the chart. *)
Definition offer (st : search_state) (t : tree) : search_state :=
  if violates t || cell_full (entries st) t then st
  else
    let st := push t st in
    mk_search_state (agenda st) (counter st) (t :: entries st) (finalized st) (output st).

(** Section 4.7, initialization: "for each token i, for each candidate
    (c, lp) from the Pruner, construct a Leaf derivation and push it
    onto the agenda". *)
Definition initial_state : search_state :=
  foldl (λ st t, push t st) (mk_search_state [] 0 [] [] [])
    (imap (λ i word, (λ '(c, lp), Leaf i word c lp) <$> pruner i word) (s_words snt) ≫= id).

(** Modelled from the spec: section 4.7, SearchLoop, steps 1 to 6, with
    [fuel] the number of pops still allowed.  A complete parse is
    reported with its inside score. *)
Fixpoint search (fuel : nat) (st : search_state) : list (tree * float) :=
  match fuel with
  | 0 => output st
  | S fuel' =>
      match pop_best (agenda st) with
      | None => output st
      | Some (it, rest) =>
          let t := it_tree it in
          if bool_decide (signature t ∈ signature <$> finalized st) then
            search fuel'
              (mk_search_state rest (counter st) (entries st) (finalized st) (output st))
          else
            let finalized' := t :: finalized st in
            let output' :=
              if whole t && bool_decide (tree_cat t ∈ g_roots g)
              then output st ++ [(t, tree_inside t)]
              else output st in
            if g_nbest g <=? length output' then output'
            else
              search fuel'
                (foldl offer
                   (mk_search_state rest (counter st) (entries st) finalized' output')
                   (expand t finalized'))
      end
  end.

(** Section 4.7: "Sentences longer than max_length are skipped and yield
    an empty result." *)
Definition parse_sentence : list (tree * float) :=
  if g_max_length g <? length (s_words snt) then [] else search (g_max_steps g) initial_state.

(** A derivation of the grammar over the sentence: a leaf is a token
    with one of the candidates the pruner gives it; a binary node joins
    two adjacent derivations by an answer of [apply_binary] for their
    categories, scored as section 4.9 says; a unary node is an answer of
    [apply_unary], not on top of another unary node and, on the whole
    sentence, only with a root category; no binary or unary node
    violates the constraint set. *)
Inductive derivation : tree → Prop :=
| derivation_leaf i word c lp :
    s_words snt !! i = Some word → (c, lp) ∈ pruner i word →
    derivation (Leaf i word c lp)
| derivation_binary l r x :
    derivation l → derivation r →
    tree_start l + tree_length l = tree_start r →
    x ∈ apply_binary (g_rules g) (g_use_seen_rules g) (g_seen_rules g)
          (tree_cat l) (tree_cat r) →
    violates (make_binary l r x) = false →
    derivation (make_binary l r x)
| derivation_unary t c :
    derivation t → is_unary t = false →
    c ∈ apply_unary (g_unary_rules g) (tree_cat t) →
    (whole t = true → c ∈ g_roots g) →
    violates (Unary t c (tree_inside t)) = false →
    derivation (Unary t c (tree_inside t)).

(** A candidate of the search: a derivation once it has passed the
    constraint set. *)
Definition candidate (t : tree) : Prop := violates t = false → derivation t.

(** A complete parse: a derivation that spans the sentence and carries
    a root category, with its inside score. *)
Definition complete_parse (t : tree) (score : float) : Prop :=
  derivation t ∧ whole t = true ∧ tree_cat t ∈ g_roots g ∧ score = tree_inside t.

(** An admissible parse: a complete parse of a sentence that is not
    longer than [max_length]. *)
Definition admissible (t : tree) (score : float) : Prop :=
  length (s_words snt) ≤ g_max_length g ∧ complete_parse t score.

(** Every derivation the search holds is a derivation of the grammar,
    and every parse it has emitted is complete. *)
Definition state_admissible (st : search_state) : Prop :=
  Forall derivation (it_tree <$> agenda st) ∧
  Forall derivation (finalized st) ∧
  Forall (λ p, complete_parse p.1 p.2) (output st).

End search.

(** Modelled from the spec: [ParseSentences], one independent search per
    sentence (section 2: "For each sentence the engine runs in
    isolation").  The request has no flag for the seen-rules filter: the
    wrapper passes the empty set when the filter is off, so the filter
    is on exactly when the set is not empty. *)
Definition spec_ParseSentences (ln : float → float)
    (req : @parse_request ccg_categories combinator) : list (list (tree * float)) :=
  imap (λ i sent,
    parse_sentence ln
      (mk_grammar
         (category_dict_ req) (tag_list_ req) (beta_ req) (use_beta_ req)
         (Z.to_nat (pruning_size_ req)) (Z.to_nat (nbest_ req))
         (possible_root_cats_ req) (unary_rules_ req)
         (negb (bool_decide (seen_rules_ req = ∅))) (seen_rules_ req)
         (default [] (apply_binary_rules req !! i))
         (Z.to_nat (max_length_ req)) (Z.to_nat (max_steps_ req)))
      (mk_sentence
         (split_space sent)
         (default [] (tags req !! i)) (default [] (deps req !! i))
         (match c_constraints req !! i with
          | Some pc => @pc_spans ccg_categories pc
          | None => []
          end)))
    (csents req).

Definition spec_engine (ln : float → float) : @Engine ccg_categories := {|
  Combinator := combinator;
  en_default_binary_rules :=
    [ForwardApplication; BackwardApplication; ForwardComposition; BackwardComposition];
  ja_default_binary_rules := [ForwardApplication; BackwardApplication];
  combinator_list_to_vector rules :=
    match rules with
    | None => inl TypeError
    | Some l => inr l
    end;
  cat_list_to_unordered_set cats :=
    match cats with
    | None => inl TypeError
    | Some l =>
        cs ← map_res (λ c, match c with Cat c => inr c | Str _ => inl TypeError end) l;
        mret (list_to_set cs)
    end;
  Tagger := string;
  load_tagger dirname := inr dirname;
  NodeType := tree;
  ParseSentences := spec_ParseSentences ln
|}.

(** The sentence "John runs" over the tag list [NP, N, S[dcl]\NP,
    S[dcl]\N]: "John" is tagged [NP] (-1) or [N] (-2), "runs" is tagged
    [S[dcl]\NP] (-1) or [S[dcl]\N] (-2), every dependency scores 0.  The
    seen rules hold the pair [(N, S[dcl]\N)] and not [(NP, S[dcl]\NP)].
    The beta threshold is off, so no logarithm is taken. *)
Definition unused_ln : float → float := λ x, x.

Definition seen_tag_list : list ccg_cat :=
  [Atom "NP" None; Atom "N" None;
   Functor (Atom "S" (Some "dcl")) false (Atom "NP" None);
   Functor (Atom "S" (Some "dcl")) false (Atom "N" None)].

Definition seen_pairs : list (ccg_cat * ccg_cat) :=
  [(Atom "N" None, Functor (Atom "S" (Some "dcl")) false (Atom "N" None))].

Definition seen_tags : list float :=
  [(-1)%float; (-2)%float; (-50)%float; (-50)%float;
   (-50)%float; (-50)%float; (-1)%float; (-2)%float].

Definition seen_deps : list float :=
  [0%float; 0%float; 0%float; 0%float; 0%float; 0%float].

Definition seen_store : store :=
  {[ 1%positive := mk_ndarray float32 [2; 4] seen_tags;
     2%positive := mk_ndarray float32 [2; 3] seen_deps ]}.

(** An English parser (of a Python-level subclass) with the seen-rules
    filter on or off, everything else equal. *)
Definition seen_parser (use_seen_rules : bool)
    : @parser_obj ccg_categories (spec_engine unused_ln) :=
  from_inr (new_parser (python_subclass English))
    (@construct ccg_categories (spec_engine unused_ln) (python_subclass English)
       (@bind_args ccg_categories (spec_engine unused_ln) ∅ seen_tag_list [] seen_pairs
          (@mk_kwargs ccg_categories (spec_engine unused_ln)
             None None (Some false) None (Some use_seen_rules) None None None None None))).

Definition seen_run (use_seen_rules : bool)
    : res (list (list (@Tree ccg_categories (spec_engine unused_ln) * float))) :=
  (_parse_doc_tag_and_dep (seen_parser use_seen_rules)
     ["John runs"] [(1%positive, 2%positive)] None None seen_store).1.

(** The parse with [NP] and the parse with [N]. *)
Definition parse_with (c : ccg_cat) (lp : float) (total : float) : tree :=
  Binary (Leaf 0 "John" c lp)
    (Leaf 1 "runs" (Functor (Atom "S" (Some "dcl")) false c) lp)
    (Atom "S" (Some "dcl")) BackwardApplication false total.

(** The same sentence and grammar, as the engine sees them. *)
Definition seen_grammar : grammar :=
  mk_grammar ∅ seen_tag_list 0%float false 50 1
    {[ Atom "S" (Some "dcl") ]} ∅ true (list_to_set seen_pairs)
    [ForwardApplication; BackwardApplication; ForwardComposition; BackwardComposition]
    250 1000.

Definition seen_sentence : sentence :=
  mk_sentence ["John"; "runs"] seen_tags seen_deps [].

(** The scenarios of section 8 of the specification: a grammar over the
    tag list [NP, S[dcl]\NP] with roots [S[dcl]] and [NP], and the
    sentences "Hello" and "John runs". *)
Definition scenario_grammar (use_seen_rules : bool) (max_length : nat) : grammar :=
  mk_grammar ∅
    [Atom "NP" None; Functor (Atom "S" (Some "dcl")) false (Atom "NP" None)]
    0%float false 50 1 {[ Atom "S" (Some "dcl"); Atom "NP" None ]} ∅
    use_seen_rules
    {[ (Functor (Atom "S" (Some "dcl")) false (Atom "NP" None), Atom "NP" None) ]}
    [ForwardApplication; BackwardApplication; ForwardComposition; BackwardComposition]
    max_length 1000.

Definition scenario_hello : sentence :=
  mk_sentence ["Hello"] [0%float; neg_infinity] [0%float; 0%float] [].

Definition scenario_john_runs : sentence :=
  mk_sentence ["John"; "runs"]
    [0%float; (-20)%float; (-20)%float; 0%float]
    [(-20)%float; (-20)%float; 0%float; 0%float; (-20)%float; (-20)%float] [].

(** ** Vocabulary of the statements *)

(** [frame l P s s']: between the stores [s] and [s'] only the array at
    [l] may differ, it keeps its dtype, shape and size, and so does every
    row [k] of it outside [P n0], [n0] being the length of its first axis. *)
Definition frame (l : loc) (P : nat → nat → Prop) (s s' : store) : Prop :=
  (∀ l', l' ≠ l → s' !! l' = s !! l') ∧
  (s !! l = None → s' !! l = None) ∧
  (∀ a, s !! l = Some a →
     ∃ a', s' !! l = Some a' ∧ shape a' = shape a ∧ arr_dtype a' = arr_dtype a ∧
       length (data a') = length (data a) ∧
       ∀ n0 rest k, shape a = n0 :: rest → ¬ P n0 k → ndarray_row a' k = ndarray_row a k).

(** Row [k] of an array with [n0] rows is the one index [i] selects. *)
Definition selects (i : Z) (n0 k : nat) : Prop :=
  i = Z.of_nat k ∨ i = (Z.of_nat k - Z.of_nat n0)%Z.

(** Some constraint of the list selects row [k]. *)
Definition addressed `{CategoryAPI} (constraints : list (Category * Z)) (n0 k : nat) : Prop :=
  ∃ cat i, (cat, i) ∈ constraints ∧ selects i n0 k.





(** Two stores hold arrays of the same dtypes and shapes at the same
    references. *)
Definition same_shapes (s s' : store) : Prop :=
  ∀ l, match s !! l, s' !! l with
       | Some a, Some a' => shape a' = shape a ∧ arr_dtype a' = arr_dtype a
       | None, None => True
       | _, _ => False
       end.


(** What a run writes: for each reference and each position of its
    data, the value last written there, if any. *)
Definition overlay : Type := loc → nat → option float.

(** Two stores hold arrays of the same dtype, shape and size at the same
    references. *)
Definition same_layout (s t : store) : Prop :=
  ∀ l, match s !! l, t !! l with
       | Some a, Some b =>
           shape b = shape a ∧ arr_dtype b = arr_dtype a ∧
           length (data b) = length (data a)
       | None, None => True
       | _, _ => False
       end.

(** [s'] is [s] with the values of [ov] written over it. *)
Definition overlaid (ov : overlay) (s s' : store) : Prop :=
  ∀ l, match s !! l, s' !! l with
       | Some a, Some a' =>
           shape a' = shape a ∧ arr_dtype a' = arr_dtype a ∧
           length (data a') = length (data a) ∧
           ∀ q x, data a !! q = Some x → data a' !! q = Some (default x (ov l q))
       | None, None => True
       | _, _ => False
       end.

(** A computation whose outcome and writes depend on the layout of the
    store only, not on the values the arrays hold. *)
Definition replayable {A} (m : Py store A) : Prop :=
  ∀ s o s', m s = (o, s') →
    ∃ ov, overlaid ov s s' ∧
      ∀ t, same_layout s t → ∃ t', m t = (o, t') ∧ overlaid ov t t'.

(** An assignment of one value to a block of positions that the dtype
    and the shape of the array determine. *)
Definition block_write (target : dtype → list nat → res (nat * nat * float))
    (a : ndarray) : res ndarray :=
  '(p, blk, v) ← target (arr_dtype a) (shape a);
  mret (mk_ndarray (arr_dtype a) (shape a) (list_inserts p (replicate blk v) (data a))).

(** A terminal constraint that [build_terminal_constraints] can apply to
    a matrix with [n] rows and [m] columns: its index is a row index as
    numpy reads it, and its category is in the tag list, the index of its
    last occurrence being a column of the matrix. *)
Definition applicable `{CategoryAPI} (tag_list : list Category) (n m : nat)
    (cx : Category * Z) : Prop :=
  (- Z.of_nat n ≤ cx.2 < Z.of_nat n)%Z ∧
  ∃ j, tag_list !! j = Some cx.1 ∧ (∀ j', j < j' → tag_list !! j' ≠ Some cx.1) ∧ j < m.

(** The value fits a C [int]. *)
Definition fits_int (z : Z) : Prop := (- 2 ^ 31 ≤ z < 2 ^ 31)%Z.

(** [l] is the tag matrix of a sentence of the batch that comes with a
    terminal constraint. *)
Definition constrained_tag_matrix `{CategoryAPI}
    (constraints : option (list (list constraint))) (probs : list (loc * loc))
    (l : loc) : Prop :=
  ∃ cs i c pd,
    constraints = Some cs ∧ cs !! i = Some c ∧ probs !! i = Some (l, pd) ∧
    terminal_of c ≠ [].

(** A one-token tag matrix with a single column, for a tag list of two
    tags. *)
Definition example_narrow_store : store :=
  {[1%positive := mk_ndarray float64 [1; 1] [(-1)%float]]}.

(** A parser file: two tags, one word, one unary rule and one seen rule. *)
Definition example_json : @json_input :=
  mk_json_input [["N"; "NP"]] [("John", ["N"; "NP"])] ["N"; "NP"] [["NP[nb]"; "N"]].

Definition example_json_parser : @parser_obj string_categories first_row_engine :=
  from_inr (new_parser (python_subclass English))
    (@from_json string_categories first_row_engine
       (python_subclass English) example_json None no_kwargs).

(** ** The public entry points: [parse_doc] and [parse_json]

    Both prepare a batch and hand it to [_parse_doc_tag_and_dep].  What
    they import from [depccg.utils], the tagger's [predict_doc] and the
    numpy conversion of a JSON value are taken as an interface. *)

(** A sentence as a caller of [parse_doc] passes it: a string, or the
    list of its words. *)
Inductive sentence_arg : Type :=
| Joined (s : string)
| Words (ws : list string).

Class Frontend `{Engine} : Type := {
  (** [maybe_split_and_join(sent)]: the words and the joined string *)
  maybe_split_and_join : sentence_arg → res (list string * string);
  (** [denormalize(word)] *)
  denormalize : string → res string;
  (** [tagger.predict_doc(splitted, batchsize=batchsize)]: a pair of
      matrices for each sentence *)
  predict_doc : Tagger → list (list string) → Z → Py store (list (loc * loc));
  (** a decoded JSON value, and [np.array(x)] of one *)
  json_value : Type;
  np_object : Type;
  np_array : json_value → res np_object;
  (** [a.reshape(shape).astype(np.float32)], [shape] a JSON value *)
  reshape_astype_float32 : np_object → json_value → res ndarray
}.

(** The exceptions of [parse_json]: those of [exn], and
    [NotImplementedError]. *)
Inductive exn_json : Type :=
| Raised (e : exn)
| NotImplementedError.

Definition PyJ (A : Type) : Type := store → (exn_json + A) * store.

#[global] Instance PyJ_ret : MRet PyJ := λ A x s, (inr x, s).
#[global] Instance PyJ_bind : MBind PyJ := λ A B f m s,
  match m s with
  | (inl e, s') => (inl e, s')
  | (inr x, s') => f x s'
  end.

Definition python {A} (m : Py store A) : PyJ A := λ s,
  match m s with
  | (inl e, s') => (inl (Raised e), s')
  | (inr x, s') => (inr x, s')
  end.

(** A new array object: it gets a reference that no object has. *)
Definition alloc (a : ndarray) : Py store loc := λ s,
  let l := fresh (dom s) in (inr l, <[l := a]> s).

(** [d[key]] for a key that may be missing *)
Definition getitem {A} (v : option A) : res A :=
  match v with
  | Some x => inr x
  | None => inl KeyError
  end.

(** [' '.join(words)] *)
Fixpoint join_space (words : list string) : string :=
  match words with
  | [] => EmptyString
  | [w] => w
  | w :: ws => w +:+ String " "%char (join_space ws)
  end.

(** An element of a [constraints] entry of the JSON input: a JSON array
    of a category string and one or two integers. *)
Inductive json_constraint : Type :=
| JC2 (cat : string) (i : Z)
| JC3 (cat : string) (i j : Z).

(** An entry of the list [probs] that [parse_json] builds: [None],
    [(tag, None)] or [(tag, dep)]. *)
Inductive tag_and_dep : Type :=
| NoScores
| TagOnly (tag : loc)
| TagAndDep (tag dep : loc).

(** The two closures [process_fun]: the one that returns the new pair,
    and the one that keeps the tag matrix of the entry. *)
Inductive process_fun : Type := TakeNew | KeepTag.

Definition process (f : process_fun) (old : tag_and_dep) (new_tag_and_dep : loc * loc)
    : res tag_and_dep :=
  match f with
  | TakeNew => inr (TagAndDep new_tag_and_dep.1 new_tag_and_dep.2)
  | KeepTag =>
      match old with
      | NoScores => inl TypeError
      | TagOnly tag | TagAndDep tag _ => inr (TagAndDep tag new_tag_and_dep.2)
      end
  end.

(** [sorted(unprocessed.items())]: the keys are the indices of the
    entries, all different, so the order is the order of the keys. *)
Fixpoint insert_item {A} (x : nat * A) (l : list (nat * A)) : list (nat * A) :=
  match l with
  | [] => [x]
  | y :: l' => if bool_decide (x.1 ≤ y.1) then x :: y :: l' else y :: insert_item x l'
  end.

Definition sorted_items {A} (items : list (nat * A)) : list (nat * A) :=
  foldr insert_item [] items.

(** The loop [for (i, (process_fun, _)), new_tag_and_dep in zip(...)]. *)
Fixpoint assign_new {A} (todo : list ((nat * (process_fun * A)) * (loc * loc)))
    (probs : list tag_and_dep) : res (list tag_and_dep) :=
  match todo with
  | [] => inr probs
  | ((i, (f, _)), new_tag_and_dep) :: todo' =>
      old ← match probs !! i with Some p => inr p | None => inl IndexError end;
      p ← process f old new_tag_and_dep;
      assign_new todo' (<[i := p]> probs)
  end.

(** [assert all(tag is not None and dep is not None for tag, dep in probs)]:
    unpacking an entry that is [None] raises [TypeError]. *)
Fixpoint assert_all_scored (probs : list tag_and_dep) : res unit :=
  match probs with
  | [] => inr tt
  | NoScores :: _ => inl TypeError
  | TagOnly _ :: _ => inl AssertionError
  | TagAndDep _ _ :: probs' => assert_all_scored probs'
  end.

(** The pair of an entry that has both matrices. *)
Definition scores_of (p : tag_and_dep) : option (loc * loc) :=
  match p with
  | TagAndDep tag dep => Some (tag, dep)
  | _ => None
  end.

Section frontend.
Context `{Frontend}.

(** [splitted, sents = zip( *pairs)]: nothing to unpack when there is no
    pair. *)
Definition unzip_pairs (pairs : list (list string * string))
    : res (list (list string) * list string) :=
  match pairs with
  | [] => inl ValueError
  | _ => inr (pairs.*1, pairs.*2)
  end.

Definition parse_doc (self : parser_obj) (sents : list sentence_arg)
    (probs : option (list (loc * loc))) (tag_list_arg : option (list Category))
    (constraints : option (list (list constraint))) (batchsize : Z)
    : Py store (list (list (Tree * float))) :=
  pairs ← lift (map_res maybe_split_and_join sents);
  '(splitted, sents) ← lift (unzip_pairs pairs);
  probs ← match probs with
          | None =>
              match tagger self with
              | None => raise AssertionError
              | Some t => predict_doc t splitted batchsize
              end
          | Some probs => mret probs
          end;
  _parse_doc_tag_and_dep self sents probs tag_list_arg constraints.

(** One decoded line of the JSON input: for each key the value, [None]
    when the key is missing ([heads] and [head_tags]: or is [null]). *)
Record json_dict : Type := mk_json_dict {
  jd_categories : option (list string);
  jd_words : option string;
  jd_heads : option json_value;
  jd_head_tags : option json_value;
  jd_heads_shape : option json_value;
  jd_head_tags_shape : option json_value;
  jd_constraints : option (list json_constraint)
}.

(** [np.array(x).reshape(json_dict[key]).astype(np.float32)], a new
    array. *)
Definition json_matrix (x : json_value) (shape_entry : option json_value) : Py store loc :=
  a ← lift (np_array x);
  shape ← lift (getitem shape_entry);
  m ← lift (reshape_astype_float32 a shape);
  alloc m.

(** The branch on [dep] and [tag]: the closure [process_fun], if any, and
    the entry [tag_and_dep]. *)
Definition json_scores (jd : json_dict) : PyJ (option process_fun * tag_and_dep) :=
  match jd_heads jd, jd_head_tags jd with
  | None, None => mret (Some TakeNew, NoScores)
  | None, Some tag =>
      tag ← python (json_matrix tag (jd_head_tags_shape jd));
      mret (Some KeepTag, TagOnly tag)
  | Some _, None => λ s, (inl NotImplementedError, s)
  | Some dep, Some tag =>
      dep ← python (json_matrix dep (jd_heads_shape jd));
      tag ← python (json_matrix tag (jd_head_tags_shape jd));
      mret (None, TagAndDep tag dep)
  end.

(** The variables of the first loop of [parse_json]. *)
Record json_loop : Type := mk_json_loop {
  jl_categories : option (list Category);
  jl_sents : list string;
  jl_probs : list tag_and_dep;
  jl_constraints : list (list json_constraint);
  jl_unprocessed : list (nat * (process_fun * list string))
}.

(** The body of the loop [for i, json_dict in enumerate(json_input)]. *)
Definition parse_json_entry (st : json_loop) (i : nat) (jd : json_dict) : PyJ json_loop :=
  categories ← python (lift
    match jl_categories st with
    | None =>
        cats ← getitem (jd_categories jd);
        cs ← map_res Category_parse cats;
        mret (Some cs)
    | Some cs => mret (Some cs)
    end);
  ws ← python (lift (getitem (jd_words jd)));
  words ← python (lift (map_res denormalize (split_space ws)));
  let sent := join_space words in
  '(f, tag_and_dep) ← json_scores jd;
  let unprocessed :=
    match f with
    | Some f => jl_unprocessed st ++ [(i, (f, words))]
    | None => jl_unprocessed st
    end in
  mret (mk_json_loop categories (jl_sents st ++ [sent]) (jl_probs st ++ [tag_and_dep])
          (jl_constraints st ++ [default [] (jd_constraints jd)]) unprocessed).

Fixpoint parse_json_loop (st : json_loop) (i : nat) (json_input : list json_dict)
    : PyJ json_loop :=
  match json_input with
  | [] => mret st
  | jd :: json_input' =>
      st' ← parse_json_entry st i jd;
      parse_json_loop st' (S i) json_input'
  end.

(** [if len(unprocessed) > 0: ...]: the entries that lack a matrix get
    the tagger's. *)
Definition assign_unprocessed (self : parser_obj) (batchsize : Z) (st : json_loop)
    : Py store (list tag_and_dep) :=
  match jl_unprocessed st with
  | [] => mret (jl_probs st)
  | _ =>
      t ← match tagger self with
          | None => raise AssertionError
          | Some t => mret t
          end;
      let splitted := (λ u, u.2.2) <$> jl_unprocessed st in
      unprocessed_probs ← predict_doc t splitted batchsize;
      probs ← lift (assign_new (zip (sorted_items (jl_unprocessed st)) unprocessed_probs)
                      (jl_probs st));
      _ ← lift (assert_all_scored probs);
      mret probs
  end.

(** [if all(len(constraint) == 0 ...): constraints = None
     else: constraints = [[(Category.parse(cat), i, j) for cat, i, j in cxs] ...]] *)
Definition convert_json_constraints (constraints : list (list json_constraint))
    : res (option (list (list constraint))) :=
  if forallb (λ cxs, bool_decide (length cxs = 0)) constraints then inr None
  else
    cs ← map_res (map_res (λ cx,
            match cx with
            | JC3 cat i j => c ← Category_parse cat; mret (NonTerminal (Some c) i j)
            | JC2 _ _ => inl ValueError
            end)) constraints;
    mret (Some cs).

(** [parse_json] on the decoded input. *)
Definition parse_json (self : parser_obj) (json_input : list json_dict) (batchsize : Z)
    : PyJ (list (list (Tree * float))) :=
  st ← parse_json_loop (mk_json_loop None [] [] [] []) 0 json_input;
  probs ← python (assign_unprocessed self batchsize st);
  constraints ← python (lift (convert_json_constraints (jl_constraints st)));
  python (_parse_doc_tag_and_dep self (jl_sents st) (omap scores_of probs)
            (jl_categories st) constraints).

End frontend.

(** ** [Cacheable]: the ids of the cached objects (cacheable.cpp) *)

Definition INT_MAX : Z := (2 ^ 31 - 1)%Z.

(** The static counter [Cacheable::ids] and the objects constructed so
    far: the thread that constructed each and the [id_] it got. *)
Record cacheable_state : Type := mk_cacheable_state {
  ids : Z;
  constructed : list (nat * Z)
}.

(** [Cacheable::Cacheable()] run by thread [t].  [id_ = ids++] under
    [omp atomic capture] is one step; incrementing an [int] that holds
    [INT_MAX] is undefined. *)
Definition Cacheable_new (t : nat) (st : cacheable_state) : res cacheable_state :=
  if bool_decide (ids st < INT_MAX)%Z
  then inr (mk_cacheable_state (ids st + 1)%Z (constructed st ++ [(t, ids st)]))
  else inl UndefinedBehaviour.

(** An interleaving of constructor calls: the threads in the order in
    which their atomic steps take place. *)
Fixpoint run_constructors (schedule : list nat) (st : cacheable_state) : res cacheable_state :=
  match schedule with
  | [] => inr st
  | t :: schedule' => st' ← Cacheable_new t st; run_constructors schedule' st'
  end.

(** The state at program start: [int Cacheable::ids = 0]. *)
Definition Cacheable_initial : cacheable_state := mk_cacheable_state 0 [].

(** ** A concrete front end, to run the entry points on examples *)

(** JSON values: a list of numbers or a shape. *)
Inductive example_value : Type :=
| Numbers (l : list float)
| Shape (l : list nat).

(** Strings are split at spaces, no word is changed by [denormalize],
    the tagger predicts nothing, and numbers reshape to a [float32] array
    when their count is the size of the shape. *)
Definition example_frontend : @Frontend string_categories first_row_engine := {|
  maybe_split_and_join x :=
    match x with
    | Joined s => inr (split_space s, s)
    | Words ws => inr (ws, join_space ws)
    end;
  denormalize w := inr w;
  predict_doc t splitted batchsize := mret [];
  json_value := example_value;
  np_object := list float;
  np_array x :=
    match x with
    | Numbers l => inr l
    | Shape _ => inl TypeError
    end;
  reshape_astype_float32 a sh :=
    match sh with
    | Shape sh =>
        if bool_decide (length a = prod_list sh)
        then inr (mk_ndarray float32 sh (to_float32 <$> a))
        else inl ValueError
    | Numbers _ => inl TypeError
    end
|}.

(** The entry of "John" with both matrices, and the same entry without
    its tag matrix. *)
Definition example_entry : @json_dict string_categories first_row_engine example_frontend :=
  @mk_json_dict string_categories first_row_engine example_frontend
    (Some ["N"; "NP"]) (Some "John")
    (Some (Numbers [0%float; (-5)%float])) (Some (Numbers [(-1)%float; (-2)%float]))
    (Some (Shape [1; 2])) (Some (Shape [1; 2])) None.

Definition example_entry_heads_only
    : @json_dict string_categories first_row_engine example_frontend :=
  @mk_json_dict string_categories first_row_engine example_frontend
    (Some ["N"; "NP"]) (Some "John")
    (Some (Numbers [0%float; (-5)%float])) None
    (Some (Shape [1; 2])) None None.

Definition example_json_run :=
  @parse_json string_categories first_row_engine example_frontend
    (example_parser English) [example_entry] 16%Z ∅.

(** The two references of an entry of [probs], where it has them. *)
Definition tag_of (p : tag_and_dep) : option loc :=
  match p with
  | NoScores => None
  | TagOnly tag | TagAndDep tag _ => Some tag
  end.

Definition dep_of (p : tag_and_dep) : option loc :=
  match p with
  | TagAndDep _ dep => Some dep
  | _ => None
  end.

Section json_matrices.
Context `{Frontend}.

(** [m] is the array that the JSON value [x] converts to under the shape
    entry [shape_entry]. *)
Definition json_converts (x : json_value) (shape_entry : option json_value)
    (m : ndarray) : Prop :=
  ∃ a shape, np_array x = inr a ∧ shape_entry = Some shape ∧
    reshape_astype_float32 a shape = inr m.

(** The entry [p] of [probs] refers, in the store [s], to the matrices
    that the JSON entry [jd] brings. *)
Definition holds_matrices (s : store) (jd : json_dict) (p : tag_and_dep) : Prop :=
  (∀ tag, jd_head_tags jd = Some tag →
     ∃ l m, tag_of p = Some l ∧ s !! l = Some m ∧
       json_converts tag (jd_head_tags_shape jd) m) ∧
  (∀ dep, jd_heads jd = Some dep →
     ∃ l m, dep_of p = Some l ∧ s !! l = Some m ∧
       json_converts dep (jd_heads_shape jd) m).

End json_matrices.

(** * Properties *)

(** ** Stepping through the monads *)

Lemma res_bind_inr {A B} (m : res A) (f : A → res B) (y : B) :
  m ≫= f = inr y → ∃ x, m = inr x ∧ f x = inr y.
Proof. destruct m as [e|x]; [discriminate|]. intros Hf. by exists x. Qed.

Lemma res_bind_inl {A B} (m : res A) (f : A → res B) (e : exn) :
  m ≫= f = inl e → m = inl e ∨ ∃ x, m = inr x ∧ f x = inl e.
Proof.
  destruct m as [e'|x]; unfold mbind, res_bind; intros Hf.
  - left. congruence.
  - right. by exists x.
Qed.

Lemma Py_bind_inv {S A B} (m : Py S A) (f : A → Py S B) s out s' :
  (m ≫= f) s = (out, s') →
  (∃ e, m s = (inl e, s') ∧ out = inl e) ∨
  (∃ x s1, m s = (inr x, s1) ∧ f x s1 = (out, s')).
Proof.
  unfold mbind, Py_bind. destruct (m s) as [[e|x] s1] eqn:Hm; intros Hf.
  - left. exists e. by inversion Hf.
  - right. by exists x, s1.
Qed.

Lemma for_each_app {S A} (l1 l2 : list A) (body : A → Py S unit) s :
  for_each (l1 ++ l2) body s =
  match for_each l1 body s with
  | (inl e, s') => (inl e, s')
  | (inr _, s') => for_each l2 body s'
  end.
Proof.
  revert s. induction l1 as [|x l1 IH]; intros s; [done|].
  simpl. unfold mbind, Py_bind. destruct (body x s) as [[e|[]] s1]; [done|]. apply IH.
Qed.

(** ** numpy: what the two assignments do to an array *)

Lemma normalize_index_lt i n k : normalize_index i n = inr k → k < n.
Proof.
  unfold normalize_index. repeat case_bool_decide; intros [= <-]; lia.
Qed.

Lemma normalize_index_spec i n k :
  normalize_index i n = inr k ↔
  k < n ∧ (i = Z.of_nat k ∨ i = (Z.of_nat k - Z.of_nat n)%Z).
Proof.
  unfold normalize_index. split.
  - repeat case_bool_decide; intros [= <-]; lia.
  - intros [Hk [-> | ->]].
    + rewrite bool_decide_true by lia. f_equal. lia.
    + rewrite bool_decide_false by lia. rewrite bool_decide_true by lia. f_equal. lia.
Qed.

Lemma ndarray_set_row_spec a i v a' :
  ndarray_set_row a i v = inr a' →
  ∃ n0 n1 rest k,
    shape a = n0 :: n1 :: rest ∧ normalize_index i n0 = inr k ∧
    arr_dtype a' = arr_dtype a ∧ shape a' = shape a ∧
    data a' = list_inserts (k * (n1 * prod_list rest))
                (replicate (n1 * prod_list rest) (cast (arr_dtype a) v)) (data a).
Proof.
  unfold ndarray_set_row. destruct (shape a) as [|n0 [|n1 rest]] eqn:Hs; try discriminate.
  intros (k & Hk & [= <-])%res_bind_inr. by exists n0, n1, rest, k.
Qed.

Lemma ndarray_set_item_spec a i j v a' :
  ndarray_set_item a i j v = inr a' →
  ∃ n0 n1 rest k c,
    shape a = n0 :: n1 :: rest ∧ normalize_index i n0 = inr k ∧
    normalize_index j n1 = inr c ∧
    arr_dtype a' = arr_dtype a ∧ shape a' = shape a ∧
    data a' = list_inserts ((k * n1 + c) * prod_list rest)
                (replicate (prod_list rest) (cast (arr_dtype a) v)) (data a).
Proof.
  unfold ndarray_set_item. destruct (shape a) as [|n0 [|n1 rest]] eqn:Hs; try discriminate.
  intros (k & Hk & (c & Hc & [= <-])%res_bind_inr)%res_bind_inr.
  by exists n0, n1, rest, k, c.
Qed.

(** Two arrays of one shape have the same row [k] when their data agree
    on the block of that row. *)
Lemma ndarray_row_ext a a' k :
  shape a' = shape a →
  length (data a') = length (data a) →
  (∀ p, k * prod_list (tail (shape a)) ≤ p < (k + 1) * prod_list (tail (shape a)) →
        data a' !! p = data a !! p) →
  ndarray_row a' k = ndarray_row a k.
Proof.
  intros Hs Hl Hp. unfold ndarray_row. rewrite Hs.
  set (blk := prod_list (tail (shape a))) in *.
  apply list_eq. intros q.
  destruct (decide (q < blk)) as [Hq|Hq].
  - rewrite !lookup_take_lt, !lookup_drop by done. apply Hp. lia.
  - by rewrite !lookup_take_ge by lia.
Qed.

Lemma ndarray_set_row_other a i v a' k :
  ndarray_set_row a i v = inr a' →
  (∀ n0 rest, shape a = n0 :: rest → normalize_index i n0 ≠ inr k) →
  ndarray_row a' k = ndarray_row a k.
Proof.
  intros (n0 & n1 & rest & k' & Hs & Hk' & _ & Hs' & Hd)%ndarray_set_row_spec Hne.
  assert (k ≠ k') as Hkk by (intros ->; by eapply Hne).
  apply ndarray_row_ext; [done|by rewrite Hd, length_inserts|].
  rewrite Hs. simpl. intros p Hp. rewrite Hd.
  destruct (decide (k < k')).
  - apply list_lookup_inserts_lt. nia.
  - apply list_lookup_inserts_ge. rewrite length_replicate. nia.
Qed.

Lemma ndarray_set_item_other a i j v a' k :
  ndarray_set_item a i j v = inr a' →
  (∀ n0 rest, shape a = n0 :: rest → normalize_index i n0 ≠ inr k) →
  ndarray_row a' k = ndarray_row a k.
Proof.
  intros (n0 & n1 & rest & k' & c & Hs & Hk' & Hc & _ & Hs' & Hd)%ndarray_set_item_spec Hne.
  assert (k ≠ k') as Hkk by (intros ->; by eapply Hne).
  apply normalize_index_lt in Hc.
  apply ndarray_row_ext; [done|by rewrite Hd, length_inserts|].
  rewrite Hs. simpl. intros p Hp. rewrite Hd.
  destruct (decide (k < k')).
  - apply list_lookup_inserts_lt. nia.
  - apply list_lookup_inserts_ge. rewrite length_replicate. nia.
Qed.

(** ** The store: what one update leaves alone *)

Lemma frame_refl l P s : frame l P s s.
Proof.
  split; [done|]. split; [done|]. intros a Ha. exists a. by repeat split.
Qed.

Lemma frame_trans l (P Q R : nat → nat → Prop) s1 s2 s3 :
  (∀ n k, P n k → R n k) → (∀ n k, Q n k → R n k) →
  frame l P s1 s2 → frame l Q s2 s3 → frame l R s1 s3.
Proof.
  intros HP HQ (Ho1 & Hn1 & Ha1) (Ho2 & Hn2 & Ha2). split; [|split].
  - intros l' Hl'. by rewrite Ho2, Ho1.
  - auto.
  - intros a Ha. destruct (Ha1 a Ha) as (a1 & Hs1 & Hsh1 & Hdt1 & Hlen1 & Hrow1).
    destruct (Ha2 a1 Hs1) as (a2 & Hs2 & Hsh2 & Hdt2 & Hlen2 & Hrow2).
    exists a2. repeat split; [done|congruence..|].
    intros n0 rest k Hsh HR.
    rewrite (Hrow2 n0 rest k) by (congruence || naive_solver).
    apply (Hrow1 n0 rest k); [done|naive_solver].
Qed.

Lemma update_frame l (f : ndarray → res ndarray) (P : nat → nat → Prop) s out s' :
  update l f s = (out, s') →
  (∀ a a', f a = inr a' →
     shape a' = shape a ∧ arr_dtype a' = arr_dtype a ∧ length (data a') = length (data a) ∧
     ∀ n0 rest k, shape a = n0 :: rest → ¬ P n0 k → ndarray_row a' k = ndarray_row a k) →
  frame l P s s'.
Proof.
  unfold update. intros Hu Hf. destruct (s !! l) as [a|] eqn:Ha.
  - destruct (f a) as [e|a'] eqn:Hfa; inversion Hu; subst; [apply frame_refl|].
    destruct (Hf a a' Hfa) as (? & ? & ? & ?).
    split; [|split].
    + intros l' Hl'. by rewrite lookup_insert_ne.
    + congruence.
    + intros a0 Ha0. assert (a0 = a) as -> by congruence.
      exists a'. by rewrite lookup_insert_eq.
  - inversion Hu; subst. apply frame_refl.
Qed.

Lemma set_row_frame l i v s out s' :
  update l (λ a, ndarray_set_row a i v) s = (out, s') → frame l (selects i) s s'.
Proof.
  intros Hu. eapply update_frame; [done|]. intros a a' Ha. simpl in Ha.
  pose proof Ha as (n0 & n1 & rest & k & Hs & Hk & Hdt & Hsh & Hd)%ndarray_set_row_spec.
  repeat split; [done..|by rewrite Hd, length_inserts|].
  intros n0' rest' k' Hs' Hsel. eapply ndarray_set_row_other; [done|].
  intros n0'' rest'' Hs'' (Hlt & Hi)%normalize_index_spec.
  apply Hsel. unfold selects. congruence.
Qed.

Lemma set_item_frame l i j v s out s' :
  update l (λ a, ndarray_set_item a i j v) s = (out, s') → frame l (selects i) s s'.
Proof.
  intros Hu. eapply update_frame; [done|]. intros a a' Ha. simpl in Ha.
  pose proof Ha as (n0 & n1 & rest & k & c & Hs & Hk & Hc & Hdt & Hsh & Hd)%ndarray_set_item_spec.
  repeat split; [done..|by rewrite Hd, length_inserts|].
  intros n0' rest' k' Hs' Hsel. eapply ndarray_set_item_other; [done|].
  intros n0'' rest'' Hs'' (Hlt & Hi)%normalize_index_spec.
  apply Hsel. unfold selects. congruence.
Qed.

Section terminal_constraints_properties.
Context `{CategoryAPI}.

Lemma apply_terminal_constraint_frame td tp cat i s out s' :
  apply_terminal_constraint td tp (cat, i) s = (out, s') → frame tp (selects i) s s'.
Proof.
  unfold apply_terminal_constraint.
  intros [(e & He & ->) | (j & s1 & Hj & Hrest)]%Py_bind_inv.
  { unfold lift in He. inversion He; subst. apply frame_refl. }
  unfold lift in Hj. inversion Hj; subst s1. clear Hj.
  apply Py_bind_inv in Hrest as [(e & He & ->) | ([] & s2 & Hrow & Hitem)].
  { by eapply set_row_frame. }
  eapply (frame_trans _ (selects i) (selects i)); [done|done|..].
  - by eapply set_row_frame.
  - by eapply set_item_frame.
Qed.

Lemma for_each_constraints_frame td tp constraints s out s' :
  for_each constraints (apply_terminal_constraint td tp) s = (out, s') →
  frame tp (addressed constraints) s s'.
Proof.
  revert s. induction constraints as [|[cat i] cs IH]; intros s; simpl.
  { intros [= <- <-]. apply frame_refl. }
  intros [(e & He & ->) | ([] & s1 & Hone & Hrest)]%Py_bind_inv.
  - eapply (frame_trans _ (selects i) (λ _ _, False)); [..|apply frame_refl].
    + intros n k Hsel. exists cat, i. split; [left|done].
    + done.
    + by eapply apply_terminal_constraint_frame.
  - eapply (frame_trans _ (selects i) (addressed cs)).
    + intros n k Hsel. exists cat, i. split; [left|done].
    + intros n k (c' & i' & Hin & Hsel). exists c', i'. split; [by right|done].
    + by eapply apply_terminal_constraint_frame.
    + by apply IH.
Qed.

End terminal_constraints_properties.

(** ** numpy: the entries of a matrix row after the two assignments *)

Lemma ndarray_get_row a n m k j :
  shape a = [n; m] → k < n → j < m →
  ndarray_get a k j = ndarray_row a k !! j.
Proof.
  intros Hs Hk Hj. unfold ndarray_get, ndarray_row. rewrite Hs. simpl.
  rewrite bool_decide_true by done.
  rewrite lookup_take_lt, lookup_drop by lia. f_equal. lia.
Qed.

Lemma set_row_then_item a n m i j v w a1 a2 :
  shape a = [n; m] → ndarray_wf a →
  ndarray_set_row a i v = inr a1 →
  ndarray_set_item a1 i (Z.of_nat j) w = inr a2 →
  ∃ k, normalize_index i n = inr k ∧ j < m ∧
    shape a2 = [n; m] ∧ arr_dtype a2 = arr_dtype a ∧ ndarray_wf a2 ∧
    ∀ j', j' < m →
      ndarray_get a2 k j' =
      Some (cast (arr_dtype a) (if decide (j' = j) then w else v)).
Proof.
  intros Hs Hwf
    (n0 & n1 & rest & k & Hs1 & Hk & Hdt1 & Hsh1 & Hd1)%ndarray_set_row_spec
    (n0' & n1' & rest' & k' & c & Hs2 & Hk' & Hc & Hdt2 & Hsh2 & Hd2)%ndarray_set_item_spec.
  rewrite Hs in Hs1. injection Hs1 as <- <- <-.
  rewrite Hsh1, Hs in Hs2. injection Hs2 as <- <- <-.
  rewrite Hk in Hk'. injection Hk' as <-.
  apply normalize_index_spec in Hc as [Hc Hcj].
  assert (c = j) as -> by (destruct Hcj; lia).
  pose proof (normalize_index_lt _ _ _ Hk) as Hkn.
  unfold ndarray_wf in *. rewrite Hs in Hwf.
  change (prod_list [n; m]) with (n * (m * 1)) in Hwf.
  change (prod_list []) with 1 in *.
  rewrite !Nat.mul_1_r in *.
  exists k. repeat split; [done|done|congruence|congruence| |].
  { rewrite Hd2, length_inserts, Hd1, length_inserts, Hsh2, Hsh1, Hs.
    change (prod_list [n; m]) with (n * (m * 1)). lia. }
  intros j' Hj'. unfold ndarray_get. rewrite Hsh2, Hsh1, Hs.
  rewrite bool_decide_true by done. rewrite Hd2, Hdt1.
  assert (k * m + j' < length (data a)) by nia.
  destruct (decide (j' = j)) as [->|Hne].
  - rewrite list_lookup_inserts;
      [|rewrite length_replicate; lia|rewrite Hd1, length_inserts; lia].
    rewrite Nat.sub_diag. done.
  - assert (list_inserts (k * m + j) (replicate 1 (cast (arr_dtype a) w)) (data a1)
              !! (k * m + j') = data a1 !! (k * m + j')) as ->.
    { destruct (decide (j' < j)).
      - apply list_lookup_inserts_lt. lia.
      - apply list_lookup_inserts_ge. rewrite length_replicate. lia. }
    rewrite Hd1, list_lookup_inserts; [|rewrite length_replicate; lia|lia].
    apply lookup_replicate_2. lia.
Qed.

Section terminal_constraints_effect.
Context `{CategoryAPI}.

(** The dict maps a tag to the index of its last occurrence in the list. *)
Lemma make_tag_dict_lookup (tag_list : list Category) cat j :
  make_tag_dict tag_list !! cat = Some j ↔
  tag_list !! j = Some cat ∧ ∀ j', j < j' → tag_list !! j' ≠ Some cat.
Proof.
  unfold make_tag_dict, enumerate. revert j.
  induction tag_list as [|x l IH] using rev_ind; intros j.
  { simpl. rewrite lookup_empty. split; [done|]. by intros [[=] _]. }
  rewrite imap_app, foldl_app. simpl. rewrite Nat.add_0_r.
  destruct (decide (x = cat)) as [->|Hne].
  - rewrite lookup_insert_eq. split.
    + intros [= <-]. split.
      * by rewrite lookup_app_r, Nat.sub_diag by lia.
      * intros j' Hj'. rewrite lookup_ge_None_2; [done|]. rewrite length_app. simpl. lia.
    + intros [Hj Hlast]. f_equal.
      apply lookup_lt_Some in Hj as Hlt. rewrite length_app in Hlt. simpl in Hlt.
      destruct (decide (j = length l)) as [->|]; [done|].
      exfalso. apply (Hlast (length l)); [lia|].
      by rewrite lookup_app_r, Nat.sub_diag by lia.
  - rewrite lookup_insert_ne by done. rewrite IH. split.
    + intros [Hj Hlast]. split.
      * by apply lookup_app_l_Some.
      * intros j' Hj'. destruct (decide (j' < length l)).
        -- rewrite lookup_app_l by done. by apply Hlast.
        -- destruct (decide (j' = length l)) as [->|].
           ++ rewrite lookup_app_r, Nat.sub_diag by lia. simpl. congruence.
           ++ rewrite lookup_ge_None_2; [done|]. rewrite length_app. simpl. lia.
    + intros [Hj Hlast].
      assert (j < length l).
      { apply lookup_lt_Some in Hj as Hlt. rewrite length_app in Hlt. simpl in Hlt.
        destruct (decide (j = length l)) as [->|]; [|lia].
        rewrite lookup_app_r, Nat.sub_diag in Hj by lia. simpl in Hj. congruence. }
      split.
      * by rewrite lookup_app_l in Hj.
      * intros j' Hj' Hl. apply (Hlast j' Hj'). by apply lookup_app_l_Some.
Qed.

Lemma apply_terminal_constraint_row td tp cat i s s' a n m :
  apply_terminal_constraint td tp (cat, i) s = (inr tt, s') →
  s !! tp = Some a → shape a = [n; m] → ndarray_wf a →
  ∃ k j a',
    normalize_index i n = inr k ∧ td !! cat = Some j ∧ j < m ∧
    s' !! tp = Some a' ∧ shape a' = [n; m] ∧ arr_dtype a' = arr_dtype a ∧ ndarray_wf a' ∧
    ∀ j', j' < m →
      ndarray_get a' k j' =
      Some (cast (arr_dtype a) (if decide (j' = j) then 0%float else pseudo_neginf)).
Proof.
  unfold apply_terminal_constraint. intros Hrun Ha Hs Hwf.
  apply Py_bind_inv in Hrun as [(e & _ & [=]) | (j & s0 & Hj & Hrun)].
  unfold lift, dict_get in Hj. destruct (td !! cat) as [j0|] eqn:Htd; [|done].
  injection Hj as -> ->.
  apply Py_bind_inv in Hrun as [(e & _ & [=]) | ([] & s1 & Hrow & Hitem)].
  unfold update in Hrow, Hitem. rewrite Ha in Hrow.
  destruct (ndarray_set_row a i pseudo_neginf) as [|a1] eqn:Hr; [done|].
  injection Hrow as <-. rewrite lookup_insert_eq in Hitem.
  destruct (ndarray_set_item a1 i (Z.of_nat j) 0) as [|a2] eqn:Hi; [done|].
  injection Hitem as <-.
  destruct (set_row_then_item a n m i j _ _ a1 a2 Hs Hwf Hr Hi)
    as (k & Hk & Hjm & Hs2 & Hdt2 & Hwf2 & Hget).
  exists k, j, a2. rewrite lookup_insert_eq. by repeat split.
Qed.

End terminal_constraints_effect.

(** ** [build_terminal_constraints]: the frame and the constrained row *)

(** C10 (amended).  [build_terminal_constraints] works in place: when it
    returns, it returns the reference it was given; no other array of the
    store changes; the array keeps its dtype and shape; and every row [k]
    that no constraint selects -- no constraint index is [k] or, counting
    from the end as numpy does for negative indices, [k - n0] -- is
    unchanged.  This holds also when the loop stops with an exception. *)
Theorem build_terminal_constraints_frame `{CategoryAPI}
    (constraints : list (Category * Z)) tag_probs tag_list s out s' :
  build_terminal_constraints constraints tag_probs tag_list s = (out, s') →
  (∀ r, out = inr r → r = tag_probs) ∧
  (∀ l, l ≠ tag_probs → s' !! l = s !! l) ∧
  ∀ a, s !! tag_probs = Some a →
    ∃ a', s' !! tag_probs = Some a' ∧ shape a' = shape a ∧ arr_dtype a' = arr_dtype a ∧
      ∀ n0 rest k, shape a = n0 :: rest →
        (∀ cat i, (cat, i) ∈ constraints →
           i ≠ Z.of_nat k ∧ i ≠ (Z.of_nat k - Z.of_nat n0)%Z) →
        ndarray_row a' k = ndarray_row a k.
Proof.
  unfold build_terminal_constraints.
  intros [(e & Hloop & ->) | ([] & s1 & Hloop & Hret)]%Py_bind_inv.
  - apply for_each_constraints_frame in Hloop as (Hother & _ & Hsame).
    split; [done|]. split; [done|].
    intros a Ha. destruct (Hsame a Ha) as (a' & Ha' & Hsh & Hdt & _ & Hrows).
    exists a'. repeat split; [done..|].
    intros n0 rest k Hs Hno. apply (Hrows n0 rest k Hs).
    intros (cat & i & Hin & Hsel). destruct (Hno cat i Hin). by destruct Hsel.
  - injection Hret as <- <-.
    apply for_each_constraints_frame in Hloop as (Hother & _ & Hsame).
    split; [by intros r [= <-]|]. split; [done|].
    intros a Ha. destruct (Hsame a Ha) as (a' & Ha' & Hsh & Hdt & _ & Hrows).
    exists a'. repeat split; [done..|].
    intros n0 rest k Hs Hno. apply (Hrows n0 rest k Hs).
    intros (cat & i & Hin & Hsel). destruct (Hno cat i Hin). by destruct Hsel.
Qed.


(** The constant written [-10e10] is minus ten to the eleventh, and
    binary32 has no such value: a [float32] matrix holds its neighbour. *)
Example pseudo_neginf_value : pseudo_neginf = (-100000000000)%float.
Proof. reflexivity. Qed.

Example pseudo_neginf_float32 : cast float32 pseudo_neginf = (-99999997952)%float.
Proof. reflexivity. Qed.

Example zero_float32 : cast float32 0%float = 0%float.
Proof. reflexivity. Qed.

Lemma float_neq (x y : float) : Prim2SF x ≠ Prim2SF y → x ≠ y.
Proof. intros Hne ->. by apply Hne. Qed.

(** C10, counterexample to the claim as stated: the one constraint has
    token index [-1], no constraint has token index [1], and yet row [1]
    of the returned matrix differs from row [1] of the input. *)
Lemma build_terminal_constraints_negative_index :
  ∃ s' a',
    example_run float32 = (inr 1%positive, s') ∧
    s' !! 1%positive = Some a' ∧
    (∀ cat i, (cat, i) ∈ example_constraints → i ≠ 1%Z) ∧
    ndarray_row a' 1 = [0%float; (-99999997952)%float] ∧
    ndarray_row (example_matrix float32) 1 = [(-3)%float; (-4)%float] ∧
    ndarray_row a' 1 ≠ ndarray_row (example_matrix float32) 1.
Proof.
  exists (example_run float32).2,
    (mk_ndarray float32 [2; 2] [(-1)%float; (-2)%float; 0%float; (-99999997952)%float]).
  split; [apply surjective_pairing|]. split; [reflexivity|]. split.
  { intros cat i Hin%list_elem_of_singleton. by injection Hin as -> ->. }
  split; [done|]. split; [done|].
  change ([0%float; (-99999997952)%float] ≠ [(-3)%float; (-4)%float]).
  intros Heq. assert (0%float = (-3)%float) as Hz by congruence.
  revert Hz. apply float_neq. by vm_compute.
Qed.

(** Witness of [build_terminal_constraints_frame] on the same run: row
    [0] is selected by no constraint and is unchanged. *)
Lemma build_terminal_constraints_frame_witness :
  (∀ r, (example_run float32).1 = inr r → r = 1%positive) ∧
  (∀ l, l ≠ 1%positive → (example_run float32).2 !! l = example_store float32 !! l) ∧
  ∀ a, example_store float32 !! 1%positive = Some a →
    ∃ a', (example_run float32).2 !! 1%positive = Some a' ∧
      shape a' = shape a ∧ arr_dtype a' = arr_dtype a ∧
      ∀ n0 rest k, shape a = n0 :: rest →
        (∀ cat i, (cat, i) ∈ example_constraints →
           i ≠ Z.of_nat k ∧ i ≠ (Z.of_nat k - Z.of_nat n0)%Z) →
        ndarray_row a' k = ndarray_row a k.
Proof.
  apply (@build_terminal_constraints_frame string_categories
           example_constraints 1%positive example_tag_list (example_store float32)).
  apply surjective_pairing.
Defined.



(** ** The constructors *)

Section constructor_properties.
Context `{Engine}.

Lemma assign_run (upd : parser_obj → parser_obj) self :
  assign upd self = (inr tt, upd self).
Proof. done. Qed.

(** What [JapaneseCCGParser.__init__] leaves in the object once the list
    comprehension over the root categories has returned. *)
Lemma JapaneseCCGParser_init_state a self cats :
  parse_root_cats (default ja_possible_root_cats (a_possible_root_cats a)) = inr cats →
  ∃ out self',
    JapaneseCCGParser_init a self = (out, self') ∧
    binary_rules self' = a_binary_rules a ∧
    possible_root_cats self' =
      Some (default ja_possible_root_cats (a_possible_root_cats a)) ∧
    (out = inr tt → lang self' = Some "en" ∧ tagger self' = None) ∧
    out = match py_dict self with
          | Some _ => inr tt
          | None => inl (AttributeError "max_steps")
          end.
Proof.
  intros Hparse. unfold JapaneseCCGParser_init.
  destruct self as [br rc cd tl ur sr b ub ucd usr ps nb ml tg lg [d|]];
    destruct (a_binary_rules a) as [rules|] eqn:Hbr;
    unfold mbind, Py_bind, lift, assign, setattr, mret, Py_ret;
    simpl; rewrite Hparse; simpl;
    (eexists _, _; split; [reflexivity|]; simpl; repeat split; try done; auto).
Qed.

Lemma EnglishCCGParser_init_state a self cats :
  parse_root_cats (default en_possible_root_cats (a_possible_root_cats a)) = inr cats →
  ∃ out self',
    EnglishCCGParser_init a self = (out, self') ∧
    binary_rules self' = Some (list_or (a_binary_rules a) en_default_binary_rules) ∧
    possible_root_cats self' = Some cats ∧
    beta self' = Some (a_beta a) ∧ pruning_size self' = Some (a_pruning_size a) ∧
    nbest self' = Some (a_nbest a) ∧ max_length self' = Some (a_max_length a) ∧
    (out = inr tt →
       lang self' = Some "en" ∧ tagger self' = None ∧
       getattr self' "max_steps" = inr (a_max_steps a)) ∧
    out = match py_dict self with
          | Some _ => inr tt
          | None => inl (AttributeError "max_steps")
          end.
Proof.
  intros Hparse. unfold EnglishCCGParser_init.
  destruct self as [br rc cd tl ur sr b ub ucd usr ps nb ml tg lg [d|]];
    unfold mbind, Py_bind, lift, assign, setattr, getattr, mret, Py_ret;
    simpl; rewrite Hparse; simpl.
  - eexists _, _. split; [reflexivity|]. simpl. repeat split; try done; auto.
    by rewrite lookup_insert_eq.
  - eexists _, _. split; [reflexivity|]. simpl. repeat split; try done; auto.
Qed.

End constructor_properties.

(** ** [_parse_doc_tag_and_dep] *)

Section parse_doc_properties.
Context `{Engine}.

(** The phases of a call that returns. *)
Lemma parse_doc_inr self sents probs tag_list_arg constraints s res s' :
  _parse_doc_tag_and_dep self sents probs tag_list_arg constraints s = (inr res, s') →
  ∃ cfg c_constraints probs' s1 checked,
    convert_config self tag_list_arg = inr cfg ∧
    prepare_constraints cfg (length sents) constraints probs s
      = (inr (c_constraints, probs'), s1) ∧
    check_shapes sents (length (cfg_tag_list cfg)) 0 probs' s1 = (inr checked, s') ∧
    length sents ≤ length checked ∧
    collect (lang self) (cfg_nbest cfg)
      (ParseSentences (request cfg (length sents) checked c_constraints))
      0 (length sents) = inr res.
Proof.
  unfold _parse_doc_tag_and_dep.
  intros [(e & _ & [=]) | (cfg & s0 & Hcfg & Hrun)]%Py_bind_inv.
  unfold lift in Hcfg. injection Hcfg as Hcfg <-.
  apply Py_bind_inv in Hrun as [(e & _ & [=]) | ([cc probs'] & s1 & Hprep & Hrun)].
  apply Py_bind_inv in Hrun as [(e & _ & [=]) | (checked & s2 & Hchk & Hrun)].
  case_bool_decide as Hlen; simpl in Hrun; [|discriminate].
  unfold lift in Hrun. injection Hrun as Hcol <-.
  by exists cfg, cc, probs', s1, checked.
Qed.

(** [_parse_doc_tag_and_dep] is [engine_request] followed by the call of
    the engine and the loop that builds the result. *)
Lemma parse_doc_of_request self sents probs tag_list_arg constraints s :
  _parse_doc_tag_and_dep self sents probs tag_list_arg constraints s
  = (req ← engine_request self sents probs tag_list_arg constraints;
     lift (collect (lang self) (nbest_ req) (ParseSentences req) 0 (length sents))) s.
Proof.
  unfold _parse_doc_tag_and_dep, engine_request, mbind, Py_bind, lift, raise, mret, Py_ret.
  destruct (convert_config self tag_list_arg) as [e|cfg]; [done|].
  destruct (prepare_constraints _ _ _ _ s) as [[e|[cc probs']] s1]; [done|].
  destruct (check_shapes _ _ _ _ s1) as [[e|checked] s2]; [done|].
  by destruct (negb _).
Qed.

(** The phases of a run of [engine_request] that returns. *)
Lemma engine_request_inr self sents probs tag_list_arg constraints s req s' :
  engine_request self sents probs tag_list_arg constraints s = (inr req, s') →
  ∃ cfg c_constraints probs' s1 checked,
    convert_config self tag_list_arg = inr cfg ∧
    prepare_constraints cfg (length sents) constraints probs s
      = (inr (c_constraints, probs'), s1) ∧
    check_shapes sents (length (cfg_tag_list cfg)) 0 probs' s1 = (inr checked, s') ∧
    length sents ≤ length checked ∧
    req = request cfg (length sents) checked c_constraints.
Proof.
  unfold engine_request.
  intros [(e & _ & [=]) | (cfg & s0 & Hcfg & Hrun)]%Py_bind_inv.
  unfold lift in Hcfg. injection Hcfg as Hcfg <-.
  apply Py_bind_inv in Hrun as [(e & _ & [=]) | ([cc probs'] & s1 & Hprep & Hrun)].
  apply Py_bind_inv in Hrun as [(e & _ & [=]) | (checked & s2 & Hchk & Hrun)].
  case_bool_decide as Hlen; simpl in Hrun; [|discriminate].
  injection Hrun as <- <-.
  by exists cfg, cc, probs', s1, checked.
Qed.

(** The result list built from the engine's answer: one entry per
    sentence, the first [nbest_] scored nodes of the engine's answer for
    it, in the engine's order, each wrapped with the language tag. *)
Lemma collect_inr lg nbest_ (cres : list (list (NodeType * float))) i n res :
  collect lg nbest_ cres i n = inr res →
  length res = n ∧
  ∀ q, q < n →
    ∃ cres_q, cres !! (i + q) = Some cres_q ∧
      res !! q = Some ((λ '(node, score), (from_ptr node lg, score))
                         <$> take (Z.to_nat nbest_) cres_q).
Proof.
  revert i res. induction n as [|n IH]; intros i res; simpl.
  { intros [= <-]. split; [done|]. lia. }
  destruct (cres !! i) as [cres_i|] eqn:Hi; [|done].
  intros (rest & Hrest & [= <-])%res_bind_inr.
  destruct (IH _ _ Hrest) as [Hlen Hq]. split; [simpl; lia|].
  intros [|q] Hlt.
  - exists cres_i. by rewrite Nat.add_0_r.
  - destruct (Hq q) as (cres_q & Hc & Hr); [lia|].
    exists cres_q. split; [|done]. by rewrite <- Nat.add_succ_comm.
Qed.

(** The shape loop reads the store and never writes it. *)
Lemma check_shapes_store sents tag_size i probs s out s' :
  check_shapes sents tag_size i probs s = (out, s') → s' = s.
Proof.
  revert i s out. induction probs as [|[pc pd] probs IH]; intros i s out; simpl.
  { by intros [= <- <-]. }
  unfold mbind at 1, Py_bind at 1, lift at 1.
  destruct (sents !! i) as [sent|]; [|by intros [= <- <-]].
  unfold mbind at 1, Py_bind at 1, load at 1.
  destruct (s !! pc) as [cat|]; [|by intros [= <- <-]].
  unfold mbind at 1, Py_bind at 1, load at 1.
  destruct (s !! pd) as [dep|]; [|by intros [= <- <-]].
  destruct (shapes_match _ _ _ _); simpl; [|by intros [= <- <-]].
  unfold mbind at 1, Py_bind at 1, lift at 1.
  destruct (acquire_buffer cat) as [|cat_scores]; [by intros [= <- <-]|].
  unfold mbind at 1, Py_bind at 1, lift at 1.
  destruct (acquire_buffer dep) as [|dep_scores]; [by intros [= <- <-]|].
  unfold mbind at 1, Py_bind at 1, lift at 1.
  destruct (address_of_first cat_scores) as [|t]; [by intros [= <- <-]|].
  unfold mbind at 1, Py_bind at 1, lift at 1.
  destruct (address_of_first dep_scores) as [|d]; [by intros [= <- <-]|].
  intros [(e & Hrest & ->) | (rest & s1 & Hrest & [= <- <-])]%Py_bind_inv;
    by eapply IH.
Qed.








End parse_doc_properties.

(** ** The constraint phase keeps every shape *)

Lemma same_shapes_refl s : same_shapes s s.
Proof. intros l. by destruct (s !! l). Qed.

Lemma same_shapes_trans s1 s2 s3 :
  same_shapes s1 s2 → same_shapes s2 s3 → same_shapes s1 s3.
Proof.
  intros H12 H23 l. specialize (H12 l). specialize (H23 l).
  destruct (s1 !! l), (s2 !! l), (s3 !! l); try done.
  destruct H12, H23. split; congruence.
Qed.

Lemma frame_same_shapes l P s s' : frame l P s s' → same_shapes s s'.
Proof.
  intros (Hother & Hnone & Hsome) l'. destruct (decide (l' = l)) as [->|Hne].
  - destruct (s !! l) as [a|] eqn:Ha.
    + destruct (Hsome a eq_refl) as (a' & -> & ? & ? & _). done.
    + by rewrite Hnone.
  - rewrite Hother by done. by destruct (s !! l').
Qed.



Section constraint_phase.
Context `{Engine}.

Lemma build_terminal_constraints_inr constraints tp tl s out s' :
  build_terminal_constraints constraints tp tl s = (out, s') →
  same_shapes s s' ∧ ∀ r, out = inr r → r = tp.
Proof.
  unfold build_terminal_constraints.
  intros [(e & Hloop & ->) | ([] & s1 & Hloop & [= <- <-])]%Py_bind_inv.
  - split; [|done]. eapply frame_same_shapes. by eapply for_each_constraints_frame.
  - split; [|by intros r [= <-]].
    eapply frame_same_shapes. by eapply for_each_constraints_frame.
Qed.

Lemma load_constraints_spec zipped ur tl s out s' :
  load_constraints zipped ur tl s = (out, s') →
  same_shapes s s' ∧
  ∀ cs new_probs, out = inr (cs, new_probs) →
    new_probs = zipped.*2 ∧ length cs = length zipped.
Proof.
  revert s out. induction zipped as [|[constraint [pc pd]] zipped IH]; intros s out; simpl.
  { intros [= <- <-]. split; [apply same_shapes_refl|]. by intros cs np [= <- <-]. }
  unfold mbind at 1, Py_bind at 1, lift at 1.
  destruct (build_nonterminal_constraints _ _) as [e|c].
  { intros [= <- <-]. split; [apply same_shapes_refl|done]. }
  intros [(e & Hterm & ->) | (r & s1 & Hterm & Hrest)]%Py_bind_inv.
  { apply build_terminal_constraints_inr in Hterm as [Hss _]. done. }
  apply build_terminal_constraints_inr in Hterm as [Hss Hr].
  rewrite (Hr r eq_refl) in Hrest. clear Hr.
  apply Py_bind_inv in Hrest as [(e & Hrest & ->) | ([cs np] & s2 & Hrest & [= <- <-])].
  - destruct (IH _ _ Hrest) as [Hss' _]. split; [by eapply same_shapes_trans|done].
  - destruct (IH _ _ Hrest) as [Hss' Hok]. split; [by eapply same_shapes_trans|].
    intros cs' np' [= <- <-]. destruct (Hok cs np eq_refl) as [-> Hlen].
    split; [done|simpl; lia].
Qed.

Lemma prepare_constraints_spec cfg doc_size constraints probs s out s' :
  prepare_constraints cfg doc_size constraints probs s = (out, s') →
  same_shapes s s' ∧
  ∀ c_constraints probs', out = inr (c_constraints, probs') →
    ∀ i, i < doc_size → probs' !! i = probs !! i.
Proof.
  unfold prepare_constraints. destruct constraints as [constraints|].
  2:{ intros [= <- <-]. split; [apply same_shapes_refl|]. by intros ? ? [= <- <-]. }
  case_bool_decide as Hlen; simpl.
  2:{ intros [= <- <-]. split; [apply same_shapes_refl|done]. }
  intros [(e & Hload & ->) | ([cs np] & s1 & Hload & [= <- <-])]%Py_bind_inv.
  - apply load_constraints_spec in Hload as [Hss _]. done.
  - apply load_constraints_spec in Hload as [Hss Hok]. split; [done|].
    intros ? ? [= <- <-] i Hi. destruct (Hok cs np eq_refl) as [-> _].
    rewrite list_lookup_fmap. rewrite lookup_zip_with.
    destruct (constraints !! i) as [c|] eqn:Hc; simpl.
    + by destruct (probs !! i).
    + apply lookup_ge_None in Hc. lia.
Qed.

End constraint_phase.

(** ** Only the shape loop raises the shape-mismatch error *)

Lemma normalize_index_error i n e : normalize_index i n = inl e → e = IndexError.
Proof. unfold normalize_index. repeat case_bool_decide; congruence. Qed.

Lemma ndarray_set_row_error a i v e : ndarray_set_row a i v = inl e → e = IndexError.
Proof.
  unfold ndarray_set_row. destruct (shape a) as [|n0 [|n1 rest]]; try congruence.
  intros [Hn | (k & _ & [=])]%res_bind_inl. by eapply normalize_index_error.
Qed.

Lemma ndarray_set_item_error a i j v e : ndarray_set_item a i j v = inl e → e = IndexError.
Proof.
  unfold ndarray_set_item. destruct (shape a) as [|n0 [|n1 rest]]; try congruence.
  intros [Hn | (k & _ & [Hn | (c & _ & [=])]%res_bind_inl)]%res_bind_inl;
    by eapply normalize_index_error.
Qed.


Section shape_error_origin.
Context `{Engine}.









(** The result the caller gets for sentence [q] is the engine's answer
    for it cut after [nbest] entries, order kept; so it has at most
    [nbest] entries and every tree carries the language tag of [self]. *)
Lemma parse_doc_result self sents probs tag_list_arg constraints s res s' :
  _parse_doc_tag_and_dep self sents probs tag_list_arg constraints s = (inr res, s') →
  ∃ cfg req,
    convert_config self tag_list_arg = inr cfg ∧
    seen_rules_ req = cfg_seen_rules cfg ∧ nbest_ req = cfg_nbest cfg ∧
    length res = length sents ∧
    ∀ q, q < length sents →
      ∃ cres_q, ParseSentences req !! q = Some cres_q ∧
        res !! q = Some ((λ '(node, score), (from_ptr node (lang self), score))
                           <$> take (Z.to_nat (cfg_nbest cfg)) cres_q).
Proof.
  intros (cfg & cc & probs' & s1 & checked & Hcfg & _ & _ & _ & Hcol)%parse_doc_inr.
  apply collect_inr in Hcol as [Hlen Hq].
  exists cfg, (request cfg (length sents) checked cc). by repeat split.
Qed.

End shape_error_origin.


(** The error for a mismatch can be pre-empted: with the matrices of
    "John" stored as [float64], the same batch raises [ValueError] at
    sentence 0, before the shapes of sentence 1 are looked at. *)
Example shape_mismatch_preempted :
  (_parse_doc_tag_and_dep (example_parser English)
     example_sents example_probs_bad None None example_float64_store).1
  = inl ValueError.
Proof. reflexivity. Qed.


(** ** The constructors: what the claims about them say *)

Section constructor_claims.
Context `{Engine}.

Lemma JapaneseCCGParser_init_returns a self self' :
  JapaneseCCGParser_init a self = (inr tt, self') →
  ∃ cats, parse_root_cats (default ja_possible_root_cats (a_possible_root_cats a)) = inr cats.
Proof.
  destruct (parse_root_cats _) as [e|cats] eqn:Hparse; [|eauto].
  unfold JapaneseCCGParser_init.
  destruct (a_binary_rules a);
    unfold mbind, Py_bind, lift, assign, mret, Py_ret; simpl; by rewrite Hparse.
Qed.

Lemma EnglishCCGParser_init_returns a self self' :
  EnglishCCGParser_init a self = (inr tt, self') →
  ∃ cats, parse_root_cats (default en_possible_root_cats (a_possible_root_cats a)) = inr cats.
Proof.
  destruct (parse_root_cats _) as [e|cats] eqn:Hparse; [|eauto].
  unfold EnglishCCGParser_init.
  unfold mbind, Py_bind, lift, assign, mret, Py_ret; simpl; by rewrite Hparse.
Qed.

(** C3.  After a call of [JapaneseCCGParser.__init__] that returns, the
    attribute [binary_rules] is the argument as passed -- [None] when
    [None] was passed, the default rules assigned first being
    overwritten -- and [possible_root_cats] is the raw argument, or the
    default list of strings, not the list of parsed categories. *)
Theorem JapaneseCCGParser_init_overwrites a self self' :
  JapaneseCCGParser_init a self = (inr tt, self') →
  (a_binary_rules a = None → binary_rules self' = None) ∧
  binary_rules self' = a_binary_rules a ∧
  possible_root_cats self' = Some (default ja_possible_root_cats (a_possible_root_cats a)).
Proof.
  intros Hinit. destruct (JapaneseCCGParser_init_returns _ _ _ Hinit) as [cats Hparse].
  destruct (JapaneseCCGParser_init_state a self cats Hparse)
    as (out & self0 & Hrun & Hbr & Hroots & _).
  rewrite Hinit in Hrun. injection Hrun as <- <-. by rewrite Hbr.
Qed.

(** C6.  A [JapaneseCCGParser] whose [__init__] returned has the
    language tag [b'en'], the one [EnglishCCGParser.__init__] assigns,
    and its trees are built with that tag: when its
    [_parse_doc_tag_and_dep] returns, the result has for every sentence
    the first [nbest] scored nodes of the engine's answer, each node
    wrapped as [Tree.from_ptr(node, b'en')]; so every tree returned
    carries the tag [b'en']. *)
Theorem JapaneseCCGParser_language_tag a self self' :
  JapaneseCCGParser_init a self = (inr tt, self') →
  lang self' = Some "en" ∧
  (∀ a0 self0 self0', EnglishCCGParser_init a0 self0 = (inr tt, self0') →
     lang self0' = lang self') ∧
  ∀ sents probs tag_list_arg constraints s res s',
    _parse_doc_tag_and_dep self' sents probs tag_list_arg constraints s = (inr res, s') →
    (∃ req,
       engine_request self' sents probs tag_list_arg constraints s = (inr req, s') ∧
       length res = length sents ∧
       ∀ q, q < length sents →
         ∃ cres_q, ParseSentences req !! q = Some cres_q ∧
           res !! q = Some ((λ '(node, score), (from_ptr node (Some "en"), score))
                              <$> take (Z.to_nat (nbest_ req)) cres_q)) ∧
    ∀ tmp t score, tmp ∈ res → (t, score) ∈ tmp → tree_lang t = Some "en".
Proof.
  intros Hinit. destruct (JapaneseCCGParser_init_returns _ _ _ Hinit) as [cats Hparse].
  destruct (JapaneseCCGParser_init_state a self cats Hparse)
    as (out & self1 & Hrun & _ & _ & Hlang & _).
  rewrite Hinit in Hrun. injection Hrun as <- <-.
  destruct (Hlang eq_refl) as [Hl _]. split; [done|]. split.
  - intros a0 self0 self0' Hen.
    destruct (EnglishCCGParser_init_returns _ _ _ Hen) as [cats0 Hparse0].
    destruct (EnglishCCGParser_init_state a0 self0 cats0 Hparse0)
      as (out0 & self2 & Hrun0 & _ & _ & _ & _ & _ & _ & Hlang0 & _).
    rewrite Hen in Hrun0. injection Hrun0 as <- <-.
    destruct (Hlang0 eq_refl) as [-> _]. done.
  - intros sents probs tl cs s res s' Hparse_doc.
    assert (∃ req,
       engine_request self' sents probs tl cs s = (inr req, s') ∧
       length res = length sents ∧
       ∀ q, q < length sents →
         ∃ cres_q, ParseSentences req !! q = Some cres_q ∧
           res !! q = Some ((λ '(node, score), (from_ptr node (Some "en"), score))
                              <$> take (Z.to_nat (nbest_ req)) cres_q)) as Hres.
    { rewrite parse_doc_of_request in Hparse_doc.
      apply Py_bind_inv in Hparse_doc as [(e & _ & [=]) | (req & s1 & Hreq & Hcol)].
      unfold lift in Hcol. injection Hcol as Hcol <-.
      apply collect_inr in Hcol as [Hlen Hq]. rewrite Hl in Hq.
      exists req. by repeat split. }
    split; [done|].
    destruct Hres as (req & _ & Hlen & Hres).
    intros tmp t score Htmp Ht.
    apply list_elem_of_lookup in Htmp as [q Hq].
    destruct (Hres q) as (cres_q & _ & Hrq); [rewrite <- Hlen; by eapply lookup_lt_Some|].
    rewrite Hq in Hrq. injection Hrq as ->.
    by apply list_elem_of_fmap in Ht as ([node sc] & [= -> ->] & _).
Qed.

(** X3.  The extension types declare no attribute [max_steps] and their
    instances have no [__dict__]: a call of either class raises, with
    [AttributeError] once the root categories have parsed. *)
Lemma construct_extension_type l a :
  ∃ e, construct (extension_type l) a = inl e ∧
    ((∃ cats, parse_root_cats
                (default (match l with
                          | English => en_possible_root_cats
                          | Japanese => ja_possible_root_cats
                          end) (a_possible_root_cats a)) = inr cats) →
     e = AttributeError "max_steps").
Proof.
  unfold construct, extension_type. simpl.
  destruct l; simpl.
  - destruct (parse_root_cats (default en_possible_root_cats _)) as [e|cats] eqn:Hparse.
    + exists e. split; [|by intros [? [=]]].
      unfold EnglishCCGParser_init, mbind, Py_bind, lift, assign, mret, Py_ret; simpl.
      by rewrite Hparse.
    + destruct (EnglishCCGParser_init_state a (new_parser (mk_parser_class English false))
                  cats Hparse) as (out & self' & -> & _ & _ & _ & _ & _ & _ & _ & ->).
      simpl. eauto.
  - destruct (parse_root_cats (default ja_possible_root_cats _)) as [e|cats] eqn:Hparse.
    + exists e. split; [|by intros [? [=]]].
      unfold JapaneseCCGParser_init.
      destruct (a_binary_rules a);
        unfold mbind, Py_bind, lift, assign, mret, Py_ret; simpl; by rewrite Hparse.
    + destruct (JapaneseCCGParser_init_state a (new_parser (mk_parser_class Japanese false))
                  cats Hparse) as (out & self' & -> & _ & _ & _ & ->).
      simpl. eauto.
Qed.

End constructor_claims.

(** Witness of [JapaneseCCGParser_init_overwrites]: a Python-level
    subclass of [JapaneseCCGParser] called with the four positional
    arguments only. *)
Lemma JapaneseCCGParser_init_overwrites_witness :
  (a_binary_rules example_args = None → binary_rules (example_parser Japanese) = None) ∧
  binary_rules (example_parser Japanese) = a_binary_rules example_args ∧
  possible_root_cats (example_parser Japanese) =
    Some (default ja_possible_root_cats (a_possible_root_cats example_args)).
Proof.
  apply (@JapaneseCCGParser_init_overwrites string_categories first_row_engine
           example_args (new_parser (python_subclass Japanese)) (example_parser Japanese)).
  reflexivity.
Defined.

(** Witness of [JapaneseCCGParser_language_tag]: a Python-level subclass
    of [JapaneseCCGParser], and the tree it builds for "John". *)
Lemma JapaneseCCGParser_language_tag_witness :
  (_parse_doc_tag_and_dep example_ja_parser
     ["John"] [(1%positive, 2%positive)] None None example_batch_store).1
  = inr [[(@from_ptr string_categories first_row_engine "N" (Some "en"), (-1)%float)]] ∧
  lang example_ja_parser = Some "en" ∧
  (∀ (a0 : @init_args string_categories first_row_engine) self0 self0',
     EnglishCCGParser_init a0 self0 = (inr tt, self0') →
     lang self0' = lang example_ja_parser) ∧
  ∀ sents probs tag_list_arg constraints s res s',
    _parse_doc_tag_and_dep example_ja_parser sents probs tag_list_arg constraints s
      = (inr res, s') →
    (∃ req,
       engine_request example_ja_parser sents probs tag_list_arg constraints s
         = (inr req, s') ∧
       length res = length sents ∧
       ∀ q, q < length sents →
         ∃ cres_q, ParseSentences req !! q = Some cres_q ∧
           res !! q = Some ((λ '(node, score), (from_ptr node (Some "en"), score))
                              <$> take (Z.to_nat (nbest_ req)) cres_q)) ∧
    ∀ tmp t score, tmp ∈ res → (t, score) ∈ tmp → tree_lang t = Some "en".
Proof.
  split; [reflexivity|].
  apply (@JapaneseCCGParser_language_tag string_categories first_row_engine
           example_args_roots (new_parser (python_subclass Japanese)) example_ja_parser).
  reflexivity.
Defined.

(** A Japanese parser at work: the tree it returns for "John" carries
    the tag [b'en']. *)
Example JapaneseCCGParser_parses_with_english_tag :
  (_parse_doc_tag_and_dep example_ja_parser
     ["John"] [(1%positive, 2%positive)] None None example_batch_store).1
  = inr [[(@from_ptr string_categories first_row_engine "N" (Some "en"), (-1)%float)]].
Proof. reflexivity. Qed.

(** C9, the code at the failing input: [EnglishCCGParser(category_dict,
    tag_list, unary_rules, seen_rules)] raises [AttributeError] at
    [self.max_steps = max_steps]; no parser is constructed. *)
Lemma EnglishCCGParser_default_construction_raises :
  @construct string_categories first_row_engine (extension_type English) example_args
  = inl (AttributeError "max_steps").
Proof. reflexivity. Qed.

Section defaults.
Context `{Engine}.

(** X2.  The defaults of the signature reach the object wherever the
    object can hold them: on an instance of a Python-level subclass, which has
    a [__dict__] for [max_steps]. *)
#[warnings="-inexact-float"]
Theorem EnglishCCGParser_subclass_defaults category_dict tag_list unary_rules seen_rules p :
  construct (python_subclass English)
    (bind_args category_dict tag_list unary_rules seen_rules no_kwargs) = inr p →
  beta p = Some beta_default ∧ beta_default = 1e-5%float ∧
  pruning_size p = Some 50%Z ∧ nbest p = Some 1%Z ∧ max_length p = Some 250%Z ∧
  getattr p "max_steps" = inr 100000%Z.
Proof.
  unfold construct. simpl.
  destruct (EnglishCCGParser_init _ _) as [[e|[]] self'] eqn:Hinit; [done|].
  intros [= <-].
  destruct (EnglishCCGParser_init_returns _ _ _ Hinit) as [cats Hparse].
  destruct (EnglishCCGParser_init_state _ (new_parser (python_subclass English)) cats Hparse)
    as (out & self0 & Hrun & _ & _ & Hb & Hps & Hnb & Hml & Hok & _).
  rewrite Hinit in Hrun. injection Hrun as <- <-.
  destruct (Hok eq_refl) as (_ & _ & Hms). by repeat split.
Qed.

End defaults.

#[warnings="-inexact-float"]
Lemma EnglishCCGParser_subclass_defaults_witness :
  beta (example_parser English) = Some beta_default ∧ beta_default = 1e-5%float ∧
  pruning_size (example_parser English) = Some 50%Z ∧
  nbest (example_parser English) = Some 1%Z ∧
  max_length (example_parser English) = Some 250%Z ∧
  getattr (example_parser English) "max_steps" = inr 100000%Z.
Proof.
  apply (@EnglishCCGParser_subclass_defaults string_categories first_row_engine
           ∅ example_tag_list [] [] (example_parser English)).
  reflexivity.
Defined.

(** ** [from_json] *)

Section from_json_properties.
Context `{Engine}.

(** The second build is the first one with the features stripped: both
    walk the same list, unpack and parse in the same order, and raise at
    the same item. *)
Lemma parse_seen_rules_pairs rules :
  parse_seen_rules rules =
  pairs ← parse_pairs rules;
  mret ((λ '(c1, c2), (preprocess c1, preprocess c2)) <$> pairs).
Proof.
  unfold parse_seen_rules, parse_pairs.
  induction rules as [|item rules IH]; [done|]. simpl. rewrite IH. clear IH.
  destruct (unpack2 item) as [e|[s1 s2]]; [done|]. simpl.
  destruct (Category_parse s1) as [e|c1]; [done|]. simpl.
  destruct (Category_parse s2) as [e|c2]; [done|]. simpl.
  destruct (map_res _ rules) as [e|ys]; reflexivity.
Qed.

(** C5.  The seen rules [from_json] passes to the constructor are the
    pairs of the JSON entry ['seen_rules'], in order, each string parsed
    and then stripped of the feature [[X]] and of the feature [[nb]]; the
    first, unstripped build changes nothing: the loader without it
    returns the same parser, or raises the same exception, on every
    input. *)
Theorem from_json_seen_rules cls json tagger_model_dir kw :
  from_json cls json tagger_model_dir kw
    = from_json_single_build cls json tagger_model_dir kw ∧
  from_json cls json tagger_model_dir kw
    = (a ← from_json_args json kw;
       parser ← construct cls a;
       maybe_load_tagger tagger_model_dir parser) ∧
  ∀ a, from_json_args json kw = inr a →
    Forall2 (λ item rule,
      ∃ s1 s2 c1 c2,
        item = [s1; s2] ∧ Category_parse s1 = inr c1 ∧ Category_parse s2 = inr c2 ∧
        rule = (strip_feat (strip_feat c1 "[X]") "[nb]",
                strip_feat (strip_feat c2 "[X]") "[nb]"))
      (json_seen_rules json) (a_seen_rules a).
Proof.
  unfold from_json, from_json_single_build, from_json_args.
  destruct (parse_pairs (json_unary_rules json)) as [e|ur]; simpl.
  { repeat split; done. }
  destruct (parse_cat_dict (json_cat_dict json) ∅) as [e|cd]; simpl.
  { repeat split; done. }
  destruct (map_res Category_parse (json_targets json)) as [e|tl]; simpl.
  { repeat split; done. }
  rewrite parse_seen_rules_pairs.
  destruct (parse_pairs (json_seen_rules json)) as [e|pairs] eqn:Hpairs; simpl.
  { repeat split; done. }
  repeat split. intros a [= <-]. simpl.
  clear -Hpairs. revert pairs Hpairs.
  induction (json_seen_rules json) as [|item rules IH]; intros pairs; simpl.
  { intros [= <-]. constructor. }
  intros ([c1 c2] & Hitem & (ys & Hys & [= <-])%res_bind_inr)%res_bind_inr.
  rewrite fmap_cons. constructor; [|by apply IH].
  apply res_bind_inr in Hitem as ([s1 s2] & Hun & Hitem).
  apply res_bind_inr in Hitem as (c1' & Hc1 & Hitem).
  apply res_bind_inr in Hitem as (c2' & Hc2 & [= <- <-]).
  unfold unpack2 in Hun. destruct item as [|t1 [|t2 [|]]]; try done.
  injection Hun as <- <-. by exists t1, t2, c1', c2'.
Qed.

End from_json_properties.

(** Witness of [from_json_seen_rules]: from the JSON entry
    [[["NP[nb]", "N"]]] the constructor receives the one rule [(NP, N)],
    the feature [[nb]] stripped. *)
Lemma from_json_seen_rules_witness :
  ∃ a, @from_json_args string_categories first_row_engine example_json no_kwargs = inr a ∧
    a_seen_rules a = [("NP", "N")] ∧
    Forall2 (λ item rule,
      ∃ s1 s2 c1 c2,
        item = [s1; s2] ∧
        @Category_parse string_categories s1 = inr c1 ∧
        @Category_parse string_categories s2 = inr c2 ∧
        rule = (@strip_feat string_categories (@strip_feat string_categories c1 "[X]") "[nb]",
                @strip_feat string_categories (@strip_feat string_categories c2 "[X]") "[nb]"))
      [["NP[nb]"; "N"]] (a_seen_rules a).
Proof.
  eexists. split; [reflexivity|]. split; [reflexivity|].
  apply (@from_json_seen_rules string_categories first_row_engine
           (python_subclass English) example_json None no_kwargs).
  reflexivity.
Defined.

(** ** The engine of the specification: the seen-rules filter *)

Lemma elem_of_keep {A} (test : A → bool) (l : list A) x :
  x ∈ keep test l ↔ x ∈ l ∧ test x = true.
Proof.
  unfold keep. rewrite list_elem_of_omap. split.
  - intros (y & Hy & Hf). destruct (test y) eqn:Ht; [|done]. by injection Hf as <-.
  - intros [Hx Ht]. exists x. by rewrite Ht.
Qed.

Lemma dedup_by_parent_subset l x : x ∈ dedup_by_parent l → x ∈ l.
Proof.
  revert x. induction l as [|y l IH]; intros x; simpl; [done|].
  rewrite elem_of_cons, elem_of_keep. intros [->|[Hx _]]; [left|right; auto].
Qed.

(** Section 4.3: with the filter on, [apply_binary] answers with nothing
    or with what it answers when the filter is off. *)
Lemma apply_binary_seen_subset rules seen l r x :
  x ∈ apply_binary rules true seen l r → x ∈ apply_binary rules false seen l r.
Proof.
  unfold apply_binary. simpl. by destruct (negb _); [intros ?%elem_of_nil|].
Qed.

(** The filter enters a derivation through [apply_binary] only: a
    derivation of the grammar with the filter on is one of the grammar
    with the filter off. *)
Lemma derivation_with_seen_rules ln g snt t :
  derivation ln (with_seen_rules true g) snt t →
  derivation ln (with_seen_rules false g) snt t.
Proof.
  induction 1 as [i w c lp Hw Hc|l r x _ IHl _ IHr Hadj Hin Hv|t c _ IH Hu Hc Hroot Hv].
  - by apply derivation_leaf.
  - apply derivation_binary; [done..| |done]. by apply apply_binary_seen_subset.
  - by apply derivation_unary.
Qed.

Lemma admissible_with_seen_rules ln g snt t score :
  admissible ln (with_seen_rules true g) snt t score →
  admissible ln (with_seen_rules false g) snt t score.
Proof.
  intros (Hlen & Hd & Hw & Hr & Hs). split; [done|].
  split; [by apply derivation_with_seen_rules|done].
Qed.

Section search_soundness.
Variable ln : float → float.
Variable g : grammar.
Variable snt : sentence.

Lemma pop_best_elem ag it rest :
  pop_best ag = Some (it, rest) → it ∈ ag ∧ ∀ x, x ∈ rest → x ∈ ag.
Proof.
  revert it rest. induction ag as [|x ag IH]; intros it rest; simpl; [done|].
  destruct (pop_best ag) as [[y rest']|] eqn:Hpop.
  - destruct (IH y rest' eq_refl) as [Hy Hrest].
    destruct (better y x); intros [= <- <-].
    + split; [by right|]. intros z [->|Hz]%elem_of_cons; [left|right; auto].
    + split; [left|]. intros z Hz. by right.
  - intros [= <- <-]. split; [left|]. by intros z ?%elem_of_nil.
Qed.

Lemma unary_parents_candidates t :
  derivation ln g snt t → Forall (candidate ln g snt) (unary_parents g snt t).
Proof.
  intros Ht. unfold unary_parents. destruct (is_unary t) eqn:Hu; [constructor|].
  apply Forall_fmap, Forall_forall. intros c [Hc Htest]%elem_of_keep Hv. simpl in *.
  apply derivation_unary; try done.
  intros Hw. rewrite Hw in Htest. simpl in Htest. by apply bool_decide_eq_true in Htest.
Qed.

Lemma binary_parents_candidates l r :
  derivation ln g snt l → derivation ln g snt r →
  tree_start l + tree_length l = tree_start r →
  Forall (candidate ln g snt) (binary_parents g snt l r).
Proof.
  intros Hl Hr Hadj. unfold binary_parents.
  apply Forall_fmap, Forall_forall. intros x Hin Hv. simpl in *.
  by apply derivation_binary.
Qed.

Lemma expand_candidates t fin :
  derivation ln g snt t → Forall (derivation ln g snt) fin →
  Forall (candidate ln g snt) (expand g snt t fin).
Proof.
  intros Ht Hfin. unfold expand. rewrite !Forall_app. split; [|split].
  - by apply unary_parents_candidates.
  - apply Forall_forall. intros x (u & Hx & [Hu Hadj]%elem_of_keep)%list_elem_of_bind.
    rewrite Forall_forall in Hfin. apply Nat.eqb_eq in Hadj.
    pose proof (binary_parents_candidates u t (Hfin u Hu) Ht Hadj) as Hall.
    rewrite Forall_forall in Hall. auto.
  - apply Forall_forall. intros x (u & Hx & [Hu Hadj]%elem_of_keep)%list_elem_of_bind.
    rewrite Forall_forall in Hfin. apply Nat.eqb_eq in Hadj.
    pose proof (binary_parents_candidates t u Ht (Hfin u Hu) Hadj) as Hall.
    rewrite Forall_forall in Hall. auto.
Qed.

Lemma push_admissible t st :
  derivation ln g snt t → state_admissible ln g snt st →
  state_admissible ln g snt (push g snt t st).
Proof.
  intros Ht (Ha & Hf & Ho). unfold push, state_admissible. simpl.
  split; [by constructor|done].
Qed.

Lemma offer_admissible st t :
  candidate ln g snt t → state_admissible ln g snt st →
  state_admissible ln g snt (offer g snt st t).
Proof.
  intros Ht Hst. unfold offer. destruct (violates g snt t) eqn:Hv; simpl; [done|].
  destruct (cell_full _ _ _); [done|].
  by apply (push_admissible t st (Ht Hv)) in Hst.
Qed.

Lemma foldl_offer_admissible ts st :
  Forall (candidate ln g snt) ts → state_admissible ln g snt st →
  state_admissible ln g snt (foldl (offer g snt) st ts).
Proof.
  revert st. induction ts as [|t ts IH]; intros st Hts Hst; simpl; [done|].
  apply Forall_cons in Hts as [Ht Hts]. apply IH; [done|]. by apply offer_admissible.
Qed.

Lemma initial_state_admissible : state_admissible ln g snt (initial_state ln g snt).
Proof.
  unfold initial_state.
  assert (∀ ts st, Forall (derivation ln g snt) ts → state_admissible ln g snt st →
            state_admissible ln g snt (foldl (λ st t, push g snt t st) st ts)) as Hfold.
  { induction ts as [|t ts IH]; intros st Hts Hst; simpl; [done|].
    apply Forall_cons in Hts as [Ht Hts]. apply IH; [done|]. by apply push_admissible. }
  apply Hfold.
  - apply Forall_forall. intros t (l & Ht & Hl)%list_elem_of_bind. simpl in Ht.
    apply elem_of_lookup_imap in Hl as (i & w & -> & Hw).
    apply list_elem_of_fmap in Ht as ([c lp] & -> & Hc). by apply derivation_leaf.
  - by repeat split.
Qed.

Lemma search_admissible fuel st :
  state_admissible ln g snt st →
  Forall (λ p, complete_parse ln g snt p.1 p.2) (search g snt fuel st).
Proof.
  revert st. induction fuel as [|fuel IH]; intros st Hst; simpl.
  { by destruct Hst as (_ & _ & Ho). }
  destruct (pop_best (agenda st)) as [[it rest]|] eqn:Hpop.
  2:{ by destruct Hst as (_ & _ & Ho). }
  destruct Hst as (Ha & Hf & Ho).
  apply pop_best_elem in Hpop as [Hit Hrest].
  assert (derivation ln g snt (it_tree it)) as Ht.
  { rewrite Forall_fmap, Forall_forall in Ha. by apply Ha. }
  assert (Forall (derivation ln g snt) (it_tree <$> rest)) as Hrest'.
  { rewrite Forall_fmap, Forall_forall in Ha. rewrite Forall_fmap, Forall_forall. auto. }
  case_bool_decide.
  { apply IH. by repeat split. }
  set (output' := if _ && _ then _ else output st).
  assert (Forall (λ p, complete_parse ln g snt p.1 p.2) output') as Ho'.
  { unfold output'. destruct (whole snt (it_tree it)) eqn:Hw; simpl; [|done].
    case_bool_decide as Hroot; [|done].
    rewrite Forall_app. split; [done|]. by repeat constructor. }
  destruct (_ <=? _); [done|].
  apply IH. apply foldl_offer_admissible.
  - apply expand_candidates; [done|]. by constructor.
  - repeat split; simpl; [done| |done]. by constructor.
Qed.

(** Every parse the search returns is an admissible parse of the
    grammar it ran with, reported with its inside score. *)
Lemma parse_sentence_admissible t score :
  (t, score) ∈ parse_sentence ln g snt → admissible ln g snt t score.
Proof.
  intros Hin. unfold parse_sentence in Hin.
  destruct (_ <? _) eqn:Hlong; [by apply elem_of_nil in Hin|].
  apply Nat.ltb_ge in Hlong. split; [done|].
  pose proof (search_admissible (g_max_steps g) _ initial_state_admissible) as Hall.
  rewrite Forall_forall in Hall. by apply (Hall (t, score)).
Qed.

End search_soundness.

(** C8 (amended).  For every sentence, matrices and configuration: every
    parse the search returns with the seen-rules filter enabled is an
    admissible parse of the grammar with the filter disabled, all else
    equal: the sentence is not longer than [max_length], and the parse
    is a derivation over the pruner's candidates that the rule tables
    and the constraint set admit without the filter, spanning the
    sentence, carrying a root category, and reported with its inside
    score.  The filter removes admissible parses and adds none; the list
    returned with the filter on need not be part of the list returned
    with the filter off. *)
Theorem seen_rules_only_remove ln g snt t score :
  (t, score) ∈ parse_sentence ln (with_seen_rules true g) snt →
  admissible ln (with_seen_rules false g) snt t score.
Proof.
  intros Hin. by apply admissible_with_seen_rules, parse_sentence_admissible.
Qed.

(** C8, counterexample to the claim as stated: on "John runs" the parser
    with the filter on returns the parse with [N], the parser with the
    filter off returns the parse with [NP], and the first is not among
    the parses of the second. *)
Lemma seen_rules_change_the_parse :
  seen_run true
    = inr [[(@from_ptr ccg_categories (spec_engine unused_ln)
               (parse_with (Atom "N" None) (-2)%float (-4)%float) (Some "en"),
             (-4)%float)]] ∧
  seen_run false
    = inr [[(@from_ptr ccg_categories (spec_engine unused_ln)
               (parse_with (Atom "NP" None) (-1)%float (-2)%float) (Some "en"),
             (-2)%float)]] ∧
  parse_with (Atom "N" None) (-2)%float (-4)%float
    ≠ parse_with (Atom "NP" None) (-1)%float (-2)%float.
Proof. split; [reflexivity|]. split; [reflexivity|]. discriminate. Qed.

(** Witness of [seen_rules_only_remove]: the parse the filter leaves is
    an admissible parse without the filter. *)
Lemma seen_rules_only_remove_witness :
  admissible unused_ln (with_seen_rules false seen_grammar) seen_sentence
    (parse_with (Atom "N" None) (-2)%float (-4)%float) (-4)%float.
Proof.
  apply (seen_rules_only_remove unused_ln seen_grammar seen_sentence _ (-4)%float).
  change ((parse_with (Atom "N" None) (-2)%float (-4)%float, (-4)%float)
          ∈ [(parse_with (Atom "N" None) (-2)%float (-4)%float, (-4)%float)]). left.
Defined.

(** The filter does remove: on the same sentence the parse with [NP] is
    admissible with the filter off and not with the filter on, its pair
    of categories not being among the seen rules. *)
Example seen_rules_remove_a_parse :
  admissible unused_ln (with_seen_rules false seen_grammar) seen_sentence
    (parse_with (Atom "NP" None) (-1)%float (-2)%float) (-2)%float ∧
  ¬ admissible unused_ln (with_seen_rules true seen_grammar) seen_sentence
      (parse_with (Atom "NP" None) (-1)%float (-2)%float) (-2)%float.
Proof.
  split.
  - apply parse_sentence_admissible.
    change ((parse_with (Atom "NP" None) (-1)%float (-2)%float, (-2)%float)
            ∈ [(parse_with (Atom "NP" None) (-1)%float (-2)%float, (-2)%float)]). left.
  - intros (_ & Hd & _). unfold parse_with in Hd.
    inversion Hd as [|l r [[p comb] h] Hl Hr Hadj Hin Hv Heq|].
    match type of Hin with
    | _ ∈ ?answers => assert (answers = []) as Hnone by reflexivity
    end.
    rewrite Hnone in Hin. by apply elem_of_nil in Hin.
Qed.

(** Asking for more parses does not make the list with the filter on a
    part of the list with the filter off: both parses have the signature
    (0, 2, S[dcl]), and the chart keeps the first one popped. *)
Example seen_rules_change_the_parse_nbest :
  parse_sentence unused_ln (with_nbest 10 (with_seen_rules true seen_grammar)) seen_sentence
    = [(parse_with (Atom "N" None) (-2)%float (-4)%float, (-4)%float)] ∧
  parse_sentence unused_ln (with_nbest 10 (with_seen_rules false seen_grammar)) seen_sentence
    = [(parse_with (Atom "NP" None) (-1)%float (-2)%float, (-2)%float)].
Proof. split; reflexivity. Qed.

(** The model on the scenarios of section 8: 1 (a one-token sentence), 2
    (backward application), 3 (the pair is not among the seen rules) and
    6 (a sentence longer than [max_length]). *)
Example scenario_1 :
  parse_sentence unused_ln (scenario_grammar false 250) scenario_hello
  = [(Leaf 0 "Hello" (Atom "NP" None) 0%float, 0%float)].
Proof. reflexivity. Qed.

Example scenario_2 :
  parse_sentence unused_ln (scenario_grammar false 250) scenario_john_runs
  = [(Binary (Leaf 0 "John" (Atom "NP" None) 0%float)
        (Leaf 1 "runs" (Functor (Atom "S" (Some "dcl")) false (Atom "NP" None)) 0%float)
        (Atom "S" (Some "dcl")) BackwardApplication false 0%float, 0%float)].
Proof. reflexivity. Qed.

Example scenario_3 :
  parse_sentence unused_ln (scenario_grammar true 250) scenario_john_runs = [].
Proof. reflexivity. Qed.

Example scenario_6 :
  parse_sentence unused_ln (scenario_grammar false 1) scenario_john_runs = [].
Proof. reflexivity. Qed.

(** ** More on the wrapper *)

Section wrapper_properties.
Context `{Engine}.

Lemma convert_config_inr self tag_list_arg cfg :
  convert_config self tag_list_arg = inr cfg →
  as_unsigned (nbest self) = inr (cfg_nbest cfg) ∧
  (if as_bool (use_seen_rules self) then convert_seen_rules (seen_rules self) else inr ∅)
    = inr (cfg_seen_rules cfg).
Proof.
  unfold convert_config.
  intros (tl & _ & Hrun)%res_bind_inr.
  apply res_bind_inr in Hrun as (cd & _ & Hrun).
  apply res_bind_inr in Hrun as (b & _ & Hrun).
  apply res_bind_inr in Hrun as (ps & _ & Hrun).
  apply res_bind_inr in Hrun as (nb & Hnb & Hrun).
  apply res_bind_inr in Hrun as (br & _ & Hrun).
  apply res_bind_inr in Hrun as (rc & _ & Hrun).
  apply res_bind_inr in Hrun as (ur & _ & Hrun).
  apply res_bind_inr in Hrun as (sr & Hsr & Hrun).
  apply res_bind_inr in Hrun as (ml & _ & Hrun).
  apply res_bind_inr in Hrun as (ms & _ & Hrun).
  apply res_bind_inr in Hrun as (ms' & _ & [= <-]).
  done.
Qed.

(** X1.  Every list of the result has at most [nbest] pairs, and the
    result has one list per sentence. *)
Theorem parse_doc_at_most_nbest self sents probs tag_list_arg constraints s res s' z :
  _parse_doc_tag_and_dep self sents probs tag_list_arg constraints s = (inr res, s') →
  nbest self = Some z →
  length res = length sents ∧ ∀ tmp, tmp ∈ res → (Z.of_nat (length tmp) ≤ z)%Z.
Proof.
  intros (cfg & req & Hcfg & _ & _ & Hlen & Hres)%parse_doc_result Hz.
  split; [done|]. intros tmp [q Hq]%list_elem_of_lookup.
  destruct (Hres q) as (cres_q & _ & Hrq); [rewrite <- Hlen; by eapply lookup_lt_Some|].
  rewrite Hq in Hrq. injection Hrq as ->.
  apply convert_config_inr in Hcfg as [Hnb _]. rewrite Hz in Hnb.
  unfold as_unsigned in Hnb. case_bool_decide; [|done]. injection Hnb as <-.
  rewrite length_fmap, length_take. lia.
Qed.

(** The flag [use_seen_rules] enters the configuration through the set
    of seen rules only. *)
Lemma convert_config_flag self b tag_list_arg cfg cfg' :
  convert_config self tag_list_arg = inr cfg →
  convert_config (set_use_seen_rules (Some b) self) tag_list_arg = inr cfg' →
  cfg' = mk_native_config (cfg_tag_list cfg) (cfg_category_dict cfg) (cfg_beta cfg)
           (cfg_use_beta cfg) (cfg_pruning_size cfg) (cfg_nbest cfg) (cfg_binary_rules cfg)
           (cfg_possible_root_cats cfg) (cfg_unary_rules cfg) (cfg_seen_rules cfg')
           (cfg_max_length cfg) (cfg_max_steps cfg).
Proof.
  destruct self as [br rc cd tl ur sr be ub ucd usr ps nb ml tg lg d].
  unfold convert_config, getattr. simpl.
  destruct (cat_list_to_vector _) as [|x1]; simpl; [done|].
  destruct (if as_bool ucd then _ else _) as [|x2]; simpl; [done|].
  destruct (as_float be) as [|x3]; simpl; [done|].
  destruct (as_unsigned ps) as [|x4]; simpl; [done|].
  destruct (as_unsigned nb) as [|x5]; simpl; [done|].
  destruct (combinator_list_to_vector br) as [|x6]; simpl; [done|].
  destruct (cat_list_to_unordered_set rc) as [|x7]; simpl; [done|].
  destruct (convert_unary_rules ur) as [|x8]; simpl; [done|].
  destruct (if as_bool usr then _ else _) as [|x9]; simpl; [done|].
  destruct (if b then _ else _) as [|x9']; simpl; [by destruct (as_unsigned ml)|].
  destruct (as_unsigned ml) as [|x10]; simpl; [done|].
  destruct d as [d|]; simpl; [|done].
  destruct (d !! "max_steps") as [ms|]; simpl; [|done].
  case_bool_decide; simpl; [|done].
  by intros [= <-] [= <-].
Qed.

(** X4.  The flag [use_seen_rules] selects the set of seen rules the
    engine is called with: the rules of the attribute [seen_rules] when
    the flag is on, the empty set when it is off (or was never
    assigned).  Nothing else depends on the flag: a call with the flag
    set either way that reaches the engine leaves the same store and
    hands the engine a request that differs in the set of seen rules
    only. *)
Theorem use_seen_rules_selects self sents probs tag_list_arg constraints s req s' :
  engine_request self sents probs tag_list_arg constraints s = (inr req, s') →
  match use_seen_rules self with
  | Some true => ∃ l, seen_rules self = Some l ∧ seen_rules_ req = list_to_set l
  | _ => seen_rules_ req = ∅
  end ∧
  ∀ b req' s'',
    engine_request (set_use_seen_rules (Some b) self)
      sents probs tag_list_arg constraints s = (inr req', s'') →
    s'' = s' ∧
    req' = mk_parse_request (csents req) (tags req) (deps req) (category_dict_ req)
             (tag_list_ req) (beta_ req) (use_beta_ req) (pruning_size_ req) (nbest_ req)
             (possible_root_cats_ req) (unary_rules_ req) (seen_rules_ req')
             (apply_binary_rules req) (c_constraints req) (max_length_ req)
             (max_steps_ req).
Proof.
  intros (cfg & cc & probs' & s1 & checked & Hcfg & Hprep & Hchk & _ & ->)%engine_request_inr.
  split.
  - apply convert_config_inr in Hcfg as [_ Hseen]. simpl.
    destruct (use_seen_rules self) as [[|]|]; simpl in Hseen; [|by injection Hseen..].
    unfold convert_seen_rules in Hseen. destruct (seen_rules self) as [l|]; [|done].
    injection Hseen as <-. by exists l.
  - intros b req' s''
      (cfg' & cc' & probs'' & s1' & checked' & Hcfg' & Hprep' & Hchk' & _ & ->)%engine_request_inr.
    rewrite (convert_config_flag _ _ _ _ _ Hcfg Hcfg') in Hprep', Hchk'.
    unfold prepare_constraints in Hprep'. simpl in Hprep', Hchk'.
    unfold prepare_constraints in Hprep. rewrite Hprep in Hprep'.
    injection Hprep' as <- <- <-. rewrite Hchk in Hchk'. injection Hchk' as <- <-.
    split; [done|]. rewrite (convert_config_flag _ _ _ _ _ Hcfg Hcfg') at 1. done.
Qed.

End wrapper_properties.

Lemma parse_doc_at_most_nbest_witness :
  length [[(@from_ptr string_categories first_row_engine "N" (Some "en"), (-1)%float)]]
    = length ["John"] ∧
  ∀ tmp, tmp ∈ [[(@from_ptr string_categories first_row_engine "N" (Some "en"),
                   (-1)%float)]] →
    (Z.of_nat (length tmp) ≤ 1)%Z.
Proof.
  apply (@parse_doc_at_most_nbest string_categories first_row_engine
           (example_parser English) ["John"] [(1%positive, 2%positive)] None None
           example_batch_store _ example_batch_store 1%Z).
  - reflexivity.
  - reflexivity.
Defined.

(** Witness of [use_seen_rules_selects]: the parser read from the
    example file has the flag on and hands the engine its one seen rule. *)
Lemma use_seen_rules_selects_witness :
  ∃ req,
    (engine_request example_json_parser
       ["John"] [(1%positive, 2%positive)] None None example_batch_store).1 = inr req ∧
    @seen_rules_ string_categories _ req = list_to_set [("NP", "N")] ∧
    (match use_seen_rules example_json_parser with
     | Some true =>
         ∃ l, seen_rules example_json_parser = Some l ∧
           @seen_rules_ string_categories _ req = list_to_set l
     | _ => @seen_rules_ string_categories _ req = ∅
     end ∧
     ∀ b req' s'',
       engine_request (set_use_seen_rules (Some b) example_json_parser)
         ["John"] [(1%positive, 2%positive)] None None example_batch_store
         = (inr req', s'') →
       s'' = example_batch_store ∧
       req' = mk_parse_request (csents req) (tags req) (deps req) (category_dict_ req)
                (tag_list_ req) (beta_ req) (use_beta_ req) (pruning_size_ req)
                (nbest_ req) (possible_root_cats_ req) (unary_rules_ req)
                (seen_rules_ req') (apply_binary_rules req) (c_constraints req)
                (max_length_ req) (max_steps_ req)).
Proof.
  eexists. split; [reflexivity|]. split; [reflexivity|].
  apply (@use_seen_rules_selects string_categories first_row_engine
           example_json_parser ["John"] [(1%positive, 2%positive)] None None
           example_batch_store).
  reflexivity.
Defined.

(** ** Running the parser again on the store it left

    The constraint phase writes into the caller's matrices.  Its writes
    are constants placed by the shapes, so a second run on the store the
    first run left meets the same exceptions, writes the same values
    again and hands the same data to the engine. *)

Lemma same_layout_refl s : same_layout s s.
Proof. intros l. by destruct (s !! l). Qed.

Lemma same_layout_sym s t : same_layout s t → same_layout t s.
Proof.
  intros Hst l. specialize (Hst l). destruct (s !! l), (t !! l); try done.
  destruct Hst as (? & ? & ?). repeat split; congruence.
Qed.

Lemma same_layout_trans s t u : same_layout s t → same_layout t u → same_layout s u.
Proof.
  intros Hst Htu l. specialize (Hst l). specialize (Htu l).
  destruct (s !! l), (t !! l), (u !! l); try done.
  destruct Hst as (? & ? & ?), Htu as (? & ? & ?). repeat split; congruence.
Qed.

Lemma overlaid_layout ov s s' : overlaid ov s s' → same_layout s s'.
Proof.
  intros Hov l. specialize (Hov l). destruct (s !! l), (s' !! l); try done.
  by destruct Hov as (? & ? & ? & _).
Qed.

Lemma overlaid_none s : overlaid (λ _ _, None) s s.
Proof. intros l. by destruct (s !! l). Qed.

Lemma overlaid_unique ov s s1 s2 : overlaid ov s s1 → overlaid ov s s2 → s1 = s2.
Proof.
  intros H1 H2. apply map_eq. intros l. specialize (H1 l). specialize (H2 l).
  destruct (s !! l) as [a|], (s1 !! l) as [a1|], (s2 !! l) as [a2|]; try done.
  destruct H1 as (Hs1 & Hd1 & Hl1 & Hv1), H2 as (Hs2 & Hd2 & Hl2 & Hv2).
  destruct a1 as [d1 sh1 dat1], a2 as [d2 sh2 dat2]. simpl in *.
  f_equal. f_equal; [congruence..|].
  apply list_eq. intros q. destruct (data a !! q) as [x|] eqn:Hq.
  - by rewrite (Hv1 q x), (Hv2 q x).
  - apply lookup_ge_None in Hq. by rewrite !lookup_ge_None_2 by lia.
Qed.

Lemma overlaid_idem ov s s' : overlaid ov s s' → overlaid ov s' s'.
Proof.
  intros Hov l. specialize (Hov l).
  destruct (s !! l) as [a|], (s' !! l) as [a'|]; try done.
  destruct Hov as (_ & _ & Hlen & Hv). repeat split.
  intros q y Hy.
  destruct (data a !! q) as [x|] eqn:Hx.
  - rewrite (Hv q x Hx) in Hy. injection Hy as <-. rewrite (Hv q x Hx).
    by destruct (ov l q).
  - apply lookup_ge_None in Hx. apply lookup_lt_Some in Hy. lia.
Qed.

Lemma overlaid_compose ov1 ov2 s s1 s2 :
  overlaid ov1 s s1 → overlaid ov2 s1 s2 →
  overlaid (λ l q, match ov2 l q with Some v => Some v | None => ov1 l q end) s s2.
Proof.
  intros H1 H2 l. specialize (H1 l). specialize (H2 l).
  destruct (s !! l) as [a|], (s1 !! l) as [a1|], (s2 !! l) as [a2|]; try done.
  destruct H1 as (? & ? & ? & Hv1), H2 as (? & ? & ? & Hv2).
  repeat split; [congruence..|].
  intros q x Hx. rewrite (Hv2 q _ (Hv1 q x Hx)). by destruct (ov2 l q).
Qed.

(** A replayable computation run again on the store it left returns the
    same outcome and leaves the store as it is. *)
Lemma replayable_rerun {A} (m : Py store A) s o s' :
  replayable m → m s = (o, s') → m s' = (o, s').
Proof.
  intros Hm Hrun. destruct (Hm s o s' Hrun) as (ov & Hov & Hreplay).
  destruct (Hreplay s' (overlaid_layout _ _ _ Hov)) as (t' & Hrun' & Hov').
  by rewrite (overlaid_unique ov s' t' s' Hov' (overlaid_idem _ _ _ Hov)) in Hrun'.
Qed.

Lemma replayable_pure {A} (r : res A) : replayable (lift r).
Proof.
  intros s o s' [= <- <-]. exists (λ _ _, None). split; [apply overlaid_none|].
  intros t _. exists t. split; [done|apply overlaid_none].
Qed.

Lemma replayable_bind {A B} (m : Py store A) (k : A → Py store B) :
  replayable m → (∀ x, replayable (k x)) → replayable (m ≫= k).
Proof.
  intros Hm Hk s o s' [(e & Hrun & ->) | (x & s1 & Hrun & Hrest)]%Py_bind_inv.
  - destruct (Hm _ _ _ Hrun) as (ov & Hov & Hreplay). exists ov. split; [done|].
    intros t Hst. destruct (Hreplay t Hst) as (t' & Ht & Hov').
    exists t'. split; [|done]. unfold mbind, Py_bind. by rewrite Ht.
  - destruct (Hm _ _ _ Hrun) as (ov1 & Hov1 & Hreplay1).
    destruct (Hk x _ _ _ Hrest) as (ov2 & Hov2 & Hreplay2).
    eexists. split; [by eapply overlaid_compose|].
    intros t Hst. destruct (Hreplay1 t Hst) as (t1 & Ht1 & Hov1').
    assert (same_layout s1 t1) as Hs1t1.
    { eapply same_layout_trans; [|by eapply overlaid_layout].
      eapply same_layout_trans; [|done].
      apply same_layout_sym. by eapply overlaid_layout. }
    destruct (Hreplay2 t1 Hs1t1) as (t' & Ht' & Hov2').
    exists t'. split; [|by eapply overlaid_compose].
    unfold mbind, Py_bind. by rewrite Ht1.
Qed.

Lemma replayable_for_each {A} (l : list A) (body : A → Py store unit) :
  (∀ x, replayable (body x)) → replayable (for_each l body).
Proof.
  intros Hbody. induction l as [|x l IH]; simpl.
  - apply (replayable_pure (inr tt)).
  - apply replayable_bind; [done|]. by intros [].
Qed.

Lemma replayable_block_write l f target :
  (∀ a, f a = block_write target a) → replayable (update l f).
Proof.
  intros Hf s o s'. unfold update.
  destruct (s !! l) as [a|] eqn:Ha.
  2:{ intros [= <- <-]. exists (λ _ _, None). split; [apply overlaid_none|].
      intros t Hst. exists t. split; [|apply overlaid_none].
      specialize (Hst l). rewrite Ha in Hst. by destruct (t !! l). }
  rewrite Hf. unfold block_write.
  destruct (target (arr_dtype a) (shape a)) as [e|[[p blk] v]] eqn:Htarget; simpl.
  { intros [= <- <-]. exists (λ _ _, None). split; [apply overlaid_none|].
    intros t Hst. exists t. split; [|apply overlaid_none].
    specialize (Hst l). rewrite Ha in Hst.
    destruct (t !! l) as [b|]; [|done]. destruct Hst as (Hsh & Hdt & _).
    rewrite Hf. unfold block_write. by rewrite Hsh, Hdt, Htarget. }
  intros [= <- <-].
  exists (λ l' q, if decide (l' = l)
                  then (if decide (p ≤ q < p + blk) then Some v else None)
                  else None).
  assert (∀ (b : ndarray) (u : store), u !! l = Some b →
            overlaid (λ l' q, if decide (l' = l)
                              then (if decide (p ≤ q < p + blk) then Some v else None)
                              else None) u
              (<[l := mk_ndarray (arr_dtype b) (shape b)
                        (list_inserts p (replicate blk v) (data b))]> u)) as Hwrite.
  { intros b u Hb l'. destruct (decide (l' = l)) as [->|Hne].
    - rewrite Hb, lookup_insert_eq. simpl. repeat split; [by rewrite length_inserts|].
      intros q x Hx. apply lookup_lt_Some in Hx as Hlt.
      destruct (decide (p ≤ q < p + blk)) as [Hin|Hout]; simpl.
      + rewrite list_lookup_inserts by (rewrite ?length_replicate; lia).
        apply lookup_replicate_2. lia.
      + rewrite <- Hx. destruct (decide (q < p)).
        * by apply list_lookup_inserts_lt.
        * apply list_lookup_inserts_ge. rewrite length_replicate. lia.
    - rewrite lookup_insert_ne by done. destruct (u !! l'); [|done].
      by repeat split. }
  split; [by apply Hwrite|].
  intros t Hst. pose proof (Hst l) as Hl. rewrite Ha in Hl.
  destruct (t !! l) as [b|] eqn:Hb; [|done]. destruct Hl as (Hsh & Hdt & _).
  rewrite Hf. unfold block_write. rewrite Hsh, Hdt, Htarget. simpl.
  eexists. split; [done|].
  rewrite <- Hsh, <- Hdt. by apply Hwrite.
Qed.

Lemma ndarray_set_row_block_write i v a :
  ndarray_set_row a i v =
  block_write (λ d sh,
    match sh with
    | n0 :: n1 :: rest =>
        i' ← normalize_index i n0;
        mret (i' * (n1 * prod_list rest), n1 * prod_list rest, cast d v)
    | _ => inl IndexError
    end) a.
Proof.
  unfold ndarray_set_row, block_write.
  destruct (shape a) as [|n0 [|n1 rest]]; [done..|].
  by destruct (normalize_index i n0).
Qed.

Lemma ndarray_set_item_block_write i j v a :
  ndarray_set_item a i j v =
  block_write (λ d sh,
    match sh with
    | n0 :: n1 :: rest =>
        i' ← normalize_index i n0;
        j' ← normalize_index j n1;
        mret ((i' * n1 + j') * prod_list rest, prod_list rest, cast d v)
    | _ => inl IndexError
    end) a.
Proof.
  unfold ndarray_set_item, block_write.
  destruct (shape a) as [|n0 [|n1 rest]]; [done..|].
  destruct (normalize_index i n0); [done|].
  by destruct (normalize_index j n1).
Qed.

Section rerun.
Context `{Engine}.

Lemma build_terminal_constraints_replayable constraints tag_probs tag_list :
  replayable (build_terminal_constraints constraints tag_probs tag_list).
Proof.
  unfold build_terminal_constraints. apply replayable_bind.
  - apply replayable_for_each. intros [cat i]. simpl.
    apply replayable_bind; [apply replayable_pure|]. intros cat_index.
    apply replayable_bind.
    + eapply replayable_block_write. intros a. apply ndarray_set_row_block_write.
    + intros _. eapply replayable_block_write. intros a.
      apply ndarray_set_item_block_write.
  - intros _. apply (replayable_pure (inr tag_probs)).
Qed.

Lemma load_constraints_replayable zipped unary_rules_ py_tag_list :
  replayable (load_constraints zipped unary_rules_ py_tag_list).
Proof.
  induction zipped as [|[constraint [py_cat_scores py_dep_scores]] zipped IH]; simpl.
  - apply (replayable_pure (inr ([], []))).
  - apply replayable_bind; [apply replayable_pure|]. intros c.
    apply replayable_bind; [apply build_terminal_constraints_replayable|]. intros l.
    apply replayable_bind; [apply IH|]. intros [cs new_probs].
    apply (replayable_pure (inr (c :: cs, (l, py_dep_scores) :: new_probs))).
Qed.

Lemma prepare_constraints_replayable cfg doc_size constraints probs :
  replayable (prepare_constraints cfg doc_size constraints probs).
Proof.
  unfold prepare_constraints. destruct constraints as [constraints|].
  - case_bool_decide; simpl.
    + apply replayable_bind; [apply load_constraints_replayable|]. intros [cs new_probs].
      apply (replayable_pure (inr (_, new_probs))).
    + apply (replayable_pure (inl AssertionError)).
  - apply (replayable_pure (inr (_, probs))).
Qed.

Lemma engine_request_rerun (self : parser_obj) sents probs tag_list_arg constraints
    (s s' : store) o :
  engine_request self sents probs tag_list_arg constraints s = (o, s') →
  engine_request self sents probs tag_list_arg constraints s' = (o, s').
Proof.
  unfold engine_request. intros Hrun.
  unfold mbind at 1, Py_bind at 1, lift at 1.
  unfold mbind at 1, Py_bind at 1, lift at 1 in Hrun.
  destruct (convert_config self tag_list_arg) as [e|cfg]; [by injection Hrun as <- <-|].
  apply Py_bind_inv in Hrun
    as [(e & Hprep & ->) | ([cc probs'] & s1 & Hprep & Hrest)].
  - apply (replayable_rerun _ _ _ _ (prepare_constraints_replayable _ _ _ _)) in Hprep.
    unfold mbind, Py_bind. by rewrite Hprep.
  - assert (s' = s1) as ->.
    { apply Py_bind_inv in Hrest as [(e & Hcheck & _) | (checked & s2 & Hcheck & Hrest)].
      - by apply check_shapes_store in Hcheck.
      - apply check_shapes_store in Hcheck as ->.
        destruct (negb _); by injection Hrest. }
    apply (replayable_rerun _ _ _ _ (prepare_constraints_replayable _ _ _ _)) in Hprep.
    unfold mbind at 1, Py_bind at 1. by rewrite Hprep.
Qed.

(** X5.  A call of [_parse_doc_tag_and_dep] repeated with the same
    arguments on the arrays as the first call left them (the terminal
    constraints overwrite rows of the caller's matrices in place) changes
    no array and gets as far as the first call: it raises the exception
    the first call raised before the engine, or it hands the engine the
    very request the first call handed it. *)
Theorem parse_doc_rerun (self : parser_obj) sents probs tag_list_arg constraints
    (s s' : store) out :
  _parse_doc_tag_and_dep self sents probs tag_list_arg constraints s = (out, s') →
  ∃ o,
    engine_request self sents probs tag_list_arg constraints s = (o, s') ∧
    engine_request self sents probs tag_list_arg constraints s' = (o, s') ∧
    (∀ e, o = inl e → out = inl e) ∧
    (∀ e, o = inl e →
       _parse_doc_tag_and_dep self sents probs tag_list_arg constraints s' = (inl e, s')).
Proof.
  rewrite parse_doc_of_request.
  intros [(e & Hreq & ->) | (req & s1 & Hreq & Hcol)]%Py_bind_inv.
  - exists (inl e). split; [done|]. apply engine_request_rerun in Hreq as Hagain.
    split; [done|]. split; [by intros e' [= <-]|].
    intros e' [= <-]. rewrite parse_doc_of_request. unfold mbind, Py_bind.
    by rewrite Hagain.
  - unfold lift in Hcol. injection Hcol as _ <-.
    exists (inr req). split; [done|]. split; [by eapply engine_request_rerun|]. done.
Qed.

End rerun.

Example example_constrained_run_writes :
  example_constrained_run.2 !! 1%positive
  = Some (mk_ndarray float32 [1; 2] [0%float; (-99999997952)%float]).
Proof. reflexivity. Qed.

(** Witness of [parse_doc_rerun]: the second call on the store of the
    example, row 0 of the tag matrix overwritten, hands the engine the
    same request. *)
Lemma parse_doc_rerun_witness :
  ∃ o,
    engine_request (example_parser English)
      ["John"] [(1%positive, 2%positive)] None
      (Some [[@Terminal string_categories "N" 0%Z]]) example_batch_store
    = (o, example_constrained_run.2) ∧
    engine_request (example_parser English)
      ["John"] [(1%positive, 2%positive)] None
      (Some [[@Terminal string_categories "N" 0%Z]]) example_constrained_run.2
    = (o, example_constrained_run.2) ∧
    (∀ e, o = inl e → example_constrained_run.1 = inl e) ∧
    (∀ e, o = inl e →
       _parse_doc_tag_and_dep (example_parser English)
         ["John"] [(1%positive, 2%positive)] None
         (Some [[@Terminal string_categories "N" 0%Z]]) example_constrained_run.2
       = (inl e, example_constrained_run.2)).
Proof.
  apply (@parse_doc_rerun string_categories first_row_engine
           (example_parser English) ["John"] [(1%positive, 2%positive)] None
           (Some [[@Terminal string_categories "N" 0%Z]]) example_batch_store).
  apply surjective_pairing.
Defined.

(** ** [build_terminal_constraints]: when it returns and how it fails *)

Lemma normalize_index_range i n : (∃ k, normalize_index i n = inr k) ↔ (- Z.of_nat n ≤ i < Z.of_nat n)%Z.
Proof.
  unfold normalize_index. split.
  - intros [k Hk]. repeat case_bool_decide; try done; lia.
  - intros Hi. repeat case_bool_decide; eauto; lia.
Qed.

Section terminal_constraints_outcome.
Context `{CategoryAPI}.

Lemma make_tag_dict_None (tag_list : list Category) cat :
  make_tag_dict tag_list !! cat = None ↔ cat ∉ tag_list.
Proof.
  split.
  - intros Hnone [j Hj]%list_elem_of_lookup.
    assert (∃ j, tag_list !! j = Some cat ∧ ∀ j', j < j' → tag_list !! j' ≠ Some cat)
      as (j0 & Hj0).
    { clear Hnone. revert j Hj.
      induction tag_list as [|x l IH] using rev_ind; intros j Hj; [done|].
      destruct (decide (x = cat)) as [->|Hne].
      - exists (length l). split; [by rewrite lookup_app_r, Nat.sub_diag by lia|].
        intros j' Hj'. rewrite lookup_ge_None_2; [done|]. rewrite length_app. simpl. lia.
      - assert (j < length l) as Hlt.
        { apply lookup_lt_Some in Hj as Hlt. rewrite length_app in Hlt. simpl in Hlt.
          destruct (decide (j = length l)) as [->|]; [|lia].
          rewrite lookup_app_r, Nat.sub_diag in Hj by lia. simpl in Hj. congruence. }
        rewrite lookup_app_l in Hj by done.
        destruct (IH j Hj) as (j0 & Hj0 & Hlast). exists j0. split.
        + by apply lookup_app_l_Some.
        + intros j' Hj'. destruct (decide (j' < length l)).
          * rewrite lookup_app_l by done. by apply Hlast.
          * destruct (decide (j' = length l)) as [->|].
            -- rewrite lookup_app_r, Nat.sub_diag by lia. simpl. congruence.
            -- rewrite lookup_ge_None_2; [done|]. rewrite length_app. simpl. lia. }
    apply make_tag_dict_lookup in Hj0. congruence.
  - intros Hnot. destruct (make_tag_dict tag_list !! cat) as [j|] eqn:Hj; [|done].
    apply make_tag_dict_lookup in Hj as [Hj _]. exfalso. apply Hnot.
    by eapply list_elem_of_lookup_2.
Qed.

Lemma apply_terminal_constraint_applicable tl tp cat i s a n m rest :
  s !! tp = Some a → shape a = n :: m :: rest →
  applicable tl n m (cat, i) →
  ∃ s', apply_terminal_constraint (make_tag_dict tl) tp (cat, i) s = (inr tt, s').
Proof.
  intros Ha Hs [Hi (j & Hj & Hlast & Hjm)]. simpl in *.
  unfold apply_terminal_constraint.
  assert (make_tag_dict tl !! cat = Some j) as Htd by (by apply make_tag_dict_lookup).
  apply normalize_index_range in Hi as [k Hk].
  assert (normalize_index (Z.of_nat j) m = inr j) as Hc.
  { apply normalize_index_spec. split; [done|]. by left. }
  unfold mbind, Py_bind, lift, dict_get, update. rewrite Htd, Ha.
  unfold ndarray_set_row. rewrite Hs, Hk. simpl.
  rewrite lookup_insert_eq. unfold ndarray_set_item. simpl. rewrite Hk. simpl.
  rewrite Hc. simpl. eauto.
Qed.

Lemma apply_terminal_constraint_returns tl tp cat i s a n m rest s' :
  s !! tp = Some a → shape a = n :: m :: rest →
  apply_terminal_constraint (make_tag_dict tl) tp (cat, i) s = (inr tt, s') →
  applicable tl n m (cat, i).
Proof.
  intros Ha Hs. unfold apply_terminal_constraint.
  intros [(e & _ & [=]) | (j & s0 & Hj & Hrun)]%Py_bind_inv.
  unfold lift, dict_get in Hj.
  destruct (make_tag_dict tl !! cat) as [j0|] eqn:Htd; [|done]. injection Hj as -> ->.
  apply make_tag_dict_lookup in Htd as [Hj Hlast].
  apply Py_bind_inv in Hrun as [(e & _ & [=]) | ([] & s1 & Hrow & Hitem)].
  unfold update in Hrow, Hitem. rewrite Ha in Hrow.
  destruct (ndarray_set_row a i pseudo_neginf) as [|a1] eqn:Hr; [done|].
  injection Hrow as <-. rewrite lookup_insert_eq in Hitem.
  destruct (ndarray_set_item a1 i (Z.of_nat j) 0) as [|a2] eqn:Hit; [done|].
  apply ndarray_set_row_spec in Hr as (n0 & n1 & rest' & k & Hs' & Hk & _ & Hs1 & _).
  apply ndarray_set_item_spec in Hit as (n0' & n1' & rest'' & k' & c & Hs'' & _ & Hc & _).
  rewrite Hs in Hs'. injection Hs' as <- <- <-.
  rewrite Hs1, Hs in Hs''. injection Hs'' as <- <- <-.
  split; simpl.
  - apply normalize_index_range. eauto.
  - exists j. repeat split; [done..|].
    apply normalize_index_spec in Hc as [Hlt [Heq|Heq]]; lia.
Qed.

Lemma for_each_constraints_returns tl tp cs s a n m rest out s' :
  s !! tp = Some a → shape a = n :: m :: rest →
  for_each cs (apply_terminal_constraint (make_tag_dict tl) tp) s = (out, s') →
  (out = inr tt ↔ Forall (applicable tl n m) cs).
Proof.
  revert s a out. induction cs as [|[cat i] cs IH]; intros s a out Ha Hs.
  { intros [= <- <-]. split; [by constructor|done]. }
  change (for_each ((cat, i) :: cs) (apply_terminal_constraint (make_tag_dict tl) tp))
    with (apply_terminal_constraint (make_tag_dict tl) tp (cat, i)
            ≫= λ _, for_each cs (apply_terminal_constraint (make_tag_dict tl) tp)).
  intros [(e & Hone & ->) | ([] & s1 & Hone & Hrest)]%Py_bind_inv.
  - split; [done|]. intros [Happ _]%Forall_cons.
    destruct (apply_terminal_constraint_applicable _ tp _ _ _ _ _ _ _ Ha Hs Happ) as [s2 Hok].
    congruence.
  - pose proof (apply_terminal_constraint_returns _ _ _ _ _ _ _ _ _ _ Ha Hs Hone) as Happ.
    apply apply_terminal_constraint_frame in Hone as (_ & _ & Hsame).
    destruct (Hsame a Ha) as (a1 & Ha1 & Hs1 & _).
    rewrite (IH s1 a1 out Ha1 (eq_trans Hs1 Hs) Hrest).
    rewrite Forall_cons. tauto.
Qed.

Lemma for_each_constraints_exception td tp (cs : list (Category * Z)) s a e s' :
  s !! tp = Some a →
  for_each cs (apply_terminal_constraint td tp) s = (inl e, s') →
  e = KeyError ∨ e = IndexError.
Proof.
  revert s a. induction cs as [|[cat i] cs IH]; intros s a Ha; [done|].
  change (for_each ((cat, i) :: cs) (apply_terminal_constraint td tp))
    with (apply_terminal_constraint td tp (cat, i)
            ≫= λ _, for_each cs (apply_terminal_constraint td tp)).
  intros [(e' & Hone & [= <-]) | ([] & s1 & Hone & Hrest)]%Py_bind_inv.
  - unfold apply_terminal_constraint in Hone.
    apply Py_bind_inv in Hone as [(e' & Hd & [= <-]) | (j & s0 & Hd & Hrun)].
    { unfold lift, dict_get in Hd. destruct (td !! cat); [done|].
      left. congruence. }
    unfold lift in Hd. injection Hd as _ <-. right.
    apply Py_bind_inv in Hrun as [(e' & Hrow & [= <-]) | ([] & s1 & Hrow & Hitem)].
    + unfold update in Hrow. rewrite Ha in Hrow.
      destruct (ndarray_set_row a i pseudo_neginf) as [e'|a1] eqn:Hr; [|done].
      injection Hrow as <- _. by eapply ndarray_set_row_error.
    + unfold update in Hrow, Hitem. rewrite Ha in Hrow.
      destruct (ndarray_set_row a i pseudo_neginf) as [e'|a1] eqn:Hr; [done|].
      injection Hrow as <-. rewrite lookup_insert_eq in Hitem.
      destruct (ndarray_set_item a1 i (Z.of_nat j) 0) as [e'|a2] eqn:Hit; [|done].
      injection Hitem as <- _. by eapply ndarray_set_item_error.
  - apply apply_terminal_constraint_frame in Hone as (_ & _ & Hsame).
    destruct (Hsame a Ha) as (a1 & Ha1 & _). by eapply IH.
Qed.

End terminal_constraints_outcome.

(** X6.  On an array with at least two axes, [n] rows and [m] columns,
    [build_terminal_constraints] returns (the array it was given) exactly
    when every constraint is applicable: its index lies in [-n, n) and its
    category occurs in the tag list, the last occurrence at an index below
    [m].  Otherwise it raises [KeyError] or [IndexError]. *)
Theorem build_terminal_constraints_returns `{CategoryAPI}
    (constraints : list (Category * Z)) tag_probs tag_list s a n m rest out s' :
  s !! tag_probs = Some a → shape a = n :: m :: rest →
  build_terminal_constraints constraints tag_probs tag_list s = (out, s') →
  (out = inr tag_probs ↔ Forall (applicable tag_list n m) constraints) ∧
  (out = inr tag_probs ∨ out = inl KeyError ∨ out = inl IndexError).
Proof.
  intros Ha Hs. unfold build_terminal_constraints.
  intros [(e & Hloop & ->) | ([] & s1 & Hloop & [= <- <-])]%Py_bind_inv.
  - pose proof (for_each_constraints_exception _ _ _ _ _ _ _ Ha Hloop) as He.
    apply (for_each_constraints_returns _ _ _ _ _ _ _ _ _ _ Ha Hs) in Hloop.
    split.
    + split; [done|]. intros Hf. by apply Hloop in Hf.
    + right. destruct He as [-> | ->]; auto.
  - apply (for_each_constraints_returns _ _ _ _ _ _ _ _ _ _ Ha Hs) in Hloop.
    split; [|by left]. split; [|done]. intros _. by apply Hloop.
Qed.

(** X7.  A constraint whose category is not in the tag list raises
    [KeyError] when the loop reaches it: the constraints after it are not
    looked at, and what the constraints before it wrote stays written. *)
Theorem build_terminal_constraints_unknown_category `{CategoryAPI}
    (before after : list (Category * Z)) cat i tag_probs tag_list s r s1 :
  build_terminal_constraints before tag_probs tag_list s = (inr r, s1) →
  cat ∉ tag_list →
  build_terminal_constraints (before ++ (cat, i) :: after) tag_probs tag_list s
    = (inl KeyError, s1).
Proof.
  unfold build_terminal_constraints.
  intros [(e & _ & [=]) | ([] & s2 & Hloop & [= <- <-])]%Py_bind_inv Hnot.
  unfold mbind at 1, Py_bind at 1. rewrite for_each_app, Hloop. simpl.
  unfold mbind, Py_bind, lift, dict_get.
  apply make_tag_dict_None in Hnot. by rewrite Hnot.
Qed.

(** X8.  When the tag list is longer than the matrix is wide, a
    constraint on a category whose (last) index in the tag list is not a
    column raises [IndexError] only after the first assignment: the whole
    row of the token holds [pseudo_neginf] when the exception is raised. *)
Theorem build_terminal_constraints_column_out_of_range `{CategoryAPI}
    cat i (after : list (Category * Z)) tag_probs tag_list s a n m j k :
  s !! tag_probs = Some a → shape a = [n; m] → ndarray_wf a →
  tag_list !! j = Some cat → (∀ j', j < j' → tag_list !! j' ≠ Some cat) → m ≤ j →
  normalize_index i n = inr k →
  ∃ a',
    build_terminal_constraints ((cat, i) :: after) tag_probs tag_list s
      = (inl IndexError, <[tag_probs := a']> s) ∧
    ∀ j', j' < m → ndarray_get a' k j' = Some (cast (arr_dtype a) pseudo_neginf).
Proof.
  intros Ha Hs Hwf Hj Hlast Hmj Hk.
  assert (make_tag_dict tag_list !! cat = Some j) as Htd by (by apply make_tag_dict_lookup).
  assert (normalize_index (Z.of_nat j) m = inl IndexError) as Hc.
  { unfold normalize_index. rewrite !bool_decide_false by lia. done. }
  pose proof (normalize_index_lt _ _ _ Hk) as Hkn.
  eexists. split.
  - unfold build_terminal_constraints. simpl.
    unfold mbind, Py_bind, lift, dict_get, update. rewrite Htd, Ha.
    unfold ndarray_set_row. rewrite Hs, Hk. simpl.
    rewrite lookup_insert_eq. unfold ndarray_set_item. simpl. rewrite Hk. simpl.
    rewrite Hc. simpl. reflexivity.
  - intros j' Hj'. unfold ndarray_get. simpl. rewrite bool_decide_true by done.
    unfold ndarray_wf in Hwf. rewrite Hs in Hwf.
    change (prod_list [n; m]) with (n * (m * 1)) in Hwf.
    rewrite list_lookup_inserts by (rewrite ?length_replicate; nia).
    apply lookup_replicate_2. nia.
Qed.

(** ** [build_nonterminal_constraints] *)

(** X9.  [build_nonterminal_constraints] copies the span constraints as
    they are, in their order, into a [PartialConstraints] built on the
    unary rules, when every start and every length fits a C [int]; it
    raises [OverflowError] when one does not.  It checks nothing else: a
    negative start or length is passed on. *)
Theorem build_nonterminal_constraints_spans `{CategoryAPI}
    (py_constraints : list (option Category * Z * Z)) unary_rules :
  (Forall (λ c, fits_int c.1.2 ∧ fits_int c.2) py_constraints ∧
   build_nonterminal_constraints py_constraints unary_rules
     = inr (mk_PartialConstraints (Some unary_rules) py_constraints)) ∨
  (¬ Forall (λ c, fits_int c.1.2 ∧ fits_int c.2) py_constraints ∧
   build_nonterminal_constraints py_constraints unary_rules = inl OverflowError).
Proof.
  unfold build_nonterminal_constraints.
  induction py_constraints as [|[[cat st] len] cs IH].
  { left. split; [constructor|done]. }
  rewrite Forall_cons. simpl.
  destruct (map_res _ cs) as [e|spans] eqn:Hmap.
  - destruct IH as [[_ [=]] | [Hnot He]]. simpl in He. injection He as ->.
    right. split; [tauto|].
    unfold as_int. repeat case_bool_decide; done.
  - destruct IH as [[Hall Hrun] | [_ [=]]]. simpl in Hrun. injection Hrun as ->.
    unfold as_int, fits_int. repeat case_bool_decide; simpl.
    + left. done.
    + right. split; [tauto|done].
    + right. split; [tauto|done].
    + right. split; [tauto|done].
Qed.

(** ** What a call of the parser may write *)

Section parse_doc_writes.
Context `{Engine}.

(** The store a call leaves is the one the constraint phase leaves. *)
Lemma parse_doc_store self sents probs tag_list_arg constraints s out s' :
  _parse_doc_tag_and_dep self sents probs tag_list_arg constraints s = (out, s') →
  s' = s ∨
  ∃ cfg r, convert_config self tag_list_arg = inr cfg ∧
    prepare_constraints cfg (length sents) constraints probs s = (r, s').
Proof.
  unfold _parse_doc_tag_and_dep.
  intros [(e & Hcfg & ->) | (cfg & s0 & Hcfg & Hrun)]%Py_bind_inv.
  { left. unfold lift in Hcfg. by injection Hcfg. }
  unfold lift in Hcfg. injection Hcfg as Hcfg <-. right. exists cfg.
  apply Py_bind_inv in Hrun as [(e & Hprep & ->) | ([cc probs'] & s1 & Hprep & Hrun)].
  { by eexists. }
  exists (inr (cc, probs')). split; [done|].
  assert (s' = s1) as ->; [|done].
  apply Py_bind_inv in Hrun as [(e & Hcheck & _) | (checked & s2 & Hcheck & Hrun)].
  - by apply check_shapes_store in Hcheck.
  - apply check_shapes_store in Hcheck as ->.
    destruct (negb _); [by injection Hrun|].
    unfold lift in Hrun. by injection Hrun.
Qed.

Lemma load_constraints_frame zipped ur tl s out s' l :
  load_constraints zipped ur tl s = (out, s') →
  (∀ c pd, (c, (l, pd)) ∈ zipped → terminal_of c = []) →
  s' !! l = s !! l.
Proof.
  revert s out. induction zipped as [|[constraint [pc pd]] zipped IH]; intros s out; simpl.
  { by intros [= <- <-]. }
  intros Hrun Hl.
  unfold mbind at 1, Py_bind at 1, lift at 1 in Hrun.
  destruct (build_nonterminal_constraints _ _) as [e|c]; [by injection Hrun as <- <-|].
  assert (∀ o s1, build_terminal_constraints (terminal_of constraint) pc tl s = (o, s1) →
            s1 !! l = s !! l) as Hterm.
  { intros o s1 Hb. destruct (decide (pc = l)) as [->|Hne].
    - rewrite (Hl constraint pd) in Hb by left. by injection Hb as <- <-.
    - unfold build_terminal_constraints in Hb.
      apply Py_bind_inv in Hb as [(e & Hloop & ->) | ([] & s2 & Hloop & [= <- <-])];
        apply for_each_constraints_frame in Hloop as [Hother _]; by apply Hother. }
  apply Py_bind_inv in Hrun as [(e & Hb & ->) | (r & s1 & Hb & Hrest)].
  { by eapply Hterm. }
  rewrite <- (Hterm _ _ Hb).
  apply Py_bind_inv in Hrest as [(e & Hrest & ->) | ([cs np] & s2 & Hrest & [= <- <-])];
    (eapply IH; [done|]); intros c' pd' Hin; apply (Hl c' pd'); by right.
Qed.

(** X10.  A call of [_parse_doc_tag_and_dep], whether it returns or
    raises, leaves every array its dtype and shape, and leaves unchanged
    every array that is not the tag matrix of a sentence with a terminal
    constraint: the dependency matrices, the tag matrices of the other
    sentences, and every array when no constraints are passed. *)
Theorem parse_doc_frame self sents probs tag_list_arg constraints s out s' :
  _parse_doc_tag_and_dep self sents probs tag_list_arg constraints s = (out, s') →
  same_shapes s s' ∧
  (∀ l, ¬ constrained_tag_matrix constraints probs l → s' !! l = s !! l) ∧
  (constraints = None → s' = s).
Proof.
  intros [-> | (cfg & r & _ & Hprep)]%parse_doc_store.
  { split; [apply same_shapes_refl|done]. }
  split; [by apply prepare_constraints_spec in Hprep as [? _]|].
  assert (∀ l, ¬ constrained_tag_matrix constraints probs l → s' !! l = s !! l) as Hframe.
  { intros l Hl. unfold prepare_constraints in Hprep.
    destruct constraints as [cs|]; [|by injection Hprep as <- <-].
    destruct (negb _); [by injection Hprep as <- <-|].
    assert (∀ o, load_constraints (zip cs probs) (cfg_unary_rules cfg) (cfg_tag_list cfg) s
                   = (o, s') → s' !! l = s !! l) as Hload.
    { intros o Hload. eapply load_constraints_frame; [done|].
      intros c pd [i Hi]%list_elem_of_lookup.
      apply lookup_zip_with_Some in Hi as (c' & p' & [= <- <-] & Hc & Hp).
      destruct (decide (terminal_of c = [])) as [|Hne]; [done|].
      destruct Hl. by exists cs, i, c, pd. }
    apply Py_bind_inv in Hprep as [(e & Hload' & ->) | ([cc np] & s1 & Hload' & [= <- <-])];
      by eapply Hload. }
  split; [done|].
  intros ->. apply map_eq. intros l. apply Hframe.
  by intros (cs & ? & ? & ? & [=] & _).
Qed.

End parse_doc_writes.

(** ** What the engine is handed *)

Section engine_input.
Context `{Engine}.

(** What a run of the shape loop that returns has checked and recorded
    for each pair of matrices. *)
Lemma check_shapes_checked sents tag_size i probs s checked s' :
  check_shapes sents tag_size i probs s = (inr checked, s') →
  length checked = length probs ∧
  ∀ q pc pd, probs !! q = Some (pc, pd) →
    ∃ sent cat dep,
      sents !! (i + q) = Some sent ∧ s !! pc = Some cat ∧ s !! pd = Some dep ∧
      arr_dtype cat = float32 ∧ arr_dtype dep = float32 ∧
      shape cat = [length (split_space sent); tag_size] ∧
      shape dep = [length (split_space sent); length (split_space sent) + 1] ∧
      0 < tag_size ∧
      checked !! q = Some (sent, data cat, data dep).
Proof.
  revert i s checked. induction probs as [|[pc pd] probs IH]; intros i s checked; simpl.
  { intros [= <- <-]. split; [done|]. intros q ? ? Hq. by rewrite lookup_nil in Hq. }
  unfold mbind at 1, Py_bind at 1, lift at 1.
  destruct (sents !! i) as [sent|] eqn:Hsent; [|by intros [=]].
  unfold mbind at 1, Py_bind at 1, load at 1.
  destruct (s !! pc) as [cat|] eqn:Hcat; [|by intros [=]].
  unfold mbind at 1, Py_bind at 1, load at 1.
  destruct (s !! pd) as [dep|] eqn:Hdep; [|by intros [=]].
  destruct (shapes_match _ _ _ _) eqn:Hm; simpl; [|by intros [=]].
  unfold mbind at 1, Py_bind at 1, lift at 1.
  destruct (acquire_buffer cat) as [e1|cat_scores] eqn:Hb1; [by intros [=]|].
  unfold mbind at 1, Py_bind at 1, lift at 1.
  destruct (acquire_buffer dep) as [e2|dep_scores] eqn:Hb2; [by intros [=]|].
  unfold mbind at 1, Py_bind at 1, lift at 1.
  destruct (address_of_first cat_scores) as [e3|t] eqn:Ha1; [by intros [=]|].
  unfold mbind at 1, Py_bind at 1, lift at 1.
  destruct (address_of_first dep_scores) as [e4|d] eqn:Ha2; [by intros [=]|].
  intros [(e & _ & [=]) | (rest & s1 & Hrest & [= <- <-])]%Py_bind_inv.
  pose proof (check_shapes_store _ _ _ _ _ _ _ Hrest) as ->.
  destruct (IH _ _ _ Hrest) as [Hlen Hq]. split; [simpl; lia|].
  unfold shapes_match in Hm. apply andb_prop in Hm as [Hm1 Hm2].
  apply bool_decide_eq_true in Hm1, Hm2.
  assert (arr_dtype cat = float32 ∧ cat_scores = cat) as [Hd1 ->].
  { unfold acquire_buffer in Hb1. rewrite <- Hm1 in Hb1.
    destruct (arr_dtype cat); [|done]. by injection Hb1. }
  assert (arr_dtype dep = float32 ∧ dep_scores = dep) as [Hd2 ->].
  { unfold acquire_buffer in Hb2. rewrite <- Hm2 in Hb2.
    destruct (arr_dtype dep); [|done]. by injection Hb2. }
  assert (0 < tag_size ∧ t = data cat) as [Hts ->].
  { unfold address_of_first in Ha1. rewrite <- Hm1 in Ha1.
    case_bool_decide as Hpos; [|done]. injection Ha1 as <-. split; [lia|done]. }
  assert (d = data dep) as ->.
  { unfold address_of_first in Ha2. rewrite <- Hm2 in Ha2.
    case_bool_decide; [|done]. by injection Ha2. }
  intros [|q] pcq pdq Hp.
  - injection Hp as <- <-. exists sent, cat, dep. rewrite Nat.add_0_r. by repeat split.
  - simpl in Hp. destruct (Hq q pcq pdq Hp) as (sq & cq & dq & Hsq & Hrestq).
    exists sq, cq, dq. split; [|done]. by rewrite <- Nat.add_succ_comm.
Qed.

(** X11.  When [_parse_doc_tag_and_dep] returns, the engine was called
    once, with the sentences of the batch and, for every sentence, the
    data of its two matrices as the constraint phase left them: both
    [float32], the tag matrix of shape (tokens, tags) and the dependency
    matrix of shape (tokens, tokens + 1), so with exactly tokens * tags and
    tokens * (tokens + 1) entries when the arrays passed were well formed.
    The tag list is then not empty, and there are as many sentences as
    pairs of matrices in use. *)
Theorem parse_doc_engine_input self sents probs tag_list_arg constraints s res s' :
  (∀ l a, s !! l = Some a → ndarray_wf a) →
  _parse_doc_tag_and_dep self sents probs tag_list_arg constraints s = (inr res, s') →
  ∃ cfg req,
    convert_config self tag_list_arg = inr cfg ∧
    collect (lang self) (cfg_nbest cfg) (ParseSentences req) 0 (length sents) = inr res ∧
    csents req = sents ∧ tag_list_ req = cfg_tag_list cfg ∧
    length (tags req) = length sents ∧ length (deps req) = length sents ∧
    length sents ≤ length probs ∧
    ∀ i sent, sents !! i = Some sent →
      ∃ pc pd cat dep,
        probs !! i = Some (pc, pd) ∧ s' !! pc = Some cat ∧ s' !! pd = Some dep ∧
        arr_dtype cat = float32 ∧ arr_dtype dep = float32 ∧
        shape cat = [length (split_space sent); length (cfg_tag_list cfg)] ∧
        shape dep = [length (split_space sent); length (split_space sent) + 1] ∧
        0 < length (cfg_tag_list cfg) ∧
        tags req !! i = Some (data cat) ∧ deps req !! i = Some (data dep) ∧
        length (data cat) = length (split_space sent) * length (cfg_tag_list cfg) ∧
        length (data dep) = length (split_space sent) * (length (split_space sent) + 1).
Proof.
  intros Hwf (cfg & cc & probs' & s1 & checked & Hcfg & Hprep & Hcheck & Hlen & Hcol)%parse_doc_inr.
  pose proof (check_shapes_store _ _ _ _ _ _ _ Hcheck) as ->.
  destruct (prepare_constraints_replayable _ _ _ _ _ _ _ Hprep) as (ov & Hov & _).
  apply overlaid_layout in Hov.
  apply prepare_constraints_spec in Hprep as [_ Hprobs].
  specialize (Hprobs cc probs' eq_refl).
  apply check_shapes_checked in Hcheck as [Hlen' Hq].
  assert (length probs' = length sents) as Hsame.
  { apply Nat.le_antisymm; [|lia].
    destruct (decide (length probs' ≤ length sents)) as [|Hgt]; [done|].
    destruct (lookup_lt_is_Some_2 probs' (length sents)) as [[pc pd] Hp]; [lia|].
    destruct (Hq _ _ _ Hp) as (sent & _ & _ & Hsent & _).
    apply lookup_lt_Some in Hsent. simpl in Hsent. lia. }
  assert (∀ i sent, sents !! i = Some sent →
            ∃ pc pd cat dep, probs !! i = Some (pc, pd) ∧ probs' !! i = Some (pc, pd) ∧
              s1 !! pc = Some cat ∧ s1 !! pd = Some dep ∧
              arr_dtype cat = float32 ∧ arr_dtype dep = float32 ∧
              shape cat = [length (split_space sent); length (cfg_tag_list cfg)] ∧
              shape dep = [length (split_space sent); length (split_space sent) + 1] ∧
              0 < length (cfg_tag_list cfg) ∧
              checked !! i = Some (sent, data cat, data dep)) as Hall.
  { intros i sent Hsent. apply lookup_lt_Some in Hsent as Hi.
    destruct (lookup_lt_is_Some_2 probs' i) as [[pc pd] Hp]; [lia|].
    destruct (Hq _ _ _ Hp) as (sent' & cat & dep & Hsent' & Hrest).
    simpl in Hsent'. rewrite Hsent in Hsent'. injection Hsent' as <-.
    exists pc, pd, cat, dep. split; [by rewrite <- Hprobs|]. by split. }
  exists cfg, (request cfg (length sents) checked cc).
  split; [done|]. split; [done|]. simpl.
  split.
  { apply list_eq. intros i. rewrite !list_lookup_fmap.
    destruct (sents !! i) as [sent|] eqn:Hsent.
    - destruct (Hall i sent Hsent) as (? & ? & ? & ? & _ & _ & _ & _ & _ & _ & _ & _ & _ & ->).
      done.
    - apply lookup_ge_None in Hsent. rewrite lookup_ge_None_2; [done|]. lia. }
  split; [done|]. rewrite !length_fmap.
  split; [lia|]. split; [lia|].
  split.
  { destruct (decide (length sents ≤ length probs)) as [|Hgt]; [done|].
    destruct (lookup_lt_is_Some_2 sents (length probs)) as [sent Hsent]; [lia|].
    destruct (Hall _ _ Hsent) as (? & ? & ? & ? & Hp & _).
    apply lookup_lt_Some in Hp. lia. }
  intros i sent Hsent.
  destruct (Hall i sent Hsent)
    as (pc & pd & cat & dep & Hp & _ & Hcat & Hdep & Hd1 & Hd2 & Hs1 & Hs2 & Hts & Hc).
  exists pc, pd, cat, dep. rewrite !list_lookup_fmap, Hc. simpl.
  repeat split; try done.
  - pose proof (Hov pc) as Hl. rewrite Hcat in Hl.
    destruct (s !! pc) as [a|] eqn:Ha; [|done]. destruct Hl as (Hsh & _ & Hdata).
    rewrite Hdata. rewrite (Hwf pc a Ha), <- Hsh, Hs1.
    change (prod_list [?n; ?m]) with (n * (m * 1)). lia.
  - pose proof (Hov pd) as Hl. rewrite Hdep in Hl.
    destruct (s !! pd) as [a|] eqn:Ha; [|done]. destruct Hl as (Hsh & _ & Hdata).
    rewrite Hdata. rewrite (Hwf pd a Ha), <- Hsh, Hs2.
    change (prod_list [?n; ?m]) with (n * (m * 1)). lia.
Qed.

End engine_input.

(** ** The parser a loader returns *)

Lemma map_res_Forall2 {A B} (f : A → res B) l l' :
  map_res f l = inr l' ↔ Forall2 (λ x y, f x = inr y) l l'.
Proof.
  revert l'. induction l as [|x l IH]; intros l'; simpl.
  { split; [intros [= <-]; constructor|by intros ->%Forall2_nil_inv_l]. }
  split.
  - intros (y & Hy & (ys & Hys & [= <-])%res_bind_inr)%res_bind_inr.
    constructor; [done|]. by apply IH.
  - intros (y & ys & Hy & Hys & ->)%Forall2_cons_inv_l.
    rewrite Hy. simpl. apply IH in Hys. by rewrite Hys.
Qed.

Section loader_properties.
Context `{Engine}.

(** What either [__init__] leaves in the attributes it assigns from its
    arguments, when it returns. *)
Lemma init_of_attributes l a self self' :
  init_of l a self = (inr tt, self') →
  category_dict self' = Some (a_category_dict a) ∧
  tag_list self' = Some (a_tag_list a) ∧
  unary_rules self' = Some (a_unary_rules a) ∧
  seen_rules self' = Some (a_seen_rules a) ∧
  tagger self' = None ∧
  py_dict self ≠ None.
Proof.
  destruct l; simpl.
  - unfold EnglishCCGParser_init.
    destruct self as [br rc cd tl ur sr b ub ucd usr ps nb ml tg lg [d|]];
      unfold mbind, Py_bind, lift, assign, setattr, mret, Py_ret; simpl;
      destruct (parse_root_cats _) as [e|cats]; simpl; try done.
    by intros [= <-].
  - unfold JapaneseCCGParser_init.
    destruct self as [br rc cd tl ur sr b ub ucd usr ps nb ml tg lg [d|]];
      destruct (a_binary_rules a) as [rules|];
      unfold mbind, Py_bind, lift, assign, setattr, mret, Py_ret; simpl;
      destruct (parse_root_cats _) as [e|cats]; simpl; try done;
      by intros [= <-].
Qed.

Lemma maybe_load_tagger_inr dir parser parser' :
  maybe_load_tagger dir parser = inr parser' →
  (tagger parser' = tagger parser ∧ (dir = None ∨ dir = Some EmptyString) ∨
   ∃ d t, dir = Some d ∧ d ≠ EmptyString ∧ load_tagger d = inr t ∧ tagger parser' = Some t) ∧
  category_dict parser' = category_dict parser ∧
  tag_list parser' = tag_list parser ∧
  unary_rules parser' = unary_rules parser ∧
  seen_rules parser' = seen_rules parser.
Proof.
  unfold maybe_load_tagger. destruct dir as [[|c d]|].
  - intros [= <-]. split; [left|]; auto.
  - unfold load_default_tagger, mbind, Py_bind, lift, assign.
    destruct (load_tagger (String c d)) as [e|t] eqn:Ht; [done|].
    intros [= <-]. destruct parser. simpl. split; [|done].
    right. by exists (String c d), t.
  - intros [= <-]. split; [left|]; auto.
Qed.

Lemma parse_cat_dict_lookup items acc cd :
  parse_cat_dict items acc = inr cd →
  ∀ word,
    (cd !! word = None ↔ acc !! word = None ∧ word ∉ items.*1) ∧
    ∀ cs, cd !! word = Some cs →
      (acc !! word = Some cs ∧ word ∉ items.*1) ∨
      ∃ cats, (word, cats) ∈ items ∧
        Forall2 (λ s c, Category_parse s = inr c) cats cs.
Proof.
  revert acc. induction items as [|[w cats] items IH]; intros acc; simpl.
  { intros [= <-] word. split.
    - split; [intros ?; split; [done|apply not_elem_of_nil]|by intros [? _]].
    - intros cs Hcs. left. split; [done|apply not_elem_of_nil]. }
  intros (parsed & Hparsed & Hrest)%res_bind_inr word.
  apply map_res_Forall2 in Hparsed.
  destruct (IH _ Hrest word) as [Hnone Hsome].
  destruct (decide (word = w)) as [->|Hne].
  - rewrite lookup_insert_eq in Hnone, Hsome. split.
    + split; [intros Hn; apply Hnone in Hn as [[=] _]|].
      intros [_ Hnot]. destruct Hnot. left.
    + intros cs Hcs. right. destruct (Hsome cs Hcs) as [[[= <-] _] | (cats' & Hin & Hp)].
      * exists cats. split; [left|done].
      * exists cats'. split; [by right|done].
  - rewrite lookup_insert_ne in Hnone, Hsome by done. split.
    + rewrite Hnone. rewrite not_elem_of_cons. tauto.
    + intros cs Hcs. destruct (Hsome cs Hcs) as [[Hacc Hnot] | (cats' & Hin & Hp)].
      * left. split; [done|]. rewrite not_elem_of_cons. done.
      * right. exists cats'. split; [by right|done].
Qed.

(** X12.  A parser that [from_json] returns is an instance of a
    Python-level subclass (the extension types cannot be instantiated);
    its tag list is the list of the JSON targets, parsed, in their order;
    its category dictionary has exactly the words of the JSON dictionary,
    each with the parsed categories of one of its entries; and it has a
    tagger exactly when a non-empty tagger directory was passed. *)
Theorem from_json_parser cls json tagger_model_dir kw p :
  from_json cls json tagger_model_dir kw = inr p →
  cls_python_subclass cls = true ∧
  (∃ tl, tag_list p = Some tl ∧
     Forall2 (λ s c, Category_parse s = inr c) (json_targets json) tl) ∧
  (∃ cd, category_dict p = Some cd ∧
     ∀ word,
       (cd !! word = None ↔ word ∉ (json_cat_dict json).*1) ∧
       ∀ cs, cd !! word = Some cs →
         ∃ cats, (word, cats) ∈ json_cat_dict json ∧
           Forall2 (λ s c, Category_parse s = inr c) cats cs) ∧
  (tagger p = None ↔ tagger_model_dir = None ∨ tagger_model_dir = Some EmptyString).
Proof.
  unfold from_json.
  intros (ur & _ & (cd & Hcd & (tl & Htl & (sr0 & _ & (sr & _ &
    (parser & Hcons & Hload)%res_bind_inr)%res_bind_inr)%res_bind_inr)%res_bind_inr
    )%res_bind_inr)%res_bind_inr.
  unfold construct in Hcons.
  destruct (init_of _ _ _) as [[e|[]] self'] eqn:Hinit; [done|]. injection Hcons as ->.
  apply init_of_attributes in Hinit as (Hcd' & Htl' & _ & _ & Htg & Hdict).
  apply maybe_load_tagger_inr in Hload as (Htagger & Hcd'' & Htl'' & _).
  split.
  { unfold new_parser in Hdict. simpl in Hdict.
    by destruct (cls_python_subclass cls). }
  split.
  { exists tl. split; [by rewrite Htl''|]. by apply map_res_Forall2. }
  split.
  { exists cd. split; [by rewrite Hcd''|]. intros word.
    destruct (parse_cat_dict_lookup _ _ _ Hcd word) as [Hnone Hsome]. split.
    - rewrite Hnone, lookup_empty. tauto.
    - intros cs Hcs. destruct (Hsome cs Hcs) as [[Hempty _]|]; [|done].
      by rewrite lookup_empty in Hempty. }
  destruct Htagger as [[Ht Hdir] | (d & t & -> & Hd & _ & Ht)].
  - rewrite Ht, Htg. tauto.
  - rewrite Ht. split; [done|]. intros [[=] | [= ->]]. done.
Qed.

Lemma parse_root_cats_inr (l cats : list cat_or_str) :
  parse_root_cats l = inr cats →
  ∃ cs, cats = Cat <$> cs ∧
    Forall2 (λ x c, match x with
                    | Str s => Category_parse s = inr c
                    | Cat c' => c' = c
                    end) l cs.
Proof.
  unfold parse_root_cats. revert cats. induction l as [|x l IH]; intros cats; simpl.
  { intros [= <-]. exists []. split; [done|constructor]. }
  intros (y & Hy & (ys & Hys & [= <-])%res_bind_inr)%res_bind_inr.
  destruct (IH _ Hys) as (cs & -> & Hall).
  destruct x as [str|c].
  - apply res_bind_inr in Hy as (c & Hc & [= <-]).
    exists (c :: cs). split; [done|]. by constructor.
  - injection Hy as <-. exists (c :: cs). split; [done|]. by constructor.
Qed.

(** X13.  After [EnglishCCGParser.__init__] every root category the
    parser holds is a [Category] object -- a string passed is parsed, an
    object is kept, the order is that of the argument (or of the five
    defaults) -- and the binary rules are the ones passed unless that list
    is missing or empty, in which case they are the English defaults. *)
Theorem EnglishCCGParser_init_normalises a self self' :
  EnglishCCGParser_init a self = (inr tt, self') →
  (∃ cs, possible_root_cats self' = Some (Cat <$> cs) ∧
     Forall2 (λ x c, match x with
                     | Str s => Category_parse s = inr c
                     | Cat c' => c' = c
                     end)
       (default en_possible_root_cats (a_possible_root_cats a)) cs) ∧
  (a_binary_rules a = None ∨ a_binary_rules a = Some [] →
     binary_rules self' = Some en_default_binary_rules) ∧
  (∀ r rs, a_binary_rules a = Some (r :: rs) → binary_rules self' = Some (r :: rs)).
Proof.
  intros Hrun.
  destruct (EnglishCCGParser_init_returns _ _ _ Hrun) as [cats Hparse].
  destruct (EnglishCCGParser_init_state a self cats Hparse)
    as (out & self0 & Hrun' & Hbr & Hrc & _).
  rewrite Hrun in Hrun'. injection Hrun' as _ <-.
  split.
  { apply parse_root_cats_inr in Hparse as (cs & -> & Hall). by exists cs. }
  rewrite Hbr. split.
  - by intros [-> | ->].
  - by intros r rs ->.
Qed.

End loader_properties.

(** ** The properties above on the examples *)

Lemma build_terminal_constraints_returns_witness :
  ((example_run float32).1 = inr 1%positive ↔
     Forall (@applicable string_categories example_tag_list 2 2) example_constraints) ∧
  ((example_run float32).1 = inr 1%positive ∨ (example_run float32).1 = inl KeyError ∨
   (example_run float32).1 = inl IndexError).
Proof.
  apply (@build_terminal_constraints_returns string_categories
           example_constraints 1%positive example_tag_list (example_store float32)
           (example_matrix float32) 2 2 [] (example_run float32).1 (example_run float32).2).
  - reflexivity.
  - reflexivity.
  - apply surjective_pairing.
Defined.

Lemma build_terminal_constraints_unknown_category_witness :
  @build_terminal_constraints string_categories
    (example_constraints ++ [("VP", 0%Z)]) 1%positive example_tag_list (example_store float32)
  = (inl KeyError, (example_run float32).2).
Proof.
  apply (@build_terminal_constraints_unknown_category string_categories
           example_constraints [] "VP" 0%Z 1%positive example_tag_list
           (example_store float32) 1%positive (example_run float32).2).
  - reflexivity.
  - intros [Hx|[Hx|Hx%elem_of_nil]%elem_of_cons]%elem_of_cons; done.
Defined.

Lemma build_terminal_constraints_column_out_of_range_witness :
  ∃ a',
    @build_terminal_constraints string_categories
      [("NP", 0%Z)] 1%positive example_tag_list example_narrow_store
      = (inl IndexError, <[1%positive := a']> example_narrow_store) ∧
    ∀ j', j' < 1 → ndarray_get a' 0 j' = Some (cast float64 pseudo_neginf).
Proof.
  apply (@build_terminal_constraints_column_out_of_range string_categories
           "NP" 0%Z [] 1%positive example_tag_list example_narrow_store
           (mk_ndarray float64 [1; 1] [(-1)%float]) 1 1 1 0).
  - reflexivity.
  - reflexivity.
  - reflexivity.
  - reflexivity.
  - intros [|[|j']] Hj'; [lia|lia|done].
  - lia.
  - reflexivity.
Defined.

Lemma parse_doc_frame_witness :
  same_shapes example_batch_store example_constrained_run.2 ∧
  (∀ l, ¬ @constrained_tag_matrix string_categories
            (Some [[@Terminal string_categories "N" 0%Z]]) [(1%positive, 2%positive)] l →
     example_constrained_run.2 !! l = example_batch_store !! l) ∧
  (Some [[@Terminal string_categories "N" 0%Z]] = None →
     example_constrained_run.2 = example_batch_store).
Proof.
  apply (@parse_doc_frame string_categories first_row_engine
           (example_parser English) ["John"] [(1%positive, 2%positive)] None
           (Some [[@Terminal string_categories "N" 0%Z]]) example_batch_store
           example_constrained_run.1 example_constrained_run.2).
  apply surjective_pairing.
Defined.

Lemma parse_doc_engine_input_witness :
  ∃ cfg req,
    @convert_config string_categories first_row_engine (example_parser English) None
      = inr cfg ∧
    collect (lang (example_parser English)) (cfg_nbest cfg) (ParseSentences req) 0
      (length ["John"])
      = inr [[(@from_ptr string_categories first_row_engine "N" (Some "en"), (-1)%float)]] ∧
    csents req = ["John"] ∧ tag_list_ req = cfg_tag_list cfg ∧
    length (tags req) = length ["John"] ∧ length (deps req) = length ["John"] ∧
    length ["John"] ≤ length [(1%positive, 2%positive)] ∧
    ∀ i sent, ["John"] !! i = Some sent →
      ∃ pc pd cat dep,
        [(1%positive, 2%positive)] !! i = Some (pc, pd) ∧
        example_batch_store !! pc = Some cat ∧ example_batch_store !! pd = Some dep ∧
        arr_dtype cat = float32 ∧ arr_dtype dep = float32 ∧
        shape cat = [length (split_space sent); length (cfg_tag_list cfg)] ∧
        shape dep = [length (split_space sent); length (split_space sent) + 1] ∧
        0 < length (cfg_tag_list cfg) ∧
        tags req !! i = Some (data cat) ∧ deps req !! i = Some (data dep) ∧
        length (data cat) = length (split_space sent) * length (cfg_tag_list cfg) ∧
        length (data dep) = length (split_space sent) * (length (split_space sent) + 1).
Proof.
  apply (@parse_doc_engine_input string_categories first_row_engine
           (example_parser English) ["John"] [(1%positive, 2%positive)] None None
           example_batch_store _ example_batch_store).
  - intros l a Hl. unfold example_batch_store in Hl.
    repeat (apply lookup_insert_Some in Hl as [[_ <-]|[_ Hl]]; [reflexivity|]).
    apply lookup_singleton_Some in Hl as [_ <-]. reflexivity.
  - reflexivity.
Defined.

Lemma from_json_parser_witness :
  cls_python_subclass (python_subclass English) = true ∧
  (∃ tl, tag_list example_json_parser = Some tl ∧
     Forall2 (λ s c, @Category_parse string_categories s = inr c)
       (json_targets example_json) tl) ∧
  (∃ cd, category_dict example_json_parser = Some cd ∧
     ∀ word,
       (cd !! word = None ↔ word ∉ (json_cat_dict example_json).*1) ∧
       ∀ cs, cd !! word = Some cs →
         ∃ cats, (word, cats) ∈ json_cat_dict example_json ∧
           Forall2 (λ s c, @Category_parse string_categories s = inr c) cats cs) ∧
  (tagger example_json_parser = None ↔
     (None : option string) = None ∨ (None : option string) = Some EmptyString).
Proof.
  apply (@from_json_parser string_categories first_row_engine
           (python_subclass English) example_json None no_kwargs example_json_parser).
  reflexivity.
Defined.

Lemma EnglishCCGParser_init_normalises_witness :
  (∃ cs, possible_root_cats (example_parser English)
           = Some (@Cat string_categories <$> cs) ∧
     Forall2 (λ x c, match x with
                     | Str s => @Category_parse string_categories s = inr c
                     | Cat c' => c' = c
                     end)
       (default (@en_possible_root_cats string_categories)
          (a_possible_root_cats example_args)) cs) ∧
  (a_binary_rules example_args = None ∨ a_binary_rules example_args = Some [] →
     binary_rules (example_parser English)
       = Some (@en_default_binary_rules string_categories first_row_engine)) ∧
  (∀ r rs, a_binary_rules example_args = Some (r :: rs) →
     binary_rules (example_parser English) = Some (r :: rs)).
Proof.
  apply (@EnglishCCGParser_init_normalises string_categories first_row_engine
           example_args (new_parser (python_subclass English)) (example_parser English)).
  reflexivity.
Defined.

(** ** The entry points [parse_doc] and [parse_json] *)

Lemma PyJ_bind_inv {A B} (m : PyJ A) (f : A → PyJ B) s out s' :
  (m ≫= f) s = (out, s') →
  (∃ e, m s = (inl e, s') ∧ out = inl e) ∨
  (∃ x s1, m s = (inr x, s1) ∧ f x s1 = (out, s')).
Proof.
  unfold mbind, PyJ_bind. destruct (m s) as [[e|x] s1] eqn:Hm; intros Hf.
  - left. exists e. by inversion Hf.
  - right. by exists x, s1.
Qed.

Lemma python_inv {A} (m : Py store A) s out s' :
  python m s = (out, s') →
  (∃ e, m s = (inl e, s') ∧ out = inl (Raised e)) ∨
  (∃ x, m s = (inr x, s') ∧ out = inr x).
Proof.
  unfold python. destruct (m s) as [[e|x] s1]; intros [= <- <-]; eauto.
Qed.

Lemma python_lift_inv {A} (r : res A) s out s' :
  python (lift r) s = (out, s') →
  s' = s ∧ ((∃ e, r = inl e ∧ out = inl (Raised e)) ∨ (∃ x, r = inr x ∧ out = inr x)).
Proof.
  unfold python, lift. destruct r as [e|x]; intros [= <- <-]; eauto.
Qed.

Lemma alloc_subseteq a s out s' : alloc a s = (out, s') → s ⊆ s'.
Proof.
  unfold alloc. intros [= _ <-]. apply insert_subseteq.
  apply not_elem_of_dom. apply is_fresh.
Qed.

Section frontend_properties.
Context `{Frontend}.

(** A call of [_parse_doc_tag_and_dep] whose constraints hold no terminal
    constraint leaves the store as it is. *)
Lemma parse_doc_span_constraints_store self sents probs tag_list_arg constraints s out s' :
  (∀ cs, constraints = Some cs → Forall (λ c, terminal_of c = []) cs) →
  _parse_doc_tag_and_dep self sents probs tag_list_arg constraints s = (out, s') →
  s' = s.
Proof.
  intros Hspans [-> | (cfg & r & _ & Hprep)]%parse_doc_store; [done|].
  unfold prepare_constraints in Hprep.
  destruct constraints as [cs|]; [|by injection Hprep as <- <-].
  destruct (negb _); [by injection Hprep as <- <-|].
  specialize (Hspans cs eq_refl).
  assert (∀ o, load_constraints (zip cs probs) (cfg_unary_rules cfg) (cfg_tag_list cfg) s
                 = (o, s') → s' = s) as Hload.
  { intros o Hload. apply map_eq. intros l.
    eapply load_constraints_frame; [done|].
    intros c pd [i Hi]%list_elem_of_lookup.
    apply lookup_zip_with_Some in Hi as (c' & p' & [= <- <-] & Hc & Hp).
    rewrite Forall_forall in Hspans. apply Hspans. by eapply list_elem_of_lookup_2. }
  apply Py_bind_inv in Hprep as [(e & Hload' & ->) | ([cc np] & s1 & Hload' & [= <- <-])];
    by eapply Hload.
Qed.

(** X14.  When [parse_doc] returns, the batch was not empty (on an empty
    batch the unpacking of [zip( *...)] raises [ValueError]); there is one
    result list per sentence; a tagger was loaded if no matrices were
    passed; and if matrices were passed and no constraints, no array has
    changed. *)
Theorem parse_doc_returns self sents probs tag_list_arg constraints batchsize s res s' :
  parse_doc self sents probs tag_list_arg constraints batchsize s = (inr res, s') →
  sents ≠ [] ∧ length res = length sents ∧
  (probs = None → tagger self ≠ None) ∧
  (probs ≠ None → constraints = None → s' = s).
Proof.
  unfold parse_doc.
  intros [(e & _ & [=]) | (prs & s0 & Hpairs & Hrun)]%Py_bind_inv.
  unfold lift in Hpairs. injection Hpairs as Hpairs <-.
  apply Py_bind_inv in Hrun as [(e & _ & [=]) | ([splitted joined] & s0 & Hzip & Hrun)].
  unfold lift, unzip_pairs in Hzip.
  destruct prs as [|p prs'] eqn:Hp; [done|]. rewrite <- Hp in *.
  injection Hzip as <- <- <-.
  apply map_res_Forall2 in Hpairs. apply Forall2_length in Hpairs as Hlen.
  apply Py_bind_inv in Hrun as [(e & _ & [=]) | (probs' & s1 & Hprobs & Hrun)].
  apply parse_doc_result in Hrun as Hres.
  destruct Hres as (cfg & req & _ & _ & _ & Hlenres & _).
  rewrite length_fmap in Hlenres.
  split; [intros ->; subst prs; by apply Forall2_nil_inv_l in Hpairs|].
  split; [lia|]. split.
  - intros -> Ht. by rewrite Ht in Hprobs.
  - intros Hsome ->. destruct probs as [probs|]; [|done].
    injection Hprobs as <- <-.
    eapply parse_doc_span_constraints_store; [|exact Hrun]. by intros cs [=].
Qed.

(** X15.  On an empty batch [parse_doc] raises [ValueError], whatever the
    other arguments and before any array is touched, while [parse_json]
    returns the empty list, provided the attributes of the parser convert
    to the C configuration. *)
Theorem empty_batch self probs tag_list_arg constraints batchsize s cfg :
  convert_config self None = inr cfg →
  parse_doc self [] probs tag_list_arg constraints batchsize s = (inl ValueError, s) ∧
  parse_json self [] batchsize s = (inr [], s).
Proof.
  intros Hcfg. split; [reflexivity|].
  unfold parse_json. simpl.
  unfold mbind, PyJ_bind, mret, PyJ_ret, python. simpl.
  unfold _parse_doc_tag_and_dep, mbind, Py_bind, lift. by rewrite Hcfg.
Qed.

End frontend_properties.

(** ** [parse_json] *)

(** Splitting at the spaces and joining with spaces gives the string
    back. *)
Lemma rev_app_append (a b : string) : String.rev_app a b = String.rev_app a "" +:+ b.
Proof.
  revert b. induction a as [|c a IH]; intros b; simpl; [done|].
  rewrite (IH (String c b)), (IH (String c "")). clear IH.
  induction (String.rev_app a "") as [|c' r IHr]; [done|].
  exact (f_equal (String c') IHr).
Qed.

Lemma join_split_space_from cur s :
  join_space (split_space_from cur s) = String.rev_app cur s.
Proof.
  revert cur. induction s as [|c s IH]; intros cur; simpl; [done|].
  destruct (Ascii.eqb c " ") eqn:Hc.
  - apply Ascii.eqb_eq in Hc as ->.
    specialize (IH EmptyString). simpl in IH.
    destruct (split_space_from "" s) as [|w ws] eqn:Hsplit.
    { destruct s; simpl in Hsplit; [done|]. by destruct (Ascii.eqb _ _). }
    change (join_space (String.rev cur :: w :: ws))
      with (String.rev cur +:+ String " " (join_space (w :: ws))).
    rewrite IH. unfold String.rev. by rewrite (rev_app_append cur (String " " s)).
  - apply IH.
Qed.

Lemma join_split_space s : join_space (split_space s) = s.
Proof. apply join_split_space_from. Qed.

Lemma terminal_of_spans `{CategoryAPI} (c : list constraint) :
  Forall (λ cx, ∃ cat i j, cx = NonTerminal cat i j) c → terminal_of c = [].
Proof.
  unfold terminal_of. induction 1 as [|cx c (cat & i & j & ->) _ IH]; [done|]. done.
Qed.

Section parse_json_properties.
Context `{Frontend}.

Lemma json_matrix_subseteq x sh s out s' : json_matrix x sh s = (out, s') → s ⊆ s'.
Proof.
  unfold json_matrix, mbind, Py_bind, lift.
  destruct (np_array x) as [e|a]; [by intros [= _ <-]|].
  destruct (getitem sh) as [e|shape]; [by intros [= _ <-]|].
  destruct (reshape_astype_float32 a shape) as [e|m]; [by intros [= _ <-]|].
  apply alloc_subseteq.
Qed.

Lemma json_scores_run jd s out s' :
  json_scores jd s = (out, s') →
  s ⊆ s' ∧
  (out = inl NotImplementedError → jd_heads jd ≠ None ∧ jd_head_tags jd = None) ∧
  ∀ f e, out = inr (f, e) →
    (jd_heads jd ≠ None → jd_head_tags jd ≠ None) ∧
    (jd_heads jd = None → f ≠ None) ∧
    (f = None → ∃ tag dep, e = TagAndDep tag dep).
Proof.
  unfold json_scores.
  destruct (jd_heads jd) as [dep|], (jd_head_tags jd) as [tag|].
  - intros [(e & Hdep & ->) | (ld & s1 & Hdep & Hrun)]%PyJ_bind_inv.
    { apply python_inv in Hdep as [(e' & Hdep & [= ->]) | (? & _ & [=])].
      apply json_matrix_subseteq in Hdep. by repeat split. }
    apply python_inv in Hdep as [(e' & _ & [=]) | (? & Hdep & [= <-])].
    apply json_matrix_subseteq in Hdep.
    apply PyJ_bind_inv in Hrun as [(e & Htag & ->) | (lt & s2 & Htag & [= <- <-])].
    { apply python_inv in Htag as [(e' & Htag & [= ->]) | (? & _ & [=])].
      apply json_matrix_subseteq in Htag. split; [by etrans|]. by split. }
    apply python_inv in Htag as [(e' & _ & [=]) | (? & Htag & [= <-])].
    apply json_matrix_subseteq in Htag. split; [by etrans|]. split; [done|].
    intros f e [= <- <-]. repeat split; [done..|]. intros _. by exists lt, ld.
  - intros [= <- <-]. by repeat split.
  - intros [(e & Htag & ->) | (lt & s2 & Htag & [= <- <-])]%PyJ_bind_inv.
    { apply python_inv in Htag as [(e' & Htag & [= ->]) | (? & _ & [=])].
      apply json_matrix_subseteq in Htag. by repeat split. }
    apply python_inv in Htag as [(e' & _ & [=]) | (? & Htag & [= <-])].
    apply json_matrix_subseteq in Htag. split; [done|]. split; [done|].
    intros f e [= <- <-]. by repeat split.
  - intros [= <- <-]. split; [done|]. split; [done|].
    intros f e [= <- <-]. by repeat split.
Qed.

Lemma parse_json_entry_run st i jd s out s' :
  parse_json_entry st i jd s = (out, s') →
  s ⊆ s' ∧
  (out = inl NotImplementedError → jd_heads jd ≠ None ∧ jd_head_tags jd = None) ∧
  ∀ st', out = inr st' →
    jd_words jd ≠ None ∧ (jd_heads jd ≠ None → jd_head_tags jd ≠ None) ∧
    (jl_categories st = None →
       ∃ strs cats, jd_categories jd = Some strs ∧
         map_res Category_parse strs = inr cats ∧ jl_categories st' = Some cats) ∧
    (∀ cs, jl_categories st = Some cs → jl_categories st' = Some cs) ∧
    (∃ w words, jd_words jd = Some w ∧
       map_res denormalize (split_space w) = inr words ∧
       jl_sents st' = jl_sents st ++ [join_space words]) ∧
    jl_constraints st' = jl_constraints st ++ [default [] (jd_constraints jd)] ∧
    ∃ e new,
      jl_probs st' = jl_probs st ++ [e] ∧
      jl_unprocessed st' = jl_unprocessed st ++ new ∧
      (new = [] → ∃ tag dep, e = TagAndDep tag dep) ∧
      (jd_heads jd = None → new ≠ []).
Proof.
  unfold parse_json_entry.
  intros [(e & Hcat & ->) | (categories & s0 & Hcat & Hrun)]%PyJ_bind_inv.
  { apply python_lift_inv in Hcat as [-> [(e' & _ & [= ->]) | (? & _ & [=])]].
    by repeat split. }
  apply python_lift_inv in Hcat as [-> [(e' & _ & [=]) | (? & Hcat & [= <-])]].
  apply PyJ_bind_inv in Hrun as [(e & Hws & ->) | (ws & s0 & Hws & Hrun)].
  { apply python_lift_inv in Hws as [-> [(e' & _ & [= ->]) | (? & _ & [=])]].
    by repeat split. }
  apply python_lift_inv in Hws as [-> [(e' & _ & [=]) | (? & Hws & [= <-])]].
  apply PyJ_bind_inv in Hrun as [(e & Hden & ->) | (words & s0 & Hden & Hrun)].
  { apply python_lift_inv in Hden as [-> [(e' & _ & [= ->]) | (? & _ & [=])]].
    by repeat split. }
  apply python_lift_inv in Hden as [-> [(e' & _ & [=]) | (? & Hden & [= <-])]].
  apply PyJ_bind_inv in Hrun as [(e & Hsc & ->) | ([f td] & s1 & Hsc & [= <- <-])].
  { apply json_scores_run in Hsc as (Hsub & Hni & _). split; [done|].
    split; [intros [= ->]; by apply Hni|]. by intros st' [=]. }
  apply json_scores_run in Hsc as (Hsub & _ & Hok).
  destruct (Hok f td eq_refl) as (Hheads & Hf & Htd).
  split; [done|]. split; [done|]. intros st' [= <-]. simpl.
  assert (jd_words jd = Some ws) as Hw.
  { unfold getitem in Hws. destruct (jd_words jd); [by injection Hws as ->|done]. }
  split; [by rewrite Hw|]. split; [done|].
  split.
  { intros Hnone. rewrite Hnone in Hcat.
    apply res_bind_inr in Hcat as (strs & Hstrs & (cats & Hcats & [= <-])%res_bind_inr).
    exists strs, cats. split; [|done].
    unfold getitem in Hstrs. destruct (jd_categories jd); [by injection Hstrs as ->|done]. }
  split.
  { intros cs Hcs. rewrite Hcs in Hcat. by injection Hcat as <-. }
  split; [by exists ws, words|]. split; [done|].
  destruct f as [f|].
  - exists td, [(i, (f, words))]. by repeat split.
  - exists td, []. rewrite app_nil_r. split; [done|]. split; [done|].
    split; [by intros _; apply Htd|]. intros Hnone. by destruct (Hf Hnone).
Qed.

Lemma parse_json_loop_run st i json_input s out s' :
  parse_json_loop st i json_input s = (out, s') →
  s ⊆ s' ∧
  (out = inl NotImplementedError →
     ∃ before jd after, json_input = before ++ jd :: after ∧
       jd_heads jd ≠ None ∧ jd_head_tags jd = None ∧
       Forall (λ jd', jd_heads jd' ≠ None → jd_head_tags jd' ≠ None) before) ∧
  ∀ st', out = inr st' →
    Forall (λ jd, jd_words jd ≠ None ∧ (jd_heads jd ≠ None → jd_head_tags jd ≠ None))
      json_input ∧
    (jl_categories st = None → ∀ jd rest, json_input = jd :: rest →
       ∃ strs cats, jd_categories jd = Some strs ∧
         map_res Category_parse strs = inr cats ∧ jl_categories st' = Some cats) ∧
    (∀ cs, jl_categories st = Some cs → jl_categories st' = Some cs) ∧
    (∃ new_sents, jl_sents st' = jl_sents st ++ new_sents ∧
       Forall2 (λ jd sent, ∃ w words, jd_words jd = Some w ∧
                  map_res denormalize (split_space w) = inr words ∧
                  sent = join_space words) json_input new_sents) ∧
    jl_constraints st' =
      jl_constraints st ++ ((λ jd, default [] (jd_constraints jd)) <$> json_input) ∧
    ∃ new_probs new,
      jl_probs st' = jl_probs st ++ new_probs ∧
      length new_probs = length json_input ∧
      jl_unprocessed st' = jl_unprocessed st ++ new ∧
      (new = [] → Forall (λ e, ∃ tag dep, e = TagAndDep tag dep) new_probs) ∧
      (Exists (λ jd, jd_heads jd = None) json_input → new ≠ []).
Proof.
  revert st i s. induction json_input as [|jd rest IH]; intros st i s.
  { intros [= <- <-]. split; [done|]. split; [done|]. intros st' [= <-].
    split; [constructor|]. split; [done|]. split; [done|].
    split; [exists []; rewrite app_nil_r; split; [done|constructor]|].
    split; [by rewrite app_nil_r|].
    exists [], []. rewrite !app_nil_r. split; [done|]. split; [done|]. split; [done|].
    split; [constructor|]. by intros ?%Exists_nil. }
  change (parse_json_loop st i (jd :: rest))
    with (parse_json_entry st i jd ≫= λ st', parse_json_loop st' (S i) rest).
  intros [(e & Hentry & ->) | (st1 & s1 & Hentry & Hrest)]%PyJ_bind_inv.
  { apply parse_json_entry_run in Hentry as (Hsub & Hni & _).
    split; [done|]. split; [|by intros st' [=]].
    intros [= ->]. destruct (Hni eq_refl) as [Hh Ht].
    exists [], jd, rest. by repeat split. }
  apply parse_json_entry_run in Hentry as (Hsub1 & _ & Hok1).
  destruct (Hok1 st1 eq_refl)
    as (Hw & Hheads & Hcats & Hkeep & (w & words & Hjw & Hden & Hsents1) & Hcons1 &
        e1 & new1 & Hprobs1 & Hunp1 & Hscored1 & Hnew1).
  apply IH in Hrest as (Hsub2 & Hni2 & Hok2).
  split; [by etrans|]. split.
  { intros Hni. destruct (Hni2 Hni) as (before & jd' & after & -> & Hh & Ht & Hbefore).
    exists (jd :: before), jd', after. repeat split; [done..|]. by constructor. }
  intros st' Hst'.
  destruct (Hok2 st' Hst')
    as (Hall & _ & Hkeep2 & (new_sents & Hsents2 & Hsents) & Hcons2 &
        new_probs & new2 & Hprobs2 & Hlen2 & Hunp2 & Hscored2 & Hnew2).
  split; [by constructor|].
  split.
  { intros Hnone jd0 rest0 [= <- _].
    destruct (Hcats Hnone) as (strs & cats & Hstrs & Hparse & Hst1).
    exists strs, cats. repeat split; [done..|]. by apply Hkeep2. }
  split; [by intros cs Hcs; apply Hkeep2, Hkeep|].
  split.
  { exists (join_space words :: new_sents). split.
    - by rewrite Hsents2, Hsents1, <- app_assoc.
    - constructor; [by exists w, words|done]. }
  split; [by rewrite Hcons2, Hcons1, <- app_assoc|].
  exists (e1 :: new_probs), (new1 ++ new2).
  split; [by rewrite Hprobs2, Hprobs1, <- app_assoc|].
  split; [simpl; lia|].
  split; [by rewrite Hunp2, Hunp1, <- app_assoc|].
  split.
  - intros [-> ->]%app_eq_nil. constructor; auto.
  - intros [Hh | Hex]%Exists_cons.
    + intros [Hn _]%app_eq_nil. by apply Hnew1.
    + intros [_ Hn]%app_eq_nil. by apply Hnew2.
Qed.

Lemma assign_unprocessed_subseteq self batchsize st s out s' :
  (∀ t w b s0 o s1, predict_doc t w b s0 = (o, s1) → s0 ⊆ s1) →
  assign_unprocessed self batchsize st s = (out, s') → s ⊆ s'.
Proof.
  intros Hpredict. unfold assign_unprocessed.
  destruct (jl_unprocessed st) as [|u us]; [by intros [= _ <-]|].
  unfold mbind at 1, Py_bind at 1.
  destruct (tagger self) as [t|]; [|by intros [= _ <-]]. simpl.
  intros [(e & Hp & ->) | (new & s1 & Hp & Hrun)]%Py_bind_inv.
  { by eapply Hpredict. }
  apply Hpredict in Hp.
  unfold mbind, Py_bind, lift in Hrun.
  destruct (assign_new _ _) as [e|probs]; [by injection Hrun as _ <-|].
  destruct (assert_all_scored probs) as [e|[]]; by injection Hrun as _ <-.
Qed.

Lemma assert_all_scored_inr probs :
  assert_all_scored probs = inr tt → Forall (λ e, ∃ tag dep, e = TagAndDep tag dep) probs.
Proof.
  induction probs as [|[| |tag dep] probs IH]; simpl; [constructor|done|done|].
  intros Hrest. constructor; [by exists tag, dep|by apply IH].
Qed.

Lemma assign_new_length {A} (todo : list ((nat * (process_fun * A)) * (loc * loc)))
    probs probs' :
  assign_new todo probs = inr probs' → length probs' = length probs.
Proof.
  revert probs. induction todo as [|[[i [f a]] new] todo IH]; intros probs; simpl.
  { by intros [= <-]. }
  intros (old & _ & (p0 & _ & Hrest)%res_bind_inr)%res_bind_inr.
  apply IH in Hrest. by rewrite length_insert in Hrest.
Qed.

Lemma assign_unprocessed_inr self batchsize st s probs s' :
  assign_unprocessed self batchsize st s = (inr probs, s') →
  (jl_unprocessed st ≠ [] → tagger self ≠ None) ∧
  (jl_unprocessed st = [] → probs = jl_probs st) ∧
  (jl_unprocessed st ≠ [] → Forall (λ e, ∃ tag dep, e = TagAndDep tag dep) probs) ∧
  length probs = length (jl_probs st).
Proof.
  unfold assign_unprocessed.
  destruct (jl_unprocessed st) as [|u us]; [by intros [= <- <-]|].
  unfold mbind at 1, Py_bind at 1.
  destruct (tagger self) as [t|]; [|by intros [=]]. simpl.
  intros [(e & _ & [=]) | (new & s1 & _ & Hrun)]%Py_bind_inv.
  unfold mbind, Py_bind, lift in Hrun.
  destruct (assign_new _ _) as [e|probs'] eqn:Hnew; [done|].
  destruct (assert_all_scored probs') as [e|[]] eqn:Hall; [done|].
  injection Hrun as <- <-. split; [done|]. split; [done|].
  split; [intros _; by apply assert_all_scored_inr|].
  by eapply assign_new_length.
Qed.

Lemma convert_json_constraints_inr constraints r :
  convert_json_constraints constraints = inr r →
  Forall (Forall (λ cx, ∃ cat i j, cx = JC3 cat i j)) constraints ∧
  ∀ cs, r = Some cs → Forall (λ c, terminal_of c = []) cs.
Proof.
  unfold convert_json_constraints.
  destruct (forallb _ constraints) eqn:Hempty.
  { intros [= <-]. split; [|done].
    apply Is_true_true_2, forallb_True in Hempty. eapply Forall_impl; [exact Hempty|].
    intros cxs Hlen. apply bool_decide_unpack in Hlen.
    destruct cxs; [constructor|done]. }
  intros (cs & Hcs & [= <-])%res_bind_inr.
  apply map_res_Forall2 in Hcs. split.
  - eapply Forall2_Forall_l; [exact Hcs|]. apply Forall_true.
    intros cxs c Hc%map_res_Forall2.
    eapply Forall2_Forall_l; [exact Hc|]. apply Forall_true.
    intros y [cat i|cat i j] Hcx; [done|]. by exists cat, i, j.
  - intros ? [= <-].
    eapply Forall2_Forall_r; [exact Hcs|]. apply Forall_true.
    intros cxs c Hc%map_res_Forall2. apply terminal_of_spans.
    eapply Forall2_Forall_r; [exact Hc|]. apply Forall_true.
    intros [cat i|cat i j] cx Hcx; [done|].
    apply res_bind_inr in Hcx as (c0 & _ & [= <-]). by eexists _, _, _.
Qed.

Lemma omap_scores_of_scored probs :
  Forall (λ e, ∃ tag dep, e = TagAndDep tag dep) probs →
  length (omap scores_of probs) = length probs.
Proof.
  induction 1 as [|e probs (tag & dep & ->) _ IH]; [done|]. simpl. f_equal. exact IH.
Qed.

(** What [parse_json] has when it calls [_parse_doc_tag_and_dep]. *)
Lemma parse_json_inr self json_input batchsize s res s' :
  parse_json self json_input batchsize s = (inr res, s') →
  ∃ st s1 probs s2 constraints,
    parse_json_loop (mk_json_loop None [] [] [] []) 0 json_input s = (inr st, s1) ∧
    assign_unprocessed self batchsize st s1 = (inr probs, s2) ∧
    convert_json_constraints (jl_constraints st) = inr constraints ∧
    _parse_doc_tag_and_dep self (jl_sents st) (omap scores_of probs)
      (jl_categories st) constraints s2 = (inr res, s').
Proof.
  unfold parse_json.
  intros [(e & _ & [=]) | (st & s1 & Hloop & Hrun)]%PyJ_bind_inv.
  apply PyJ_bind_inv in Hrun as [(e & _ & [=]) | (probs & s2 & Hassign & Hrun)].
  apply python_inv in Hassign as [(e' & _ & [=]) | (? & Hassign & [= <-])].
  apply PyJ_bind_inv in Hrun as [(e & _ & [=]) | (constraints & s3 & Hconv & Hrun)].
  apply python_lift_inv in Hconv as [-> [(e' & _ & [=]) | (? & Hconv & [= <-])]].
  apply python_inv in Hrun as [(e' & _ & [=]) | (? & Hrun & [= <-])].
  by exists st, s1, probs, s2, constraints.
Qed.

(** X16.  When [parse_json] returns, there is one result list per entry
    of the input; the first entry has the key [categories]; every entry
    has the key [words], has [head_tags] if it has [heads], and has only
    three-element constraints (a two-element, terminal constraint raises
    [ValueError]); and a tagger was loaded if some entry lacks [heads]. *)
Theorem parse_json_accepts self json_input batchsize s res s' :
  parse_json self json_input batchsize s = (inr res, s') →
  length res = length json_input ∧
  (∀ jd rest, json_input = jd :: rest → jd_categories jd ≠ None) ∧
  Forall (λ jd, jd_words jd ≠ None ∧ (jd_heads jd ≠ None → jd_head_tags jd ≠ None) ∧
                ∀ cx, cx ∈ default [] (jd_constraints jd) → ∃ cat i j, cx = JC3 cat i j)
    json_input ∧
  (Exists (λ jd, jd_heads jd = None) json_input → tagger self ≠ None).
Proof.
  intros (st & s1 & probs & s2 & constraints & Hloop & Hassign & Hconv & Hrun)%parse_json_inr.
  apply parse_json_loop_run in Hloop as (_ & _ & Hok).
  destruct (Hok st eq_refl)
    as (Hall & Hcats & _ & (new_sents & Hsents & Hs2) & Hcons &
        new_probs & new & Hprobs & _ & Hunp & _ & Hnew).
  simpl in *.
  apply assign_unprocessed_inr in Hassign as (Htagger & _ & _ & _).
  apply convert_json_constraints_inr in Hconv as [Hjc _].
  apply parse_doc_result in Hrun as (cfg & req & _ & _ & _ & Hlen & _).
  split; [rewrite Hlen, Hsents; by apply Forall2_length in Hs2|].
  split.
  { intros jd rest Hin. destruct (Hcats eq_refl jd rest Hin) as (strs & _ & -> & _). done. }
  split.
  { rewrite Hcons, Forall_fmap in Hjc. rewrite Forall_forall in Hall, Hjc.
    apply Forall_forall. intros jd Hjd. destruct (Hall jd Hjd) as [Hw Hh].
    split; [done|]. split; [done|].
    specialize (Hjc jd Hjd). simpl in Hjc. by rewrite Forall_forall in Hjc. }
  intros Hex. apply Htagger. rewrite Hunp. by apply Hnew.
Qed.

(** X17.  [parse_json] raises [NotImplementedError] only for an entry
    that has [heads] and no [head_tags], the first such entry of the
    input. *)
Theorem parse_json_not_implemented self json_input batchsize s s' :
  parse_json self json_input batchsize s = (inl NotImplementedError, s') →
  ∃ before jd after,
    json_input = before ++ jd :: after ∧
    jd_heads jd ≠ None ∧ jd_head_tags jd = None ∧
    Forall (λ jd', jd_heads jd' ≠ None → jd_head_tags jd' ≠ None) before.
Proof.
  unfold parse_json.
  intros [(e & Hloop & [= <-]) | (st & s1 & _ & Hrun)]%PyJ_bind_inv.
  { apply parse_json_loop_run in Hloop as (_ & Hni & _). by apply Hni. }
  apply PyJ_bind_inv in Hrun as [(e & Hassign & [= <-]) | (probs & s2 & _ & Hrun)].
  { by apply python_inv in Hassign as [(e' & _ & [=]) | (? & _ & [=])]. }
  apply PyJ_bind_inv in Hrun as [(e & Hconv & [= <-]) | (constraints & s3 & _ & Hrun)].
  { by apply python_inv in Hconv as [(e' & _ & [=]) | (? & _ & [=])]. }
  by apply python_inv in Hrun as [(e' & _ & [=]) | (? & _ & [=])].
Qed.

(** X18.  With a tagger that only creates arrays, [parse_json] changes
    no array that existed before the call, whether it returns or raises:
    the matrices it parses are new arrays, and the constraints it passes on
    are span constraints, which touch no matrix. *)
Theorem parse_json_keeps_arrays self json_input batchsize s out s' :
  (∀ t w b s0 o s1, predict_doc t w b s0 = (o, s1) → s0 ⊆ s1) →
  parse_json self json_input batchsize s = (out, s') →
  s ⊆ s'.
Proof.
  intros Hpredict. unfold parse_json.
  intros [(e & Hloop & _) | (st & s1 & Hloop & Hrun)]%PyJ_bind_inv.
  { by apply parse_json_loop_run in Hloop as (? & _). }
  apply parse_json_loop_run in Hloop as (Hsub1 & _).
  apply PyJ_bind_inv in Hrun as [(e & Hassign & _) | (probs & s2 & Hassign & Hrun)].
  { apply python_inv in Hassign as [(e' & Hassign & _) | (? & Hassign & _)];
      apply (assign_unprocessed_subseteq _ _ _ _ _ _ Hpredict) in Hassign; by etrans. }
  apply python_inv in Hassign as [(e' & _ & [=]) | (? & Hassign & [= <-])].
  apply (assign_unprocessed_subseteq _ _ _ _ _ _ Hpredict) in Hassign.
  apply PyJ_bind_inv in Hrun as [(e & Hconv & _) | (constraints & s3 & Hconv & Hrun)].
  { apply python_lift_inv in Hconv as [-> _]. by etrans. }
  apply python_lift_inv in Hconv as [-> [(e' & _ & [=]) | (? & Hconv & [= <-])]].
  apply convert_json_constraints_inr in Hconv as [_ Hspans].
  assert (s' = s2) as ->; [|by etrans].
  apply python_inv in Hrun as [(e' & Hrun & _) | (? & Hrun & _)];
    by eapply parse_doc_span_constraints_store.
Qed.

(** X19.  When no word of the input is changed by [denormalize],
    [parse_json] returns what [_parse_doc_tag_and_dep] returns for the
    [words] strings of the entries, character for character and in their
    order, with one pair of matrices for each and with the parsed
    [categories] of the first entry as the tag list. *)
Theorem parse_json_call self json_input batchsize s res s' :
  (∀ jd w word, jd ∈ json_input → jd_words jd = Some w → word ∈ split_space w →
     denormalize word = inr word) →
  parse_json self json_input batchsize s = (inr res, s') →
  ∃ probs tl constraints s0,
    _parse_doc_tag_and_dep self (omap jd_words json_input) probs tl constraints s0
      = (inr res, s') ∧
    length probs = length json_input ∧
    ∀ jd rest, json_input = jd :: rest →
      ∃ strs cats, jd_categories jd = Some strs ∧
        map_res Category_parse strs = inr cats ∧ tl = Some cats.
Proof.
  intros Hden
    (st & s1 & probs & s2 & constraints & Hloop & Hassign & Hconv & Hrun)%parse_json_inr.
  apply parse_json_loop_run in Hloop as (_ & _ & Hok).
  destruct (Hok st eq_refl)
    as (_ & Hcats & _ & (new_sents & Hsents & Hs2) & _ &
        new_probs & new & Hprobs & Hlen & Hunp & Hscored & _).
  simpl in *.
  exists (omap scores_of probs), (jl_categories st), constraints, s2.
  split.
  { rewrite Hsents in Hrun.
    assert (new_sents = omap jd_words json_input) as <-; [|done].
    clear -Hs2 Hden. induction Hs2 as [|jd sent rest sents (w & words & Hw & Hd & ->) _ IH].
    { done. }
    simpl. rewrite Hw. simpl. f_equal.
    - assert (words = split_space w) as ->; [|apply join_split_space].
      assert (∀ word, word ∈ split_space w → denormalize word = inr word) as Hid.
      { intros word Hin. apply (Hden jd w word); [left|done..]. }
      clear -Hd Hid. revert words Hd.
      induction (split_space w) as [|x l IHl]; intros words; simpl.
      { by intros [= <-]. }
      rewrite (Hid x) by left. simpl.
      intros (ys & Hys & [= <-])%res_bind_inr. f_equal.
      apply IHl; [|done]. intros word Hin. apply Hid. by right.
    - apply IH. intros jd' w' word Hin. apply Hden. by right. }
  split.
  { apply assign_unprocessed_inr in Hassign as (_ & Hsame & Hall & Hlenp).
    rewrite omap_scores_of_scored, Hlenp, Hprobs; [done|].
    destruct (decide (jl_unprocessed st = [])) as [Hnil|Hne]; [|auto].
    rewrite (Hsame Hnil), Hprobs. apply Hscored. by rewrite <- Hunp. }
  intros jd rest Hin. by apply (Hcats eq_refl jd rest).
Qed.

End parse_json_properties.

(** ** [Cacheable]: the ids *)

Lemma run_constructors_spec schedule st st' :
  run_constructors schedule st = inr st' →
  ids st' = (ids st + Z.of_nat (length schedule))%Z ∧
  constructed st' =
    constructed st ++ zip schedule (seqZ (ids st) (Z.of_nat (length schedule))) ∧
  (schedule ≠ [] → (ids st' ≤ INT_MAX)%Z).
Proof.
  revert st. induction schedule as [|t schedule IH]; intros st; simpl.
  { intros [= <-]. split; [lia|]. split; [by rewrite app_nil_r|done]. }
  unfold Cacheable_new at 1. case_bool_decide as Hlt; [|done]. simpl.
  intros (Hids & Hcons & Hmax)%IH. simpl in *.
  split; [lia|]. split.
  - rewrite Hcons, <- app_assoc. f_equal.
    rewrite Nat2Z.inj_succ, (seqZ_cons (ids st)) by lia.
    replace (Z.pred (Z.succ (Z.of_nat (length schedule))))
      with (Z.of_nat (length schedule)) by lia.
    by replace (Z.succ (ids st)) with (ids st + 1)%Z by lia.
  - intros _. destruct schedule as [|t' schedule]; [simpl in *; lia|]. by apply Hmax.
Qed.

Lemma run_constructors_returns schedule st :
  (ids st + Z.of_nat (length schedule) ≤ INT_MAX)%Z →
  ∃ st', run_constructors schedule st = inr st'.
Proof.
  revert st. induction schedule as [|t schedule IH]; intros st Hle; simpl; [eauto|].
  unfold Cacheable_new. simpl in Hle. rewrite bool_decide_true by lia. simpl.
  apply IH. simpl. lia.
Qed.

(** X20.  In every interleaving of constructor calls that starts from
    the initial counter and constructs at most [INT_MAX] objects, every
    call returns, the objects get the ids 0, 1, 2, ... in the order of
    their atomic steps, no two objects get the same id, and the counter
    ends at the number of objects. *)
Theorem Cacheable_ids_unique schedule :
  (Z.of_nat (length schedule) ≤ INT_MAX)%Z →
  ∃ st',
    run_constructors schedule Cacheable_initial = inr st' ∧
    ids st' = Z.of_nat (length schedule) ∧
    (constructed st').*1 = schedule ∧
    (constructed st').*2 = seqZ 0 (Z.of_nat (length schedule)) ∧
    NoDup (constructed st').*2.
Proof.
  intros Hle.
  destruct (run_constructors_returns schedule Cacheable_initial) as [st' Hrun];
    [simpl; lia|].
  exists st'. split; [done|].
  apply run_constructors_spec in Hrun as (Hids & Hcons & _). simpl in *.
  assert (length (seqZ 0 (Z.of_nat (length schedule))) = length schedule) as Hlen.
  { rewrite length_seqZ. lia. }
  split; [lia|]. rewrite Hcons.
  split; [by rewrite fst_zip by lia|].
  rewrite snd_zip by lia. split; [done|]. apply NoDup_seqZ.
Qed.

(** ** The entry points and the ids on the examples *)

Lemma parse_doc_returns_witness :
  [Joined "John"] ≠ [] ∧
  length [[(@from_ptr string_categories first_row_engine "N" (Some "en"), (-1)%float)]]
    = length [Joined "John"] ∧
  (Some [(1%positive, 2%positive)] = None → tagger (example_parser English) ≠ None) ∧
  (Some [(1%positive, 2%positive)] ≠ None →
     (None : option (list (list (@constraint string_categories)))) = None →
     example_batch_store = example_batch_store).
Proof.
  apply (@parse_doc_returns string_categories first_row_engine example_frontend
           (example_parser English) [Joined "John"] (Some [(1%positive, 2%positive)])
           None None 16%Z example_batch_store).
  reflexivity.
Defined.

Lemma empty_batch_witness :
  @parse_doc string_categories first_row_engine example_frontend
    (example_parser English) [] None None None 16%Z example_batch_store
    = (inl ValueError, example_batch_store) ∧
  @parse_json string_categories first_row_engine example_frontend
    (example_parser English) [] 16%Z example_batch_store
    = (inr [], example_batch_store).
Proof.
  apply (@empty_batch string_categories first_row_engine example_frontend
           (example_parser English) None None None 16%Z example_batch_store example_cfg).
  reflexivity.
Defined.

Lemma parse_json_accepts_witness :
  length [[(@from_ptr string_categories first_row_engine "N" (Some "en"), (-1)%float)]]
    = length [example_entry] ∧
  (∀ jd rest, [example_entry] = jd :: rest → jd_categories jd ≠ None) ∧
  Forall (λ jd, jd_words jd ≠ None ∧ (jd_heads jd ≠ None → jd_head_tags jd ≠ None) ∧
                ∀ cx, cx ∈ default [] (jd_constraints jd) → ∃ cat i j, cx = JC3 cat i j)
    [example_entry] ∧
  (Exists (λ jd, jd_heads jd = None) [example_entry] →
     tagger (example_parser English) ≠ None).
Proof.
  apply (@parse_json_accepts string_categories first_row_engine example_frontend
           (example_parser English) [example_entry] 16%Z ∅ _ example_json_run.2).
  reflexivity.
Defined.

Lemma parse_json_not_implemented_witness :
  ∃ before jd after,
    [example_entry; example_entry_heads_only] = before ++ jd :: after ∧
    jd_heads jd ≠ None ∧ jd_head_tags jd = None ∧
    Forall (λ jd', jd_heads jd' ≠ None → jd_head_tags jd' ≠ None) before.
Proof.
  apply (@parse_json_not_implemented string_categories first_row_engine example_frontend
           (example_parser English) [example_entry; example_entry_heads_only] 16%Z ∅
           (@parse_json string_categories first_row_engine example_frontend
              (example_parser English) [example_entry; example_entry_heads_only] 16%Z ∅).2).
  reflexivity.
Defined.

Lemma parse_json_keeps_arrays_witness :
  example_batch_store ⊆
    (@parse_json string_categories first_row_engine example_frontend
       (example_parser English) [example_entry] 16%Z example_batch_store).2.
Proof.
  apply (@parse_json_keeps_arrays string_categories first_row_engine example_frontend
           (example_parser English) [example_entry] 16%Z example_batch_store
           (@parse_json string_categories first_row_engine example_frontend
              (example_parser English) [example_entry] 16%Z example_batch_store).1).
  - intros t w b s0 o s1 [= _ <-]. reflexivity.
  - apply surjective_pairing.
Defined.

Lemma parse_json_call_witness :
  ∃ probs tl constraints s0,
    @_parse_doc_tag_and_dep string_categories first_row_engine
      (example_parser English) (omap jd_words [example_entry]) probs tl constraints s0
      = (inr [[(@from_ptr string_categories first_row_engine "N" (Some "en"),
                (-1)%float)]], example_json_run.2) ∧
    length probs = length [example_entry] ∧
    ∀ jd rest, [example_entry] = jd :: rest →
      ∃ strs cats, jd_categories jd = Some strs ∧
        map_res (@Category_parse string_categories) strs = inr cats ∧ tl = Some cats.
Proof.
  apply (@parse_json_call string_categories first_row_engine example_frontend
           (example_parser English) [example_entry] 16%Z ∅).
  - intros jd w word _ _ _. reflexivity.
  - reflexivity.
Defined.

Lemma Cacheable_ids_unique_witness :
  ∃ st',
    run_constructors [0; 1; 0] Cacheable_initial = inr st' ∧
    ids st' = Z.of_nat (length [0; 1; 0]) ∧
    (constructed st').*1 = [0; 1; 0] ∧
    (constructed st').*2 = seqZ 0 (Z.of_nat (length [0; 1; 0])) ∧
    NoDup (constructed st').*2.
Proof.
  apply (Cacheable_ids_unique [0; 1; 0]).
  unfold INT_MAX. simpl. lia.
Defined.

(** ** More matrices than sentences *)

Lemma zip_app_longer {A B} (l : list A) (k extra : list B) :
  length l ≤ length k → zip l (k ++ extra) = zip l k.
Proof.
  revert k. induction l as [|x l IH]; intros [|y k] Hlen; simpl in *; try done; try lia.
  f_equal. apply IH. lia.
Qed.

Section extra_matrices.
Context `{Engine}.

(** X21.  Pairs of matrices beyond the last sentence are treated
    differently with and without constraints.  With constraints, the list
    of matrices is rebuilt by a [zip] with the constraints, which drops
    them: the call behaves as if they had not been passed.  Without
    constraints the shape loop walks all pairs: the call returns only if
    there are exactly as many pairs as sentences. *)
Theorem parse_doc_extra_matrices self sents probs extra tag_list_arg constraints s :
  length constraints ≤ length probs →
  _parse_doc_tag_and_dep self sents (probs ++ extra) tag_list_arg (Some constraints) s
    = _parse_doc_tag_and_dep self sents probs tag_list_arg (Some constraints) s ∧
  ∀ res s',
    _parse_doc_tag_and_dep self sents (probs ++ extra) tag_list_arg None s = (inr res, s') →
    length (probs ++ extra) = length sents.
Proof.
  intros Hlen. split.
  { unfold _parse_doc_tag_and_dep, prepare_constraints.
    by rewrite zip_app_longer. }
  intros res s'
    (cfg & cc & probs' & s1 & checked & _ & Hprep & Hcheck & Hdoc & _)%parse_doc_inr.
  injection Hprep as <- <- <-.
  apply check_shapes_checked in Hcheck as [Hchecked Hq].
  apply Nat.le_antisymm; [|lia].
  destruct (decide (length (probs ++ extra) ≤ length sents)) as [|Hgt]; [done|].
  destruct (lookup_lt_is_Some_2 (probs ++ extra) (length sents)) as [[pc pd] Hp]; [lia|].
  destruct (Hq _ _ _ Hp) as (sent & _ & _ & Hsent & _).
  apply lookup_lt_Some in Hsent. simpl in Hsent. lia.
Qed.

End extra_matrices.

Lemma parse_doc_extra_matrices_witness :
  @_parse_doc_tag_and_dep string_categories first_row_engine (example_parser English)
    ["John"] ([(1%positive, 2%positive)] ++ [(3%positive, 5%positive)]) None
    (Some [[@Terminal string_categories "N" 0%Z]]) example_batch_store
  = @_parse_doc_tag_and_dep string_categories first_row_engine (example_parser English)
      ["John"] [(1%positive, 2%positive)] None
      (Some [[@Terminal string_categories "N" 0%Z]]) example_batch_store ∧
  ∀ res s',
    @_parse_doc_tag_and_dep string_categories first_row_engine (example_parser English)
      ["John"] ([(1%positive, 2%positive)] ++ [(3%positive, 5%positive)]) None None
      example_batch_store = (inr res, s') →
    length ([(1%positive, 2%positive)] ++ [(3%positive, 5%positive)]) = length ["John"].
Proof.
  apply (@parse_doc_extra_matrices string_categories first_row_engine
           (example_parser English) ["John"] [(1%positive, 2%positive)]
           [(3%positive, 5%positive)] None [[@Terminal string_categories "N" 0%Z]]
           example_batch_store).
  simpl. lia.
Defined.

(** ** [parse_json]: the matrices that reach the parser *)

Lemma insert_item_perm {A} (x : nat * A) l : insert_item x l ≡ₚ x :: l.
Proof.
  induction l as [|y l IH]; simpl; [done|].
  case_bool_decide; [done|]. rewrite IH. apply Permutation_swap.
Qed.

Lemma sorted_items_perm {A} (l : list (nat * A)) : sorted_items l ≡ₚ l.
Proof.
  unfold sorted_items. induction l as [|x l IH]; simpl; [done|].
  by rewrite insert_item_perm, IH.
Qed.

Lemma assign_new_keeps {A} (todo : list ((nat * (process_fun * A)) * (loc * loc)))
    probs probs' :
  assign_new todo probs = inr probs' →
  NoDup todo.*1.*1 →
  (∀ k f a new, ((k, (f, a)), new) ∈ todo →
     ∃ p, probs !! k = Some p ∧ dep_of p = None ∧ (f = TakeNew → p = NoScores)) →
  ∀ k p, probs !! k = Some p →
    ∃ p', probs' !! k = Some p' ∧
      (∀ l, tag_of p = Some l → tag_of p' = Some l) ∧
      (∀ l, dep_of p = Some l → dep_of p' = Some l).
Proof.
  revert probs. induction todo as [|[[i [f a]] new] todo IH]; intros probs; simpl.
  { intros [= <-] _ _ k p Hk. by exists p. }
  intros (old & Hold & (q & Hq & Hrest)%res_bind_inr)%res_bind_inr
    [Hi Hnodup]%NoDup_cons Hpre k p Hk.
  destruct (probs !! i) as [old'|] eqn:Hi'; [|done]. injection Hold as ->.
  destruct (Hpre i f a new) as (p0 & Hp0 & Hdep0 & Htake); [left|].
  rewrite Hi' in Hp0. injection Hp0 as <-.
  assert (∃ p1, <[i := q]> probs !! k = Some p1 ∧
            (∀ l, tag_of p = Some l → tag_of p1 = Some l) ∧
            (∀ l, dep_of p = Some l → dep_of p1 = Some l)) as (p1 & Hp1 & Htag1 & Hdep1).
  { destruct (decide (k = i)) as [->|Hne].
    - exists q. split.
      + apply list_lookup_insert_eq. by eapply lookup_lt_Some.
      + rewrite Hi' in Hk. injection Hk as <-. split.
        * intros l Hl. destruct f; simpl in Hq.
          -- rewrite (Htake eq_refl) in Hl. done.
          -- destruct old; simpl in *; [done|..]; injection Hq as <-; done.
        * intros l Hl. congruence.
    - exists p. by rewrite list_lookup_insert_ne. }
  destruct (IH _ Hrest Hnodup) with (k := k) (p := p1) as (p' & Hp' & Htag' & Hdep').
  - intros k' f' a' new' Hin.
    destruct (Hpre k' f' a' new') as (p2 & Hp2 & Hrest2); [by right|].
    exists p2. split; [|done].
    rewrite list_lookup_insert_ne; [done|]. intros <-. apply Hi.
    apply list_elem_of_fmap. exists (i, (f', a')). split; [done|].
    apply list_elem_of_fmap. by exists ((i, (f', a')), new').
  - done.
  - exists p'. split; [done|]. split; auto.
Qed.

Section parse_json_matrix_properties.
Context `{Frontend}.

Lemma holds_matrices_weaken s s' jd p :
  s ⊆ s' → holds_matrices s jd p → holds_matrices s' jd p.
Proof.
  intros Hsub [Htag Hdep]. split.
  - intros tag Ht. destruct (Htag tag Ht) as (l & m & ? & Hl & ?).
    exists l, m. split; [done|]. split; [|done]. by eapply lookup_weaken.
  - intros dep Hd. destruct (Hdep dep Hd) as (l & m & ? & Hl & ?).
    exists l, m. split; [done|]. split; [|done]. by eapply lookup_weaken.
Qed.

Lemma json_matrix_inr x sh s l s' :
  json_matrix x sh s = (inr l, s') →
  s ⊆ s' ∧ ∃ m, s' !! l = Some m ∧ json_converts x sh m.
Proof.
  intros Hrun. split; [by eapply json_matrix_subseteq|]. revert Hrun.
  unfold json_matrix, mbind, Py_bind, lift.
  destruct (np_array x) as [e|a] eqn:Ha; [done|].
  destruct sh as [shape|]; simpl; [|done].
  destruct (reshape_astype_float32 a shape) as [e|m] eqn:Hm; [done|].
  unfold alloc. intros [= <- <-]. exists m. rewrite lookup_insert_eq.
  split; [done|]. by exists a, shape.
Qed.

Lemma json_scores_matrices jd s f p s' :
  json_scores jd s = (inr (f, p), s') →
  holds_matrices s' jd p ∧
  (f = None ∨ dep_of p = None ∧ (f = Some TakeNew → p = NoScores) ∧ f ≠ None).
Proof.
  unfold json_scores, holds_matrices.
  destruct (jd_heads jd) as [dep|], (jd_head_tags jd) as [tag|].
  - intros [(e & _ & [=]) | (ld & s1 & Hdep & Hrun)]%PyJ_bind_inv.
    apply python_inv in Hdep as [(e' & _ & [=]) | (? & Hdep & [= <-])].
    apply json_matrix_inr in Hdep as (_ & md & Hmd & Hcd).
    apply PyJ_bind_inv in Hrun as [(e & _ & [=]) | (lt & s2 & Htag & [= <- <- <-])].
    apply python_inv in Htag as [(e' & _ & [=]) | (? & Htag & [= <-])].
    apply json_matrix_inr in Htag as (Hsub & mt & Hmt & Hct).
    split; [|by left]. split.
    + intros ? [= <-]. by exists lt, mt.
    + intros ? [= <-]. exists ld, md. split; [done|]. split; [|done].
      by eapply lookup_weaken.
  - done.
  - intros [(e & _ & [=]) | (lt & s2 & Htag & [= <- <- <-])]%PyJ_bind_inv.
    apply python_inv in Htag as [(e' & _ & [=]) | (? & Htag & [= <-])].
    apply json_matrix_inr in Htag as (Hsub & mt & Hmt & Hct).
    split; [|by right]. split; [|done].
    intros ? [= <-]. by exists lt, mt.
  - intros [= <- <- <-]. split; [by split|]. by right.
Qed.

Lemma parse_json_entry_matrices st i jd s st' s' :
  parse_json_entry st i jd s = (inr st', s') →
  ∃ p new,
    jl_probs st' = jl_probs st ++ [p] ∧
    jl_unprocessed st' = jl_unprocessed st ++ new ∧
    holds_matrices s' jd p ∧
    (new = [] ∨
     ∃ f w, new = [(i, (f, w))] ∧ dep_of p = None ∧ (f = TakeNew → p = NoScores)).
Proof.
  unfold parse_json_entry.
  intros [(e & _ & [=]) | (categories & s0 & Hcat & Hrun)]%PyJ_bind_inv.
  apply python_lift_inv in Hcat as [-> _].
  apply PyJ_bind_inv in Hrun as [(e & _ & [=]) | (ws & s0 & Hws & Hrun)].
  apply python_lift_inv in Hws as [-> _].
  apply PyJ_bind_inv in Hrun as [(e & _ & [=]) | (words & s0 & Hden & Hrun)].
  apply python_lift_inv in Hden as [-> _].
  apply PyJ_bind_inv in Hrun as [(e & _ & [=]) | ([f td] & s1 & Hsc & [= <- <-])].
  apply json_scores_matrices in Hsc as (Hholds & Hf). simpl.
  destruct f as [f|].
  - exists td, [(i, (f, words))]. split; [done|]. split; [done|]. split; [done|]. right.
    destruct Hf as [[=] | (Hdep & Htake & _)]. exists f, words.
    split; [done|]. split; [done|]. intros ->. by apply Htake.
  - exists td, []. rewrite app_nil_r. split; [done|]. split; [done|]. split; [done|].
    by left.
Qed.

Lemma parse_json_loop_matrices st i json_input s st' s' :
  parse_json_loop st i json_input s = (inr st', s') →
  ∃ new_probs new,
    jl_probs st' = jl_probs st ++ new_probs ∧
    jl_unprocessed st' = jl_unprocessed st ++ new ∧
    Forall2 (holds_matrices s') json_input new_probs ∧
    NoDup new.*1 ∧
    ∀ k f w, (k, (f, w)) ∈ new →
      i ≤ k ∧ ∃ p, new_probs !! (k - i) = Some p ∧ dep_of p = None ∧
        (f = TakeNew → p = NoScores).
Proof.
  revert st i s. induction json_input as [|jd rest IH]; intros st i s.
  { intros [= <- <-]. exists [], []. rewrite !app_nil_r.
    split; [done|]. split; [done|]. split; [constructor|]. split; [constructor|].
    by intros k f w ?%elem_of_nil. }
  change (parse_json_loop st i (jd :: rest))
    with (parse_json_entry st i jd ≫= λ st', parse_json_loop st' (S i) rest).
  intros [(e & _ & [=]) | (st1 & s1 & Hentry & Hrest)]%PyJ_bind_inv.
  apply parse_json_entry_matrices in Hentry as (p & new1 & Hp1 & Hu1 & Hholds1 & Hnew1).
  pose proof (parse_json_loop_run _ _ _ _ _ _ Hrest) as (Hsub & _).
  apply IH in Hrest as (new_probs & new2 & Hp2 & Hu2 & Hholds2 & Hnodup2 & Hkeys2).
  exists (p :: new_probs), (new1 ++ new2).
  split; [by rewrite Hp2, Hp1, <- app_assoc|].
  split; [by rewrite Hu2, Hu1, <- app_assoc|].
  split; [constructor; [by eapply holds_matrices_weaken|done]|].
  assert (∀ k f w, (k, (f, w)) ∈ new2 → S i ≤ k) as Hlater.
  { intros k f w Hin. by destruct (Hkeys2 k f w Hin). }
  split.
  { destruct Hnew1 as [-> | (f & w & -> & _)]; [done|]. simpl.
    apply NoDup_cons. split; [|done].
    intros ([k [f' w']] & Hk & Hin)%list_elem_of_fmap. simpl in Hk. subst k.
    apply Hlater in Hin. lia. }
  intros k f w [Hin | Hin]%elem_of_app.
  - destruct Hnew1 as [-> | (f1 & w1 & -> & Hdep1 & Htake1)]; [by apply elem_of_nil in Hin|].
    apply list_elem_of_singleton in Hin as [= -> -> ->].
    split; [done|]. exists p. rewrite Nat.sub_diag. by repeat split.
  - destruct (Hkeys2 k f w Hin) as (Hle & p' & Hp' & Hrest').
    split; [lia|]. exists p'. split; [|done].
    replace (k - i) with (S (k - S i)) by lia. done.
Qed.

(** X22.  With a tagger that only creates arrays: when [parse_json]
    returns, the call of [_parse_doc_tag_and_dep] it made got, for every
    entry of the input, a pair of matrices whose tag matrix is the array
    the entry's [head_tags] converts to, if the entry has [head_tags], and
    whose dependency matrix is the array its [heads] converts to, if it
    has [heads]; the tagger's matrices fill only what the entry lacks. *)
Theorem parse_json_matrices self json_input batchsize s res s' :
  (∀ t w b s0 o s1, predict_doc t w b s0 = (o, s1) → s0 ⊆ s1) →
  parse_json self json_input batchsize s = (inr res, s') →
  ∃ sents probs tl constraints,
    _parse_doc_tag_and_dep self sents probs tl constraints s' = (inr res, s') ∧
    ∀ i jd, json_input !! i = Some jd →
      ∃ pc pd, probs !! i = Some (pc, pd) ∧
        (∀ tag, jd_head_tags jd = Some tag →
           ∃ m, s' !! pc = Some m ∧ json_converts tag (jd_head_tags_shape jd) m) ∧
        (∀ dep, jd_heads jd = Some dep →
           ∃ m, s' !! pd = Some m ∧ json_converts dep (jd_heads_shape jd) m).
Proof.
  intros Hpredict
    (st & s1 & probs & s2 & constraints & Hloop & Hassign & Hconv & Hrun)%parse_json_inr.
  pose proof (parse_json_loop_run _ _ _ _ _ _ Hloop) as (_ & _ & Hok).
  destruct (Hok st eq_refl)
    as (_ & _ & _ & _ & _ & new_probs' & new' & Hprobs' & _ & Hunp' & Hscored & _).
  apply parse_json_loop_matrices in Hloop
    as (new_probs & new & Hprobs & Hunp & Hholds & Hnodup & Hkeys).
  simpl in *.
  assert (new_probs' = new_probs) as -> by congruence.
  assert (new' = new) as -> by congruence.
  pose proof (assign_unprocessed_subseteq _ _ _ _ _ _ Hpredict Hassign) as Hsub.
  apply convert_json_constraints_inr in Hconv as [_ Hspans].
  assert (s' = s2) as ->.
  { by eapply parse_doc_span_constraints_store. }
  exists (jl_sents st), (omap scores_of probs), (jl_categories st), constraints.
  split; [done|].
  assert (Forall (λ e, ∃ tag dep, e = TagAndDep tag dep) probs ∧
          ∀ k p, new_probs !! k = Some p →
            ∃ p', probs !! k = Some p' ∧
              (∀ l, tag_of p = Some l → tag_of p' = Some l) ∧
              (∀ l, dep_of p = Some l → dep_of p' = Some l)) as [Hall Hkeep].
  { unfold assign_unprocessed in Hassign. rewrite Hunp, Hprobs in Hassign.
    destruct new as [|u us].
    { injection Hassign as <- <-. split; [by apply Hscored|].
      intros k p Hk. by exists p. }
    remember (u :: us) as new eqn:Hnew.
    unfold mbind at 1, Py_bind at 1 in Hassign.
    destruct (tagger self) as [t|]; [|done]. simpl in Hassign.
    apply Py_bind_inv in Hassign as [(e & _ & [=]) | (preds & s3 & _ & Hassign)].
    unfold mbind, Py_bind, lift in Hassign.
    destruct (assign_new _ _) as [e|probs0] eqn:Hnew0; [done|].
    destruct (assert_all_scored probs0) as [e|[]] eqn:Hassert; [done|].
    injection Hassign as <- <-.
    split; [by apply assert_all_scored_inr|].
    eapply assign_new_keeps; [exact Hnew0| |].
    - assert (NoDup (sorted_items new).*1) as Hnd.
      { by rewrite sorted_items_perm. }
      apply (sublist_NoDup _ (sorted_items new).*1); [exact Hnd|].
      clear. generalize (sorted_items new). intros l. revert preds.
      induction l as [|x l IH]; intros [|y preds]; simpl;
        [done|done|apply sublist_nil_l|].
      by apply sublist_skip.
    - intros k f a new0 Hin.
      assert ((k, (f, a)) ∈ new) as Hk.
      { rewrite <- (sorted_items_perm new).
        apply elem_of_zip_l in Hin. done. }
      destruct (Hkeys k f a Hk) as (_ & p & Hp & Hdep & Htake).
      rewrite Nat.sub_0_r in Hp. by exists p. }
  intros i jd Hjd.
  destruct (Forall2_lookup_l _ _ _ _ _ Hholds Hjd) as (p & Hp & Htag & Hdep).
  destruct (Hkeep i p Hp) as (p' & Hp' & Htag' & Hdep').
  rewrite Forall_forall in Hall.
  destruct (Hall p') as (pc & pd & ->); [by eapply list_elem_of_lookup_2|].
  exists pc, pd. split.
  { clear -Hp' Hall. revert i Hp'. rewrite <- Forall_forall in Hall.
    induction Hall as [|e probs (t & d & ->) _ IH]; intros i Hi; [done|].
    destruct i as [|i]; simpl in *; [by injection Hi as <- <-|]. by apply IH. }
  split.
  - intros tag Ht. destruct (Htag tag Ht) as (l & m & Hl & Hm & Hc).
    apply Htag' in Hl. simpl in Hl. injection Hl as <-.
    exists m. split; [by eapply lookup_weaken|done].
  - intros dep Hd. destruct (Hdep dep Hd) as (l & m & Hl & Hm & Hc).
    apply Hdep' in Hl. simpl in Hl. injection Hl as <-.
    exists m. split; [by eapply lookup_weaken|done].
Qed.

End parse_json_matrix_properties.

Lemma parse_json_matrices_witness :
  ∃ sents probs tl constraints,
    @_parse_doc_tag_and_dep string_categories first_row_engine
      (example_parser English) sents probs tl constraints example_json_run.2
      = (inr [[(@from_ptr string_categories first_row_engine "N" (Some "en"),
                (-1)%float)]], example_json_run.2) ∧
    ∀ i jd, [example_entry] !! i = Some jd →
      ∃ pc pd, probs !! i = Some (pc, pd) ∧
        (∀ tag, jd_head_tags jd = Some tag →
           ∃ m, example_json_run.2 !! pc = Some m ∧
             json_converts tag (jd_head_tags_shape jd) m) ∧
        (∀ dep, jd_heads jd = Some dep →
           ∃ m, example_json_run.2 !! pd = Some m ∧
             json_converts dep (jd_heads_shape jd) m).
Proof.
  apply (@parse_json_matrices string_categories first_row_engine example_frontend
           (example_parser English) [example_entry] 16%Z ∅).
  - intros t w b s0 o s1 [= _ <-]. reflexivity.
  - reflexivity.
Defined.

(** ** A terminal constraint, from the call to the engine *)

Section constrained_row.
Context `{Engine}.

(** The row a constraint leaves, when no later constraint of the list
    selects the same row. *)
Lemma for_each_constraints_row (before after : list (Category * Z)) cat i
    tp tl s s' a n m :
  for_each (before ++ (cat, i) :: after) (apply_terminal_constraint (make_tag_dict tl) tp) s
    = (inr tt, s') →
  s !! tp = Some a → shape a = [n; m] → ndarray_wf a →
  (∀ cat' i', (cat', i') ∈ after →
     i' ≠ i ∧ i' ≠ (i + Z.of_nat n)%Z ∧ i' ≠ (i - Z.of_nat n)%Z) →
  ∃ k j a',
    normalize_index i n = inr k ∧
    tl !! j = Some cat ∧ (∀ j', j < j' → tl !! j' ≠ Some cat) ∧ j < m ∧
    s' !! tp = Some a' ∧ shape a' = [n; m] ∧ arr_dtype a' = arr_dtype a ∧
    length (data a') = length (data a) ∧
    ∀ j', j' < m →
      ndarray_get a' k j' =
      Some (cast (arr_dtype a) (if decide (j' = j) then 0%float else pseudo_neginf)).
Proof.
  intros Hloop Ha Hs Hwf Hafter.
  rewrite for_each_app in Hloop.
  destruct (for_each before _ s) as [[e|[]] s1] eqn:Hbefore; [done|].
  apply for_each_constraints_frame in Hbefore as (_ & _ & Hsame1).
  destruct (Hsame1 a Ha) as (a1 & Ha1 & Hsh1 & Hdt1 & Hlen1 & _).
  change (for_each ((cat, i) :: after) (apply_terminal_constraint (make_tag_dict tl) tp))
    with (apply_terminal_constraint (make_tag_dict tl) tp (cat, i)
            ≫= λ _, for_each after (apply_terminal_constraint (make_tag_dict tl) tp))
    in Hloop.
  apply Py_bind_inv in Hloop as [(e & _ & [=]) | ([] & s2 & Hone & Hrest)].
  assert (ndarray_wf a1) as Hwf1 by (unfold ndarray_wf in *; congruence).
  rewrite Hs in Hsh1.
  destruct (apply_terminal_constraint_row _ _ _ _ _ _ a1 n m Hone Ha1 Hsh1 Hwf1)
    as (k & j & a2 & Hk & Hj & Hjm & Ha2 & Hsh2 & Hdt2 & Hwf2 & Hget).
  apply for_each_constraints_frame in Hrest as (_ & _ & Hsame3).
  destruct (Hsame3 a2 Ha2) as (a3 & Ha3 & Hsh3 & Hdt3 & Hlen3 & Hrows).
  apply make_tag_dict_lookup in Hj as [Hj Hlast].
  pose proof (normalize_index_lt _ _ _ Hk) as Hkn.
  exists k, j, a3. repeat split; [done..|congruence|congruence| |].
  { unfold ndarray_wf in Hwf1, Hwf2. rewrite Hlen3. congruence. }
  intros j' Hj'. rewrite (ndarray_get_row a3 n m) by (done || congruence).
  rewrite (Hrows n [m] k Hsh2).
  - rewrite <- (ndarray_get_row a2 n m) by done. rewrite Hget by done. by rewrite Hdt1.
  - intros (cat' & i' & Hin & Hsel).
    destruct (Hafter cat' i' Hin) as (? & ? & ?).
    apply normalize_index_spec in Hk as [_ Hi]. unfold selects in Hsel. lia.
Qed.

(** A step of the loop over the sentences keeps the layout of every
    array. *)
Lemma build_terminal_constraints_layout constraints tp tl s out s' l a :
  build_terminal_constraints constraints tp tl s = (out, s') →
  s !! l = Some a →
  ∃ a', s' !! l = Some a' ∧ shape a' = shape a ∧ arr_dtype a' = arr_dtype a ∧
    length (data a') = length (data a).
Proof.
  intros Hrun Ha.
  destruct (build_terminal_constraints_replayable _ _ _ _ _ _ Hrun) as (ov & Hov & _).
  specialize (Hov l). rewrite Ha in Hov.
  destruct (s' !! l) as [a'|]; [|done]. destruct Hov as (? & ? & ? & _). by exists a'.
Qed.

Lemma load_constraints_row zipped ur tl s r s' q c pc pd before cat i after a n m :
  load_constraints zipped ur tl s = (inr r, s') →
  zipped !! q = Some (c, (pc, pd)) →
  (∀ q' c' pd', q' ≠ q → zipped !! q' = Some (c', (pc, pd')) → terminal_of c' = []) →
  terminal_of c = before ++ (cat, i) :: after →
  (∀ cat' i', (cat', i') ∈ after →
     i' ≠ i ∧ i' ≠ (i + Z.of_nat n)%Z ∧ i' ≠ (i - Z.of_nat n)%Z) →
  s !! pc = Some a → shape a = [n; m] → ndarray_wf a →
  ∃ k j a',
    normalize_index i n = inr k ∧
    tl !! j = Some cat ∧ (∀ j', j < j' → tl !! j' ≠ Some cat) ∧ j < m ∧
    s' !! pc = Some a' ∧
    ∀ j', j' < m →
      ndarray_get a' k j' =
      Some (cast (arr_dtype a) (if decide (j' = j) then 0%float else pseudo_neginf)).
Proof.
  revert s r q a. induction zipped as [|[c0 [pc0 pd0]] zipped IH]; intros s r q a; [done|].
  simpl. intros Hrun Hq Hothers Hc Hafter Ha Hs Hwf.
  unfold mbind at 1, Py_bind at 1, lift at 1 in Hrun.
  destruct (build_nonterminal_constraints _ _) as [e|nt]; [done|].
  apply Py_bind_inv in Hrun as [(e & _ & [=]) | (r0 & s1 & Hterm & Hrest)].
  apply Py_bind_inv in Hrest as [(e & _ & [=]) | ([cs np] & s2 & Hrest & [= <- <-])].
  destruct q as [|q].
  - injection Hq as -> -> ->.
    unfold build_terminal_constraints in Hterm.
    apply Py_bind_inv in Hterm as [(e & _ & [=]) | ([] & s3 & Hloop & [= <- <-])].
    rewrite Hc in Hloop.
    destruct (for_each_constraints_row _ _ _ _ _ _ _ _ _ _ _ Hloop Ha Hs Hwf Hafter)
      as (k & j & a1 & Hk & Hj & Hlast & Hjm & Ha1 & _ & _ & _ & Hget).
    exists k, j, a1. repeat split; [done..| |done].
    rewrite <- Ha1. eapply load_constraints_frame; [done|].
    intros c' pd' [q' Hq']%list_elem_of_lookup.
    apply (Hothers (S q') c' pd'); [done|]. done.
  - destruct (build_terminal_constraints_layout _ _ _ _ _ _ pc a Hterm Ha)
      as (a1 & Ha1 & Hsh1 & Hdt1 & Hlen1).
    destruct (IH s1 (cs, np) q a1) as (k & j & a' & Hk & Hj & Hlast & Hjm & Ha' & Hget);
      try done.
    + intros q' c' pd' Hne Hq'. apply (Hothers (S q') c' pd'); [lia|done].
    + congruence.
    + unfold ndarray_wf in *. congruence.
    + exists k, j, a'. repeat split; [done..|]. by rewrite <- Hdt1.
Qed.

(** X23.  What a terminal constraint does, end to end.  When a call with
    constraints returns, and [(cat, i)] is a terminal constraint of
    sentence [q] that no later constraint of that sentence overrides, and
    no other sentence with terminal constraints shares the tag matrix of
    [q], then in the scores the engine was handed for sentence [q] the
    token the index [i] selects has score 0 for [cat] (the last column of
    that tag) and [pseudo_neginf] rounded to [float32] for every other
    tag. *)
Theorem parse_doc_constrained_row self sents probs tag_list_arg constraints s res s'
    q sent c pc pd before cat i after :
  (∀ l a, s !! l = Some a → ndarray_wf a) →
  _parse_doc_tag_and_dep self sents probs tag_list_arg (Some constraints) s = (inr res, s') →
  sents !! q = Some sent → constraints !! q = Some c → probs !! q = Some (pc, pd) →
  (∀ q' c' pd', q' ≠ q → constraints !! q' = Some c' → probs !! q' = Some (pc, pd') →
     terminal_of c' = []) →
  terminal_of c = before ++ (cat, i) :: after →
  (∀ cat' i', (cat', i') ∈ after →
     i' ≠ i ∧ i' ≠ (i + Z.of_nat (length (split_space sent)))%Z ∧
     i' ≠ (i - Z.of_nat (length (split_space sent)))%Z) →
  ∃ cfg req k j t,
    convert_config self tag_list_arg = inr cfg ∧
    collect (lang self) (cfg_nbest cfg) (ParseSentences req) 0 (length sents) = inr res ∧
    normalize_index i (length (split_space sent)) = inr k ∧
    cfg_tag_list cfg !! j = Some cat ∧
    (∀ j', j < j' → cfg_tag_list cfg !! j' ≠ Some cat) ∧
    tags req !! q = Some t ∧
    ∀ j', j' < length (cfg_tag_list cfg) →
      t !! (k * length (cfg_tag_list cfg) + j') =
      Some (to_float32 (if decide (j' = j) then 0%float else pseudo_neginf)).
Proof.
  intros Hwf Hrun Hsent Hc Hp Hothers Hterm Hafter.
  apply parse_doc_inr in Hrun
    as (cfg & cc & probs' & s1 & checked & Hcfg & Hprep & Hcheck & Hlen & Hcol).
  pose proof (check_shapes_store _ _ _ _ _ _ _ Hcheck) as ->.
  pose proof (prepare_constraints_spec _ _ _ _ _ _ _ Hprep) as [Hss Hprobs].
  specialize (Hprobs cc probs' eq_refl).
  apply check_shapes_checked in Hcheck as [Hlen' Hq].
  assert (q < length sents) as Hqlt by (by eapply lookup_lt_Some).
  assert (probs' !! q = Some (pc, pd)) as Hp' by (by rewrite Hprobs).
  destruct (Hq q pc pd Hp')
    as (sent' & cat_arr & dep_arr & Hsent' & Hcat & Hdep & Hd1 & _ & Hs1 & _ & Hts & Hchk).
  simpl in Hsent'. rewrite Hsent in Hsent'. injection Hsent' as <-.
  pose proof (Hss pc) as Hpc. rewrite Hcat in Hpc.
  destruct (s !! pc) as [a|] eqn:Ha; [|done]. destruct Hpc as [Hsh Hdt].
  unfold prepare_constraints in Hprep.
  case_bool_decide as Hdoc; simpl in Hprep; [|done].
  apply Py_bind_inv in Hprep as [(e & _ & [=]) | ([cs np] & s2 & Hload & Hret)].
  injection Hret as _ _ ->.
  destruct (load_constraints_row _ _ _ _ _ _ q c pc pd before cat i after a
              (length (split_space sent)) (length (cfg_tag_list cfg)) Hload)
    as (k & j & a' & Hk & Hj & Hlast & Hjm & Ha' & Hget); try done.
  { rewrite lookup_zip_with, Hc. simpl. by rewrite Hp. }
  { intros q' c' pd' Hne Hq'.
    apply lookup_zip_with_Some in Hq' as (c0 & p0 & [= <- <-] & Hc0 & Hp0).
    by eapply Hothers. }
  { congruence. }
  { by eapply Hwf. }
  rewrite Hcat in Ha'. injection Ha' as <-.
  pose proof (normalize_index_lt _ _ _ Hk) as Hkn.
  exists cfg, (request cfg (length sents) checked cc), k, j, (data cat_arr).
  split; [done|]. split; [done|]. split; [done|]. split; [done|]. split; [done|].
  split.
  { simpl. by rewrite !list_lookup_fmap, Hchk. }
  intros j' Hj'. specialize (Hget j' Hj').
  unfold ndarray_get in Hget. rewrite Hs1 in Hget.
  rewrite bool_decide_true in Hget by done.
  rewrite Hget. by rewrite <- Hdt, Hd1.
Qed.

End constrained_row.

Lemma parse_doc_constrained_row_witness :
  ∃ cfg req k j t,
    @convert_config string_categories first_row_engine (example_parser English) None
      = inr cfg ∧
    collect (lang (example_parser English)) (cfg_nbest cfg) (ParseSentences req) 0
      (length ["John"])
      = inr [[(@from_ptr string_categories first_row_engine "N" (Some "en"), 0%float)]] ∧
    normalize_index 0 (length (split_space "John")) = inr k ∧
    cfg_tag_list cfg !! j = Some "N" ∧
    (∀ j', j < j' → cfg_tag_list cfg !! j' ≠ Some "N") ∧
    tags req !! 0 = Some t ∧
    ∀ j', j' < length (cfg_tag_list cfg) →
      t !! (k * length (cfg_tag_list cfg) + j') =
      Some (to_float32 (if decide (j' = j) then 0%float else pseudo_neginf)).
Proof.
  apply (@parse_doc_constrained_row string_categories first_row_engine
           (example_parser English) ["John"] [(1%positive, 2%positive)] None
           [[@Terminal string_categories "N" 0%Z]] example_batch_store
           _ example_constrained_run.2 0 "John"
           [@Terminal string_categories "N" 0%Z] 1%positive 2%positive [] "N" 0%Z []).
  - intros l a Hl. unfold example_batch_store in Hl.
    repeat (apply lookup_insert_Some in Hl as [[_ <-]|[_ Hl]]; [reflexivity|]).
    apply lookup_singleton_Some in Hl as [_ <-]. reflexivity.
  - reflexivity.
  - reflexivity.
  - reflexivity.
  - reflexivity.
  - intros [|q'] c' pd' Hne Hc' _; done.
  - reflexivity.
  - intros cat' i' Hin. by apply elem_of_nil in Hin.
Defined.

(** ** The span constraints, from the call to the engine *)

Section span_constraints.
Context `{Engine}.

Lemma build_nonterminal_constraints_inr py_constraints ur pc :
  build_nonterminal_constraints py_constraints ur = inr pc →
  pc = mk_PartialConstraints (Some ur) py_constraints.
Proof.
  unfold build_nonterminal_constraints.
  intros (spans & Hspans & [= <-])%res_bind_inr. f_equal.
  revert spans Hspans. induction py_constraints as [|[[cat st] len] cs IH]; intros spans; simpl.
  { by intros [= <-]. }
  intros (y & Hy & (ys & Hys & [= <-])%res_bind_inr)%res_bind_inr.
  apply res_bind_inr in Hy as (st' & Hst & (len' & Hl & [= <-])%res_bind_inr).
  unfold as_int in Hst, Hl. repeat case_bool_decide; try done.
  injection Hst as <-. injection Hl as <-. f_equal. by apply IH.
Qed.

Lemma load_constraints_spans zipped ur tl s cs np s' :
  load_constraints zipped ur tl s = (inr (cs, np), s') →
  cs = (λ z, mk_PartialConstraints (Some ur) (nonterminal_of z.1)) <$> zipped.
Proof.
  revert s cs np. induction zipped as [|[c [pc pd]] zipped IH]; intros s cs np; simpl.
  { by intros [= <- <- <-]. }
  unfold mbind at 1, Py_bind at 1, lift at 1.
  destruct (build_nonterminal_constraints _ _) as [e|nt] eqn:Hnt; [done|].
  apply build_nonterminal_constraints_inr in Hnt as ->.
  intros [(e & _ & [=]) | (r0 & s1 & _ & Hrest)]%Py_bind_inv.
  apply Py_bind_inv in Hrest as [(e & _ & [=]) | ([cs' np'] & s2 & Hrest & [= <- <- <-])].
  f_equal. by eapply IH.
Qed.

(** X24.  When a call returns, the engine was handed one
    [PartialConstraints] per sentence: with constraints, the one built on
    the converted unary rules that holds the span constraints of the
    sentence, unchanged and in their order (the terminal constraints are
    not in it); without constraints, the default one, which holds no span
    and no unary rules. *)
Theorem parse_doc_span_constraints self sents probs tag_list_arg constraints s res s' :
  _parse_doc_tag_and_dep self sents probs tag_list_arg constraints s = (inr res, s') →
  ∃ cfg req,
    convert_config self tag_list_arg = inr cfg ∧
    collect (lang self) (cfg_nbest cfg) (ParseSentences req) 0 (length sents) = inr res ∧
    length (c_constraints req) = length sents ∧
    c_constraints req =
      match constraints with
      | Some cs =>
          (λ c, mk_PartialConstraints (Some (cfg_unary_rules cfg)) (nonterminal_of c)) <$> cs
      | None => replicate (length sents) (mk_PartialConstraints None [])
      end.
Proof.
  intros (cfg & cc & probs' & s1 & checked & Hcfg & Hprep & Hcheck & Hlen & Hcol)%parse_doc_inr.
  exists cfg, (request cfg (length sents) checked cc).
  split; [done|]. split; [done|]. simpl.
  apply check_shapes_checked in Hcheck as [Hlen' _].
  unfold prepare_constraints in Hprep.
  destruct constraints as [cs|].
  2:{ injection Hprep as <- <- <-. by rewrite length_replicate. }
  case_bool_decide as Hdoc; simpl in Hprep; [|done].
  apply Py_bind_inv in Hprep as [(e & _ & [=]) | ([ccs np] & s2 & Hload & Hret)].
  injection Hret as <- <- <-.
  pose proof (load_constraints_spec _ _ _ _ _ _ Hload) as [_ Hspec].
  destruct (Hspec ccs np eq_refl) as [-> Hlenc].
  apply load_constraints_spans in Hload as ->.
  rewrite length_fmap in Hlen'. rewrite length_fmap in Hlenc.
  assert (length (zip cs probs) = length cs) as Hzip.
  { rewrite length_zip_with in *. lia. }
  rewrite length_fmap, Hzip, Hdoc, Nat.sub_diag, app_nil_r.
  split; [by rewrite length_fmap, Hzip|].
  rewrite <- (fst_zip cs probs) at 2 by (rewrite length_zip_with in Hzip; lia).
  by rewrite <- list_fmap_compose.
Qed.

End span_constraints.

Lemma parse_doc_span_constraints_witness :
  ∃ cfg req,
    @convert_config string_categories first_row_engine (example_parser English) None
      = inr cfg ∧
    collect (lang (example_parser English)) (cfg_nbest cfg) (ParseSentences req) 0
      (length ["John"])
      = inr [[(@from_ptr string_categories first_row_engine "N" (Some "en"), (-1)%float)]] ∧
    length (c_constraints req) = length ["John"] ∧
    c_constraints req =
      match Some [[@NonTerminal string_categories (Some "NP") 0%Z 1%Z]] with
      | Some cs =>
          (λ c, mk_PartialConstraints (Some (cfg_unary_rules cfg)) (nonterminal_of c)) <$> cs
      | None => replicate (length ["John"]) (mk_PartialConstraints None [])
      end.
Proof.
  apply (@parse_doc_span_constraints string_categories first_row_engine
           (example_parser English) ["John"] [(1%positive, 2%positive)] None
           (Some [[@NonTerminal string_categories (Some "NP") 0%Z 1%Z]])
           example_batch_store _ example_batch_store).
  reflexivity.
Defined.
